(** * html-util [lib/parse.js]: a callback-driven HTML tokenizer

    Shallow embedding of [src/lib/parse.js] and verification of its
    specification.  The program is a single loop over a shrinking string,
    driven by seven regular expressions; the embedding therefore contains

    - ECMAScript strings as lists of UTF-16 code units,
    - the fragment of the ECMAScript pattern language used by the program,
      with the backtracking matcher of the language specification
      (continuation-passing, priority order, captures),
    - the RegExp and String built-ins the program calls ([match], [search],
      [test], [replace] with a global pattern, [slice], [indexOf]),
    - the object literal that collects the attributes,
    - the [lastIndex] fields that outlive a call, and
    - the functions of the module: [matchEndDefault], [onStartTag], [onTag],
      [onText], [rawEnd] and the exported [parse].

    Callbacks are observers: a call of a handler is recorded as an event,
    and [parse] returns the list of events, the way the call ended and the
    store.  The loop of [parse] need not end, so it is given a number of
    iterations; [Running] says that it has not ended within them.

    Case conversion and the parser of pattern sources are the host's
    ([Host]); the general theorems hold for every host, the worked examples
    are computed with [ascii_host]. *)

From Stdlib Require Import ZArith NArith List String Ascii Lia Bool.
From stdpp Require Import base option list gmap.
Import ListNotations.

Set Default Proof Using "Type".

(** ** Strings *)

(** A code unit of an ECMAScript string. *)
Definition char := N.
Definition str := list char.

Definition ch (a : ascii) : char := N_of_ascii a.

(** [js "abc"] is the ECMAScript string with the code units of an ASCII
    literal. *)
Definition js (s : string) : str := map N_of_ascii (list_ascii_of_string s).

Definition LT : char := ch "<".
Definition GT : char := ch ">".
Definition SLASH : char := ch "/".
Definition BANG : char := ch "!".
Definition EQUALS : char := ch "=".
Definition DASH : char := ch "-".
Definition BACKSLASH : char := ch "\".
Definition SQUOTE : char := ch "'".
Definition DQUOTE : char := 34%N.

(** [s.slice(start)] and [s.slice(start, end)]: a negative position counts
    from the end, every position is clamped to the string. *)
Definition slice_pos (len : nat) (p : Z) : nat :=
  if (p <? 0)%Z then Z.to_nat (Z.max (Z.of_nat len + p) 0)
  else Nat.min (Z.to_nat p) len.

Definition slice_from (s : str) (start : Z) : str :=
  drop (slice_pos (length s) start) s.

Definition slice (s : str) (start stop : Z) : str :=
  let from := slice_pos (length s) start in
  let to := slice_pos (length s) stop in
  take (to - from) (drop from s).

(** [s.indexOf(c)] for a one-character needle: the first position or -1. *)
Fixpoint indexOf_from (c : char) (s : str) (i : nat) : Z :=
  match s with
  | [] => (-1)%Z
  | d :: s' => if N.eqb d c then Z.of_nat i else indexOf_from c s' (S i)
  end.

Definition indexOf (s : str) (c : char) : Z := indexOf_from c s 0.

(** ** Patterns *)

(** Members of a character class. *)
Inductive atom :=
| AChar (c : char)
| ARange (lo hi : char)
| ASpace          (* \s *)
| ANonSpace.      (* \S *)

(** The pattern syntax used by the module (and offered to callers for the
    [rawTags] and [matchEnd] options). *)
Inductive regex :=
| Empty
| Bol                                   (* ^ *)
| Eol                                   (* $ *)
| Chr (c : char)
| Dot                                   (* . *)
| Class (invert : bool) (atoms : list atom)
| Seq (r1 r2 : regex)
| Alt (r1 r2 : regex)
| Rep (min : nat) (max : option nat) (greedy : bool) (r : regex)
| Group (n : nat) (r : regex).          (* n-th capturing parenthesis *)

Definition cat (rs : list regex) : regex := foldr Seq Empty rs.
Definition lit (s : str) : regex := cat (map Chr s).
Definition star (r : regex) : regex := Rep 0 None true r.
Definition lazy_star (r : regex) : regex := Rep 0 None false r.
Definition plus (r : regex) : regex := Rep 1 None true r.
Definition opt (r : regex) : regex := Rep 0 (Some 1) true r.
Definition space : regex := Class false [ASpace].
Definition any : regex := Class false [ASpace; ANonSpace].   (* [\s\S] *)
Definition none_of (atoms : list atom) : regex := Class true atoms.

(** A RegExp object without its [lastIndex], which lives in the store. *)
Record RegExp := mkRegExp {
  source : regex;
  global : bool;
  ignoreCase : bool;
  sticky : bool
}.

Inductive jserror :=
| Error (message : str)
| SyntaxError (message : str).

(** The built-ins of the host whose tables are not part of the program:
    Unicode case conversion and the parser of pattern sources behind
    [new RegExp(source, flags)]. *)
Class Host := {
  toLowerCase : str -> str;
  toUpperCase : str -> str;
  RegExp_new : str -> str -> jserror + RegExp
}.

(** White space and line terminators of the language ([\s]). *)
Definition is_line_terminator (c : char) : bool :=
  (N.eqb c 10 || N.eqb c 13 || N.eqb c 8232 || N.eqb c 8233)%N.

Definition is_space (c : char) : bool :=
  (N.eqb c 9 || N.eqb c 11 || N.eqb c 12 || N.eqb c 32 || N.eqb c 160
   || N.eqb c 65279 || N.eqb c 5760 || (N.leb 8192 c && N.leb c 8202)
   || N.eqb c 8239 || N.eqb c 8287 || N.eqb c 12288
   || is_line_terminator c)%N.

(** *** A host for the worked examples

    It agrees with an ECMAScript engine on strings of ASCII characters and
    on pattern sources free of syntax characters, where the pattern is the
    sequence of its characters. *)
Definition ascii_lower (c : char) : char :=
  if (N.leb 65 c && N.leb c 90)%N then (c + 32)%N else c.

Definition ascii_upper (c : char) : char :=
  if (N.leb 97 c && N.leb c 122)%N then (c - 32)%N else c.

Definition is_syntax_character (c : char) : bool :=
  existsb (N.eqb c) (js "^$\.*+?()[]{}|").

#[export] Instance ascii_host : Host := {|
  toLowerCase := map ascii_lower;
  toUpperCase := map ascii_upper;
  RegExp_new := fun src flags =>
    if existsb is_syntax_character src then inl (SyntaxError src)
    else inr {| source := lit src;
                global := existsb (N.eqb (ch "g")) flags;
                ignoreCase := existsb (N.eqb (ch "i")) flags;
                sticky := existsb (N.eqb (ch "y")) flags |}
|}.

(** ** The matcher *)

(** State of a match in progress: the input from the current position on,
    that position, and the captures so far (an absent group is undefined). *)
Record mstate := MState {
  rest : str;
  endIndex : nat;
  captures : gmap nat str
}.

Fixpoint groups (r : regex) : list nat :=
  match r with
  | Seq r1 r2 | Alt r1 r2 => groups r1 ++ groups r2
  | Rep _ _ _ r1 => groups r1
  | Group n r1 => n :: groups r1
  | _ => []
  end.

(** Code units from [lo] to [hi]. *)
Definition char_range (lo hi : char) : list char :=
  map (fun i => (lo + N.of_nat i)%N) (seq 0 (N.to_nat (hi + 1 - lo))).

Definition atom_in (a : atom) (c : char) : bool :=
  match a with
  | AChar d => N.eqb d c
  | ARange lo hi => (N.leb lo c && N.leb c hi)%N
  | ASpace => is_space c
  | ANonSpace => negb (is_space c)
  end.

Definition atom_members (a : atom) : list char :=
  match a with
  | AChar d => [d]
  | ARange lo hi => char_range lo hi
  | ASpace => filter (fun c => is_space c = true) (char_range 0%N 65535%N)
  | ANonSpace => filter (fun c => is_space c = false) (char_range 0%N 65535%N)
  end.

Section Model.
Context {host : Host}.

Section Matcher.
Variable ic : bool.   (* the IgnoreCase flag of the pattern *)

(** Canonicalize of the language specification (patterns without the
    unicode flag). *)
Definition Canonicalize (c : char) : char :=
  if ic then
    match toUpperCase [c] with
    | [cu] => if (N.leb 128 c && N.ltb cu 128)%N then c else cu
    | _ => c
    end
  else c.

(** CharacterSetMatcher: some member of the set has the canonical form of
    the input character. *)
Definition class_has (atoms : list atom) (c : char) : bool :=
  if ic then
    existsb (fun a => existsb (fun d => N.eqb (Canonicalize d) (Canonicalize c))
                              (atom_members a)) atoms
  else existsb (fun a => atom_in a c) atoms.

Definition advance (x : mstate) (rest' : str) : mstate :=
  MState rest' (S (endIndex x)) (captures x).

Definition one_char (p : char -> bool) (x : mstate)
    (c : mstate -> option mstate) : option mstate :=
  match rest x with
  | d :: rest' => if p d then c (advance x rest') else None
  | [] => None
  end.

Definition clear_captures (ns : list nat) (x : mstate) : mstate :=
  MState (rest x) (endIndex x) (foldr delete (captures x) ns).

(** RepeatMatcher of the language specification for a quantified atom with
    matcher [m] and capturing parentheses [parens]: at most [max] and at least
    [min] rounds of [m], more rounds first when greedy.  An empty round is
    rejected once the minimum is reached, so every further round consumes
    input and [min + |rest| + 1] rounds of [fuel] are never used up. *)
Fixpoint RepeatMatcher
    (m : mstate -> (mstate -> option mstate) -> option mstate)
    (parens : list nat) (greedy : bool) (c : mstate -> option mstate)
    (fuel min : nat) (max : option nat) (x : mstate) {struct fuel}
    : option mstate :=
  match fuel with
  | 0 => None
  | S fuel' =>
      match max with
      | Some 0 => c x
      | _ =>
          let d := fun y =>
            if Nat.eqb min 0 && Nat.eqb (endIndex y) (endIndex x) then None
            else RepeatMatcher m parens greedy c fuel'
                   (Nat.pred min) (Nat.pred <$> max) y in
          let xr := clear_captures parens x in
          if negb (Nat.eqb min 0) then m xr d
          else if greedy then
            match m xr d with
            | Some z => Some z
            | None => c x
            end
          else
            match c x with
            | Some z => Some z
            | None => m xr d
            end
      end
  end.

(** The matcher of a pattern takes a state and a continuation and returns
    the final state of the first successful way to match, in priority
    order. *)
Fixpoint matcher (r : regex) (x : mstate) (c : mstate -> option mstate)
    {struct r} : option mstate :=
  match r with
  | Empty => c x
  | Bol => if Nat.eqb (endIndex x) 0 then c x else None
  | Eol => match rest x with [] => c x | _ => None end
  | Chr a => one_char (fun d => N.eqb (Canonicalize a) (Canonicalize d)) x c
  | Dot => one_char (fun d => negb (is_line_terminator d)) x c
  | Class invert atoms => one_char (fun d => xorb invert (class_has atoms d)) x c
  | Seq r1 r2 => matcher r1 x (fun y => matcher r2 y c)
  | Alt r1 r2 =>
      match matcher r1 x c with
      | Some z => Some z
      | None => matcher r2 x c
      end
  | Rep min max greedy r1 =>
      RepeatMatcher (matcher r1) (groups r1) greedy c
        (S (min + length (rest x))) min max x
  | Group n r1 =>
      matcher r1 x (fun y =>
        c (MState (rest y) (endIndex y)
             (<[n := take (endIndex y - endIndex x) (rest x)]> (captures y))))
  end.

(** *** The ways to match, declaratively

    [matches r x y]: the pattern [r] can take the state [x] to the state
    [y].  The matcher explores these ways in priority order; the relation
    forgets the order and keeps what every way has in common. *)
Inductive matches : regex -> mstate -> mstate -> Prop :=
| matches_Empty x :
    matches Empty x x
| matches_Bol x :
    endIndex x = 0 -> matches Bol x x
| matches_Eol x :
    rest x = [] -> matches Eol x x
| matches_Chr a x d rest' :
    rest x = d :: rest' ->
    N.eqb (Canonicalize a) (Canonicalize d) = true ->
    matches (Chr a) x (advance x rest')
| matches_Dot x d rest' :
    rest x = d :: rest' ->
    is_line_terminator d = false ->
    matches Dot x (advance x rest')
| matches_Class invert atoms x d rest' :
    rest x = d :: rest' ->
    xorb invert (class_has atoms d) = true ->
    matches (Class invert atoms) x (advance x rest')
| matches_Seq r1 r2 x y z :
    matches r1 x y -> matches r2 y z -> matches (Seq r1 r2) x z
| matches_Alt_l r1 r2 x y :
    matches r1 x y -> matches (Alt r1 r2) x y
| matches_Alt_r r1 r2 x y :
    matches r2 x y -> matches (Alt r1 r2) x y
| matches_Rep_done min max greedy r x :
    min = 0 \/ max = Some 0 ->
    matches (Rep min max greedy r) x x
| matches_Rep_more min max greedy r x y z :
    max <> Some 0 ->
    matches r (clear_captures (groups r) x) y ->
    (min = 0 -> endIndex y <> endIndex x) ->
    matches (Rep (Nat.pred min) (Nat.pred <$> max) greedy r) y z ->
    matches (Rep min max greedy r) x z
| matches_Group n r x y :
    matches r x y ->
    matches (Group n r) x
      (MState (rest y) (endIndex y)
         (<[n := take (endIndex y - endIndex x) (rest x)]> (captures y))).

End Matcher.

(** ** RegExp and String built-ins *)

(** The result of a successful match: [m.index] ([m_index]), [m[0]]
    ([matched]) and the captures
    [m[1]], [m[2]], ... *)
Record MatchResult := mkMatch {
  m_index : nat;
  matched : str;
  capture : gmap nat str
}.

(** [m[n]] as passed to a callback: undefined when the group took no part. *)
Definition item_opt (m : MatchResult) (n : nat) : option str := capture m !! n.

(** [m[n]] where a string is needed.  The first two groups of [startTag]
    and the first of [endTag], [comment], [other] and [attr] take part in
    every match of their pattern ([startTag_items], [endTag_item],
    [comment_item], [other_item], [attr_exec_shape]), so the default is
    never used. *)
Definition item (m : MatchResult) (n : nat) : str := default [] (capture m !! n).

(** The loop of RegExpBuiltinExec over the start positions: the matcher is
    tried at [i], then at [i + 1], ... unless the pattern is sticky. *)
Fixpoint scan (R : RegExp) (rest : str) (i : nat) : option (nat * mstate) :=
  match matcher (ignoreCase R) (source R) (MState rest i ∅) Some with
  | Some y => Some (i, y)
  | None =>
      match rest with
      | [] => None
      | _ :: rest' => if sticky R then None else scan R rest' (S i)
      end
  end.

(** RegExpBuiltinExec: the result and the new value of [R.lastIndex].  Only a
    global or sticky pattern reads and writes [lastIndex]. *)
Definition RegExpBuiltinExec (R : RegExp) (lastIndex : nat) (s : str)
    : option MatchResult * nat :=
  let stateful := global R || sticky R in
  let start := if stateful then lastIndex else 0 in
  if length s <? start then (None, if stateful then 0 else lastIndex)
  else
    match scan R (drop start s) start with
    | None => (None, if stateful then 0 else lastIndex)
    | Some (i, y) =>
        (Some (mkMatch i (take (endIndex y - i) (drop i s)) (captures y)),
         if stateful then endIndex y else lastIndex)
    end.

(** [s.match(R)] for a pattern without the g and y flags, as are all
    patterns the module passes to [match]: one exec from position 0, which
    leaves [lastIndex] alone. *)
Definition String_match (s : str) (R : RegExp) : option MatchResult :=
  (RegExpBuiltinExec R 0 s).1.

(** [s.search(R)]: exec with [lastIndex] set to 0 and restored afterwards. *)
Definition String_search (s : str) (R : RegExp) : Z :=
  match (RegExpBuiltinExec R 0 s).1 with
  | Some m => Z.of_nat (m_index m)
  | None => (-1)%Z
  end.

(** [R.test(s)] with the current [lastIndex]: the answer and the new
    [lastIndex]. *)
Definition RegExp_test (R : RegExp) (lastIndex : nat) (s : str) : bool * nat :=
  let '(r, lastIndex') := RegExpBuiltinExec R lastIndex s in
  (bool_decide (is_Some r), lastIndex').

(** The matches that [s.replace(R, f)] hands to [f] for a global pattern,
    and the final [lastIndex].  The caller starts with [lastIndex = 0]; an
    empty match advances [lastIndex] by one. *)
Fixpoint replace_loop (fuel : nat) (R : RegExp) (s : str) (lastIndex : nat)
    : list MatchResult * nat :=
  match fuel with
  | 0 => ([], lastIndex)
  | S fuel' =>
      match RegExpBuiltinExec R lastIndex s with
      | (None, lastIndex') => ([], lastIndex')
      | (Some m, lastIndex') =>
          let next := match matched m with
                      | [] => S lastIndex'
                      | _ => lastIndex'
                      end in
          let '(ms, final) := replace_loop fuel' R s next in
          (m :: ms, final)
      end
  end.

Definition String_replace_global (s : str) (R : RegExp)
    : list MatchResult * nat :=
  replace_loop (length s + 2) R s 0.

(** ** The patterns of the module (lines 49-55) *)

Definition name_char : regex :=          (* [^\s=\/!>] *)
  none_of [ASpace; AChar EQUALS; AChar SLASH; AChar BANG; AChar GT].

(** [startTag] (line 49), laid out as in the comment of lines 25-48, with
    \x22 for the double quote:
<<
    /^<
      ([^\s=\/!>]+)
      (
        (?: \s+ [^\s=\/>]+
          (?: \s*=\s*
            (?: (?:\x22[^\x22]* \x22) | (?:'[^']* ') | [^>\s]+ )?
          )?
        )*
      )
      \s* (\/?) \s* >/
>> *)
Definition startTag : RegExp :=
  mkRegExp
    (cat [Bol; Chr LT;
          Group 1 (plus name_char);
          Group 2 (star (cat [
            plus space;
            plus (none_of [ASpace; AChar EQUALS; AChar SLASH; AChar GT]);
            opt (cat [star space; Chr EQUALS; star space;
                      opt (Alt (cat [Chr DQUOTE; star (none_of [AChar DQUOTE]); Chr DQUOTE])
                          (Alt (cat [Chr SQUOTE; star (none_of [AChar SQUOTE]); Chr SQUOTE])
                               (plus (none_of [AChar GT; ASpace]))))])]));
          star space;
          Group 3 (opt (Chr SLASH));
          star space;
          Chr GT])
    false false false.

(** [endTag] (line 50): /^<\/([^\s=\/!>]+)[^>]*>/ *)
Definition endTag : RegExp :=
  mkRegExp
    (cat [Bol; Chr LT; Chr SLASH; Group 1 (plus name_char);
          star (none_of [AChar GT]); Chr GT])
    false false false.

(** [comment] (line 51): /^<!--([\s\S]*?)-->/ *)
Definition comment : RegExp :=
  mkRegExp
    (cat [Bol; Chr LT; Chr BANG; Chr DASH; Chr DASH;
          Group 1 (lazy_star any);
          Chr DASH; Chr DASH; Chr GT])
    false false false.

(** [commentInside] (line 52): /<!--[\s\S]*?-->/ *)
Definition commentInside : RegExp :=
  mkRegExp
    (cat [Chr LT; Chr BANG; Chr DASH; Chr DASH;
          lazy_star any;
          Chr DASH; Chr DASH; Chr GT])
    false false false.

(** [other] (line 53): /^<([\s\S]*?)>/ *)
Definition other : RegExp :=
  mkRegExp (cat [Bol; Chr LT; Group 1 (lazy_star any); Chr GT])
    false false false.

(** [attr] (line 54), with \x22 for the double quote:
<<
    /([^\s=]+)
     (?: \s* (=) \s*
       (?: (?:\x22 ((?:\\.|[^\x22])* ) \x22)
         | (?:' ((?:\\.|[^'])* ) ')
         | ([^>\s]+)
       )?
     )?/g
>> *)
Definition attr : RegExp :=
  mkRegExp
    (cat [Group 1 (plus (none_of [ASpace; AChar EQUALS]));
          opt (cat [star space; Group 2 (Chr EQUALS); star space;
                    opt (Alt (cat [Chr DQUOTE;
                                   Group 3 (star (Alt (cat [Chr BACKSLASH; Dot])
                                                      (none_of [AChar DQUOTE])));
                                   Chr DQUOTE])
                        (Alt (cat [Chr SQUOTE;
                                   Group 4 (star (Alt (cat [Chr BACKSLASH; Dot])
                                                      (none_of [AChar SQUOTE])));
                                   Chr SQUOTE])
                             (Group 5 (plus (none_of [AChar GT; ASpace])))))])])
    true false false.

(** [rawTagsDefault] (line 55): /^(style|script)$/i *)
Definition rawTagsDefault : RegExp :=
  mkRegExp
    (cat [Bol; Group 1 (Alt (lit (js "style")) (lit (js "script"))); Eol])
    false true false.

(** [matchEndDefault] (lines 59-61) *)
Definition matchEndDefault (tagName : str) : jserror + RegExp :=
  RegExp_new (js "</" ++ tagName) (js "i").

(** ** The attribute object *)

(** A value stored for an attribute: [null] or a string. *)
Inductive attrval :=
| Null
| Str (s : str).

(** The object literal [{}] of [onStartTag] as far as assignments of
    strings and [null] can change it: its own properties and whether its
    prototype is still [Object.prototype]. *)
Record object := mkObject {
  own : gmap str attrval;
  has_prototype : bool
}.

Definition obj_empty : object := mkObject ∅ true.

(** [o[k] = v].  An ordinary key becomes an own property.  The key
    [__proto__] finds the accessor inherited from [Object.prototype] as long
    as the object has that prototype: its setter drops a string and takes
    [null] as the new prototype, and no own property is created. *)
Definition obj_set (k : str) (v : attrval) (o : object) : object :=
  if bool_decide (k = js "__proto__") && has_prototype o then
    match v with
    | Null => mkObject (own o) false
    | Str _ => o
    end
  else mkObject (<[k := v]> (own o)) (has_prototype o).

(** ** Callbacks *)

(** A call of a handler with its arguments.  [startHandler], [endHandler],
    [textHandler], [commentHandler] and [otherHandler] are always functions
    (the option or [empty]); the error handler exists only when given. *)
Inductive event :=
| CallStart (tag tagName : str) (attrs : object) (html : str)
| CallEnd (tag data html : str)
| CallText (text : str) (isRawText : bool) (html : str)
| CallComment (tag data html : str)
| CallOther (tag data html : str)
| CallError (err : jserror).

(** The options that steer the control flow. *)
Record options := mkOptions {
  error : bool;                        (* options.error is given *)
  matchEnd : option (str -> RegExp);   (* options.matchEnd *)
  rawTags : option RegExp              (* options.rawTags *)
}.

(** The [lastIndex] fields that outlive a call: of the module's global
    pattern [attr] and of the RegExp the variable [rawTags] refers to
    ([options.rawTags] or [rawTagsDefault]). *)
Record store := mkStore {
  attr_lastIndex : nat;
  rawTags_lastIndex : nat
}.

(** ** The functions of the module *)

(** [attr0 || attr1 || attr2 || (equals ? '' : null)] (line 73): the empty
    string and undefined are falsy. *)
Definition attr_value (equals attr0 attr1 attr2 : option str) : attrval :=
  match attr0 with
  | Some (c :: v) => Str (c :: v)
  | _ =>
      match attr1 with
      | Some (c :: v) => Str (c :: v)
      | _ =>
          match attr2 with
          | Some (c :: v) => Str (c :: v)
          | _ =>
              match equals with
              | Some (_ :: _) => Str []
              | _ => Null
              end
          end
      end
  end.

(** The callback of [remainder.replace(attr, ...)] (lines 72-74). *)
Definition set_attr (attrs : object) (m : MatchResult) : object :=
  obj_set (toLowerCase (item m 1))
          (attr_value (item_opt m 2) (item_opt m 3) (item_opt m 4) (item_opt m 5))
          attrs.

(** [onStartTag] (lines 65-78) *)
Definition onStartTag (html : str) (m : MatchResult) (st : store)
    : event * str * store :=
  let tag := matched m in
  let tagName := item m 1 in
  let remainder := item m 2 in
  let html := slice_from html (Z.of_nat (length tag)) in
  let '(ms, lastIndex) := String_replace_global remainder attr in
  let attrs := foldl set_attr obj_empty ms in
  (CallStart tag (toLowerCase tagName) attrs html,
   html,
   mkStore lastIndex (rawTags_lastIndex st)).

(** [onTag] (lines 80-88) *)
Definition onTag (html : str) (m : MatchResult)
    (handler : str -> str -> str -> event) : event * str :=
  let tag := matched m in
  let data := item m 1 in
  let html := slice_from html (Z.of_nat (length tag)) in
  (handler tag data html, html).

(** [onText] (lines 90-103): [~index] is falsy for -1 only; the handler is
    called for a non-empty text. *)
Definition onText (html : str) (index : Z) (isRawText : bool)
    : list event * str :=
  let '(text, html) :=
    if negb (index =? -1)%Z then (slice html 0 index, slice_from html index)
    else (html, []) in
  (match text with
   | [] => []
   | _ => [CallText text isRawText html]
   end,
   html).

(** [rawEnd] (lines 105-118).  Every recursive call drops a comment from
    the front part of [html], so [|html| + 1] calls suffice. *)
Fixpoint rawEnd_rec (fuel : nat) (html : str) (ending : RegExp) (offset : Z)
    : option Z :=
  match fuel with
  | 0 => None
  | S fuel' =>
      let index := String_search html ending in
      match String_match html commentInside with
      | Some commentMatch =>
          if (Z.of_nat (m_index commentMatch) <? index)%Z then
            let commentEnd :=
              (Z.of_nat (m_index commentMatch)
               + Z.of_nat (length (matched commentMatch)))%Z in
            rawEnd_rec fuel' (slice_from html commentEnd) ending
                       (offset + commentEnd)%Z
          else Some (index + offset)%Z
      | None => Some (index + offset)%Z
      end
  end.

Definition rawEnd (html : str) (ending : RegExp) : option Z :=
  rawEnd_rec (S (length html)) html ending 0%Z.

(** [match[1] = match[1].toLowerCase()] (line 237) *)
Definition set_item (m : MatchResult) (n : nat) (v : str) : MatchResult :=
  mkMatch (m_index m) (matched m) (<[n := v]> (capture m)).

(** ** The exported function (lines 198-256) *)

Section Parse.
Variable opts : options.

(** How one run of the loop body ends. *)
Inductive flow :=
| Continue (html : str) (st : store)
| Raise (e : jserror) (st : store)
| Hang.      (* [rawEnd] out of rounds; never the case: [rawEnd_total] *)

(** How the call ends; [Running]: the loop has not left within the given
    number of iterations. *)
Inductive completion :=
| Returned
| Threw (e : jserror)
| Running.

Definition parse_error (html : str) : jserror :=
  Error (js "HTML parse error: " ++ html).

(** Lines 253-254. *)
Definition plain_text (html : str) (st : store) : list event * flow :=
  let index := indexOf html LT in
  let '(evs, html) := onText html index false in
  (evs, Continue html st).

(** Lines 224-254: the body of the loop after the check for progress. *)
Definition dispatch (html : str) (st : store) : list event * flow :=
  let matchEnd := from_option (fun f tagName => inr (f tagName))
                              matchEndDefault (matchEnd opts) in
  let rawTags := default rawTagsDefault (rawTags opts) in
  if bool_decide (head html = Some LT) then
    match String_match html startTag with
    | Some m =>
        let '(ev, html, st) := onStartTag html m st in
        let tagName := item m 1 in
        let '(raw, lastIndex) := RegExp_test rawTags (rawTags_lastIndex st) tagName in
        let st := mkStore (attr_lastIndex st) lastIndex in
        if raw then
          match matchEnd tagName with
          | inl e => ([ev], Raise e st)
          | inr ending =>
              match rawEnd html ending with
              | Some index =>
                  let '(evs, html) := onText html index true in
                  (ev :: evs, Continue html st)
              | None => ([ev], Hang)
              end
          end
        else ([ev], Continue html st)
    | None =>
        match String_match html endTag with
        | Some m =>
            let m := set_item m 1 (toLowerCase (item m 1)) in
            let '(ev, html) := onTag html m CallEnd in
            ([ev], Continue html st)
        | None =>
            match String_match html comment with
            | Some m =>
                let '(ev, html) := onTag html m CallComment in
                ([ev], Continue html st)
            | None =>
                match String_match html other with
                | Some m =>
                    let '(ev, html) := onTag html m CallOther in
                    ([ev], Continue html st)
                | None => plain_text html st
                end
            end
        end
    end
  else plain_text html st.

(** Lines 214-254: one iteration.  When [html] is what it was at the start
    of the iteration before, the error is raised, or handed to the error
    handler and the iteration goes on. *)
Definition iteration (html : str) (last : option str) (st : store)
    : list event * flow :=
  if bool_decide (Some html = last) then
    let err := parse_error html in
    if error opts then
      let '(evs, fl) := dispatch html st in
      (CallError err :: evs, fl)
    else ([], Raise err st)
  else dispatch html st.

(** Lines 213-255: the loop, at most [fuel] iterations of it. *)
Fixpoint loop (fuel : nat) (html : str) (last : option str) (st : store)
    : list event * completion * store :=
  match html with
  | [] => ([], Returned, st)
  | _ :: _ =>
      match fuel with
      | 0 => ([], Running, st)
      | S fuel' =>
          match iteration html last st with
          | (evs, Continue html' st') =>
              let '(evs', c, st'') := loop fuel' html' (Some html) st' in
              (evs ++ evs', c, st'')
          | (evs, Raise e st') => (evs, Threw e, st')
          | (evs, Hang) => (evs, Running, st)
          end
      end
  end.

(** [parse(html, options)]: nothing happens for the empty string. *)
Definition parse (fuel : nat) (html : str) (st : store)
    : list event * completion * store :=
  match html with
  | [] => ([], Returned, st)
  | _ :: _ => loop fuel html None st
  end.

End Parse.

End Model.

(** * Properties *)

(** ** What the trace tells *)

(** The first argument of a call: the matched text of a tag, comment or
    other construct, or the text content. *)
Definition span (e : event) : str :=
  match e with
  | CallStart tag _ _ _ => tag
  | CallEnd tag _ _ => tag
  | CallText text _ _ => text
  | CallComment tag _ _ => tag
  | CallOther tag _ _ => tag
  | CallError _ => []
  end.

Definition spans (evs : list event) : str := concat (map span evs).

(** The last argument of a call of a handler other than the error handler:
    the rest of the input. *)
Definition remainder (e : event) : option str :=
  match e with
  | CallStart _ _ _ html => Some html
  | CallEnd _ _ html => Some html
  | CallText _ _ html => Some html
  | CallComment _ _ html => Some html
  | CallOther _ _ html => Some html
  | CallError _ => None
  end.

(** Starting from [s], every remainder is a suffix of the one before. *)
Fixpoint shrinking (s : str) (evs : list event) : Prop :=
  match evs with
  | [] => True
  | e :: evs' =>
      match remainder e with
      | Some html => html `suffix_of` s /\ shrinking html evs'
      | None => shrinking s evs'
      end
  end.

(** The remainder of the last call, [s] when there was none. *)
Fixpoint last_remainder (s : str) (evs : list event) : str :=
  match evs with
  | [] => s
  | e :: evs' => last_remainder (default s (remainder e)) evs'
  end.

(** A pattern that starts with [^] and has neither the g nor the y flag. *)
Definition anchored (R : RegExp) : Prop :=
  (exists r, source R = Seq Bol r) /\ global R = false /\ sticky R = false.

(** What one run of the loop body does to [html]: the calls report
    consecutive pieces of it, the remainders shrink, and what is left is
    what the body continues with. *)
Definition consumes (html : str) (evs : list event) (fl : flow) : Prop :=
  shrinking html evs /\
  exists rem, spans evs ++ rem = html /\
    rem `suffix_of` last_remainder html evs /\
    forall html' st', fl = Continue html' st' -> html' = rem.

(** The state [y] lies [k] characters behind the state [x] in the same
    input. *)
Definition ahead (k : nat) (x y : mstate) : Prop :=
  rest y = drop k (rest x) /\ endIndex y = endIndex x + k /\ k <= length (rest x).

(** The rule of the specification for the value of one attribute
    occurrence: the captured value when one was captured (in double quotes,
    in single quotes or unquoted), the empty string after an [=] without a
    value, null without [=]. *)
Definition attr_rule (equals attr0 attr1 attr2 : option str) : attrval :=
  match attr0, attr1, attr2 with
  | Some v, _, _ => Str v
  | None, Some v, _ => Str v
  | None, None, Some v => Str v
  | None, None, None =>
      match equals with
      | Some _ => Str []
      | None => Null
      end
  end.

(** The captures a match of [attr] can have: the name alone, the name and
    [=], or these and a value in exactly one of the three forms. *)
Inductive attr_shape : MatchResult -> Prop :=
| shape_bare m :
    item_opt m 2 = None -> item_opt m 3 = None ->
    item_opt m 4 = None -> item_opt m 5 = None -> attr_shape m
| shape_equals m :
    item_opt m 2 = Some [EQUALS] -> item_opt m 3 = None ->
    item_opt m 4 = None -> item_opt m 5 = None -> attr_shape m
| shape_double m v :
    item_opt m 2 = Some [EQUALS] -> item_opt m 3 = Some v ->
    item_opt m 4 = None -> item_opt m 5 = None -> attr_shape m
| shape_single m v :
    item_opt m 2 = Some [EQUALS] -> item_opt m 3 = None ->
    item_opt m 4 = Some v -> item_opt m 5 = None -> attr_shape m
| shape_unquoted m v :
    item_opt m 2 = Some [EQUALS] -> item_opt m 3 = None ->
    item_opt m 4 = None -> item_opt m 5 = Some v -> attr_shape m.

(** A text that begins with [<] and ends with [>]. *)
Definition in_brackets (s : str) : Prop := exists w, s = LT :: w ++ [GT].

(** The first argument of a call of the start, end, comment or other
    handler is in brackets. *)
Definition tag_in_brackets (e : event) : Prop :=
  match e with
  | CallStart tag _ _ _ | CallEnd tag _ _
  | CallComment tag _ _ | CallOther tag _ _ => in_brackets tag
  | _ => True
  end.

(** A text is reported only when it is not empty; ordinary text has no
    [<] in it. *)
Definition text_well_formed (e : event) : Prop :=
  match e with
  | CallText text isRawText _ => text <> [] /\ (isRawText = false -> LT ∉ text)
  | _ => True
  end.

Definition is_error_call (e : event) : bool :=
  match e with CallError _ => true | _ => false end.

Definition is_start_call (e : event) : bool :=
  match e with CallStart _ _ _ _ => true | _ => false end.

Definition is_raw_text (e : event) : bool :=
  match e with CallText _ true _ => true | _ => false end.

(** Raw text comes directly after the call of the start handler;
    [after_start] tells whether the call before the list was one. *)
Fixpoint raw_after_start (after_start : bool) (evs : list event) : Prop :=
  match evs with
  | [] => True
  | e :: evs' =>
      (is_raw_text e = true -> after_start = true) /\
      raw_after_start (is_start_call e) evs'
  end.

(** Starting from [s], every call reports the text at the front of what
    was left and passes on exactly the rest. *)
Fixpoint exact (s : str) (evs : list event) : Prop :=
  match evs with
  | [] => True
  | e :: evs' =>
      match remainder e with
      | Some html => s = span e ++ html /\ exact html evs'
      | None => exact s evs'
      end
  end.

(** [pre] is the text before the first occurrence of [pat] in [s]. *)
Definition first_occurrence (pat s pre : str) : Prop :=
  (exists suf, s = pre ++ pat ++ suf) /\
  forall pre' suf', s = pre' ++ pat ++ suf' -> length pre <= length pre'.

(** The characters of a tag name: [[^\s=\/!>]]. *)
Definition is_name_char (d : char) : bool :=
  negb (is_space d || N.eqb EQUALS d || N.eqb SLASH d || N.eqb BANG d
        || N.eqb GT d).

(** Ordinary text goes up to the next [<] or to the end of the input. *)
Definition text_maximal (e : event) : Prop :=
  match e with
  | CallText _ false html => html = [] \/ head html = Some LT
  | _ => True
  end.

(** A [<] with no [>] behind it: no pattern of the module matches there. *)
Definition stuck (html : str) : Prop :=
  exists html', html = LT :: html' /\ GT ∉ html'.

(** The error handler is called only if there is one, and with the error
    of a loop that is stuck. *)
Definition error_call_stuck (opts : options) (e : event) : Prop :=
  match e with
  | CallError err =>
      error opts = true /\
      exists rem, err = Error (js "HTML parse error: " ++ rem) /\ stuck rem
  | _ => True
  end.

(** Two strings that a pattern with the i flag does not tell apart. *)
Definition same_letters {host : Host} (a b : str) : Prop :=
  Forall2 (fun x y => Canonicalize true x = Canonicalize true y) a b.

(** A pattern whose [test] neither reads nor writes [lastIndex]. *)
Definition stateless (R : RegExp) : Prop :=
  global R = false /\ sticky R = false.

(** The pattern that classifies raw elements is stateless: the default is,
    a pattern of the caller is when it has neither the g nor the y flag. *)
Definition rawTags_stateless (opts : options) : Prop :=
  match rawTags opts with
  | Some R => stateless R
  | None => True
  end.

(** Two runs of the loop body end the same way, up to the store. *)
Definition same_flow (f1 f2 : flow) : Prop :=
  match f1, f2 with
  | Continue h1 _, Continue h2 _ => h1 = h2
  | Raise e1 _, Raise e2 _ => e1 = e2
  | Hang, Hang => True
  | _, _ => False
  end.

(** [parse(html)] without options, and the store of a freshly loaded
    module. *)
Definition defaults : options := mkOptions false None None.
Definition fresh : store := mkStore 0 0.

(** [/^script$/g]: a pattern for the [rawTags] option with the g flag. *)
Definition script_global : RegExp :=
  mkRegExp (cat [Bol; lit (js "script"); Eol]) true false false.

(** ** Strings *)

Lemma slice_pos_nat (len n : nat) : slice_pos len (Z.of_nat n) = Nat.min n len.
Proof.
  unfold slice_pos. destruct (Z.ltb_spec (Z.of_nat n) 0); [lia|].
  by rewrite Nat2Z.id.
Qed.

Lemma slice_from_nat (s : str) (n : nat) : slice_from s (Z.of_nat n) = drop n s.
Proof.
  unfold slice_from. rewrite slice_pos_nat.
  destruct (Nat.le_ge_cases n (length s)) as [Hle|Hge].
  - by rewrite Nat.min_l.
  - rewrite Nat.min_r by done. by rewrite !drop_ge.
Qed.

Lemma slice_0_nat (s : str) (n : nat) : slice s 0 (Z.of_nat n) = take n s.
Proof.
  unfold slice. rewrite slice_pos_nat. change (slice_pos (length s) 0) with 0.
  rewrite Nat.sub_0_r, drop_0.
  destruct (Nat.le_ge_cases n (length s)) as [Hle|Hge].
  - by rewrite Nat.min_l.
  - rewrite Nat.min_r by done. by rewrite !take_ge.
Qed.

(** Cutting a string at any position loses nothing. *)
Lemma slice_cut (s : str) (i : Z) : slice s 0 i ++ slice_from s i = s.
Proof.
  unfold slice, slice_from. change (slice_pos (length s) 0) with 0.
  rewrite Nat.sub_0_r, drop_0. apply take_drop.
Qed.

Lemma slice_from_suffix (s : str) (i : Z) : slice_from s i `suffix_of` s.
Proof. apply suffix_drop. Qed.

Lemma take_snoc_app (l : str) (d : char) (k : str) :
  take (S (length l)) (l ++ d :: k) = l ++ [d].
Proof.
  replace (l ++ d :: k) with ((l ++ [d]) ++ k) by (by rewrite <- app_assoc).
  apply take_app_length'. rewrite length_app. simpl. lia.
Qed.

Lemma take_slice_from (s : str) (k : nat) :
  take k s ++ slice_from s (Z.of_nat (length (take k s))) = s.
Proof.
  rewrite slice_from_nat, length_take.
  destruct (Nat.le_ge_cases k (length s)) as [Hle|Hge].
  - rewrite Nat.min_l by done. apply take_drop.
  - rewrite Nat.min_r by done. rewrite take_ge, drop_ge by done. apply app_nil_r.
Qed.

Section Properties.
Context {host : Host}.

(** ** The matcher follows the declarative relation *)

Section MatcherSound.
Variable ic : bool.

Lemma one_char_sound (p : char -> bool) (x : mstate)
    (c : mstate -> option mstate) (z : mstate) :
  one_char p x c = Some z ->
  exists d rest', rest x = d :: rest' /\ p d = true /\ c (advance x rest') = Some z.
Proof.
  unfold one_char. destruct (rest x) as [|d rest']; [done|].
  destruct (p d) eqn:Hp; [|done]. eauto.
Qed.

Lemma RepeatMatcher_sound (r : regex) (greedy : bool)
    (c : mstate -> option mstate) :
  (forall x c z, matcher ic r x c = Some z ->
     exists y, matches ic r x y /\ c y = Some z) ->
  forall fuel min max x z,
    RepeatMatcher (matcher ic r) (groups r) greedy c fuel min max x = Some z ->
    exists y, matches ic (Rep min max greedy r) x y /\ c y = Some z.
Proof.
  intros IH. induction fuel as [|fuel IHfuel]; intros min max x z; [done|].
  simpl.
  assert (Hmore :
    matcher ic r (clear_captures (groups r) x)
      (fun y => if Nat.eqb min 0 && Nat.eqb (endIndex y) (endIndex x) then None
                else RepeatMatcher (matcher ic r) (groups r) greedy c fuel
                       (Nat.pred min) (Nat.pred <$> max) y) = Some z ->
    max <> Some 0 ->
    exists y, matches ic (Rep min max greedy r) x y /\ c y = Some z).
  { intros (y & Hy & Hd)%IH Hmax.
    destruct (Nat.eqb min 0 && Nat.eqb (endIndex y) (endIndex x)) eqn:Hempty; [done|].
    apply IHfuel in Hd as (y' & Hy' & Hc).
    exists y'. split; [|done]. eapply matches_Rep_more; [done..| |done].
    intros ->. simpl in Hempty. by apply Nat.eqb_neq in Hempty. }
  assert (Hdone : c x = Some z -> min = 0 \/ max = Some 0 ->
    exists y, matches ic (Rep min max greedy r) x y /\ c y = Some z).
  { intros Hc Hm. exists x. split; [by constructor|done]. }
  assert (Hstep : max <> Some 0 ->
    (if negb (Nat.eqb min 0)
     then matcher ic r (clear_captures (groups r) x)
            (fun y => if Nat.eqb min 0 && Nat.eqb (endIndex y) (endIndex x) then None
                      else RepeatMatcher (matcher ic r) (groups r) greedy c fuel
                             (Nat.pred min) (Nat.pred <$> max) y)
     else if greedy
          then match matcher ic r (clear_captures (groups r) x)
                   (fun y => if Nat.eqb min 0 && Nat.eqb (endIndex y) (endIndex x) then None
                             else RepeatMatcher (matcher ic r) (groups r) greedy c fuel
                                    (Nat.pred min) (Nat.pred <$> max) y) with
               | Some z => Some z
               | None => c x
               end
          else match c x with
               | Some z => Some z
               | None => matcher ic r (clear_captures (groups r) x)
                   (fun y => if Nat.eqb min 0 && Nat.eqb (endIndex y) (endIndex x) then None
                             else RepeatMatcher (matcher ic r) (groups r) greedy c fuel
                                    (Nat.pred min) (Nat.pred <$> max) y)
               end) = Some z ->
    exists y, matches ic (Rep min max greedy r) x y /\ c y = Some z).
  { intros Hmax. destruct (Nat.eqb_spec min 0) as [Hmin|Hmin]; simpl.
    - destruct greedy.
      + destruct (matcher ic r _ _) as [z'|] eqn:Hm.
        * intros [= ->]. by apply Hmore.
        * intros Hc. apply Hdone; [done|by left].
      + destruct (c x) as [z'|] eqn:Hc.
        * intros [= ->]. apply Hdone; [done|by left].
        * intros Hm. by apply Hmore.
    - intros Hm. by apply Hmore. }
  destruct max as [[|max]|].
  - intros Hc. apply Hdone; [done|by right].
  - by apply Hstep.
  - by apply Hstep.
Qed.

(** Whatever the matcher hands to its continuation is reached by a way to
    match. *)
Lemma matcher_sound (r : regex) (x : mstate) (c : mstate -> option mstate)
    (z : mstate) :
  matcher ic r x c = Some z ->
  exists y, matches ic r x y /\ c y = Some z.
Proof.
  revert x c z. induction r as
    [| | |a| |invert atoms|r1 IH1 r2 IH2|r1 IH1 r2 IH2|min max greedy r1 IH1|n r1 IH1];
    intros x c z; cbn [matcher].
  - intros Hc. exists x. split; [constructor|done].
  - destruct (Nat.eqb_spec (endIndex x) 0) as [He|]; [|done].
    intros Hc. exists x. split; [by constructor|done].
  - destruct (rest x) eqn:Hr; [|done].
    intros Hc. exists x. split; [by constructor|done].
  - intros (d & rest' & Hr & Hp & Hc)%one_char_sound.
    eexists. split; [by eapply matches_Chr|done].
  - intros (d & rest' & Hr & Hp & Hc)%one_char_sound.
    eexists. split; [eapply matches_Dot; [done|]|done].
    by destruct (is_line_terminator d).
  - intros (d & rest' & Hr & Hp & Hc)%one_char_sound.
    eexists. split; [by eapply matches_Class|done].
  - intros (y & Hy & (y' & Hy' & Hc)%IH2)%IH1.
    exists y'. split; [by econstructor|done].
  - destruct (matcher ic r1 x c) as [z'|] eqn:H1.
    + intros [= ->]. apply IH1 in H1 as (y & Hy & Hc).
      exists y. split; [by apply matches_Alt_l|done].
    + intros (y & Hy & Hc)%IH2. exists y. split; [by apply matches_Alt_r|done].
  - by apply RepeatMatcher_sound.
  - intros (y & Hy & Hc)%IH1. eexists. split; [by constructor|done].
Qed.

Lemma ahead_refl (x : mstate) : ahead 0 x x.
Proof. unfold ahead. rewrite drop_0. split; [done|lia]. Qed.

Lemma ahead_advance (x : mstate) (d : char) (rest' : str) :
  rest x = d :: rest' -> ahead 1 x (advance x rest').
Proof.
  intros Hr. unfold ahead. simpl. rewrite Hr. simpl. rewrite drop_0.
  split; [done|lia].
Qed.

Lemma ahead_trans (k1 k2 : nat) (x y z : mstate) :
  ahead k1 x y -> ahead k2 y z -> ahead (k1 + k2) x z.
Proof.
  intros (Hr1 & He1 & Hk1) (Hr2 & He2 & Hk2). unfold ahead.
  rewrite Hr2, He2, Hr1, He1, drop_drop. rewrite Hr1, length_drop in Hk2.
  split; [done|lia].
Qed.

Lemma ahead_length (k : nat) (x y : mstate) :
  ahead k x y -> length (rest y) = length (rest x) - k.
Proof. intros (-> & _ & _). apply length_drop. Qed.

(** A way to match moves forward inside the input. *)
Lemma matches_ahead (r : regex) (x y : mstate) :
  matches ic r x y -> exists k, ahead k x y.
Proof.
  induction 1 as
    [x|x He|x Hr|a x d rest' Hr Hp|x d rest' Hr Hp|invert atoms x d rest' Hr Hp
    |r1 r2 x y z H1 IH1 H2 IH2|r1 r2 x y H1 IH1|r1 r2 x y H2 IH2
    |min max greedy r x Hm|min max greedy r x y z Hmax H1 IH1 He H2 IH2
    |n r x y H1 IH1];
    eauto using ahead_refl, ahead_advance.
  - destruct IH1 as (k1 & IH1), IH2 as (k2 & IH2). eauto using ahead_trans.
  - destruct IH1 as (k1 & IH1), IH2 as (k2 & IH2).
    exists (k1 + k2). by apply (ahead_trans k1 k2 x y z).
Qed.

(** Captures of groups that do not occur in the pattern stay as they are. *)
Lemma matches_captures (r : regex) (x y : mstate) (n : nat) :
  matches ic r x y -> n ∉ groups r -> captures y !! n = captures x !! n.
Proof.
  induction 1 as
    [x|x He|x Hr|a x d rest' Hr Hp|x d rest' Hr Hp|invert atoms x d rest' Hr Hp
    |r1 r2 x y z H1 IH1 H2 IH2|r1 r2 x y H1 IH1|r1 r2 x y H2 IH2
    |min max greedy r x Hm|min max greedy r x y z Hmax H1 IH1 He H2 IH2
    |n0 r x y H1 IH1]; simpl; try done.
  - intros [? ?]%not_elem_of_app. rewrite IH2, IH1; done.
  - intros [? ?]%not_elem_of_app. by apply IH1.
  - intros [? ?]%not_elem_of_app. by apply IH2.
  - intros Hn. rewrite IH2, IH1 by done. simpl.
    by apply lookup_foldr_delete_not_elem_of.
  - intros [? ?]%not_elem_of_cons. rewrite lookup_insert_ne by done. by apply IH1.
Qed.

(** Inversion of the relation, one lemma per shape of pattern. *)
Lemma matches_Empty_inv (x y : mstate) : matches ic Empty x y -> y = x.
Proof. by inversion 1. Qed.

Lemma matches_Bol_inv (x y : mstate) :
  matches ic Bol x y -> y = x /\ endIndex x = 0.
Proof. by inversion 1. Qed.

Lemma matches_Chr_inv (a : char) (x y : mstate) :
  matches ic (Chr a) x y ->
  exists d rest', rest x = d :: rest' /\
    N.eqb (Canonicalize ic a) (Canonicalize ic d) = true /\ y = advance x rest'.
Proof. inversion 1; subst. eauto. Qed.

Lemma matches_Seq_inv (r1 r2 : regex) (x z : mstate) :
  matches ic (Seq r1 r2) x z ->
  exists y, matches ic r1 x y /\ matches ic r2 y z.
Proof. inversion 1; subst. eauto. Qed.

Lemma matches_Alt_inv (r1 r2 : regex) (x y : mstate) :
  matches ic (Alt r1 r2) x y -> matches ic r1 x y \/ matches ic r2 x y.
Proof. inversion 1; subst; eauto. Qed.

Lemma matches_Group_inv (n : nat) (r : regex) (x z : mstate) :
  matches ic (Group n r) x z ->
  exists y, matches ic r x y /\
    z = MState (rest y) (endIndex y)
          (<[n := take (endIndex y - endIndex x) (rest x)]> (captures y)).
Proof. inversion 1; subst. eauto. Qed.

(** An optional part is skipped or taken once. *)
Lemma matches_opt_inv (r : regex) (x z : mstate) :
  matches ic (opt r) x z ->
  z = x \/ matches ic r (clear_captures (groups r) x) z.
Proof.
  unfold opt. inversion 1 as [| | | | | | | | | |? ? ? ? ? y ? Hmax H1 He H2|]; subst.
  - by left.
  - right. simpl in H2. inversion H2 as [| | | | | | | | |? ? ? ? ? Hd|? ? ? ? ? ? ? Hmax'|]; subst.
    + done.
    + done.
Qed.

(** Without capturing parentheses in the pattern the captures do not
    change. *)
Lemma matches_no_groups (r : regex) (x y : mstate) :
  matches ic r x y -> groups r = [] -> captures y = captures x.
Proof.
  intros Hm Hg. apply map_eq. intros n. eapply matches_captures; [done|].
  rewrite Hg. apply not_elem_of_nil.
Qed.

(** *** The rounds of RepeatMatcher suffice *)

(** The matcher calls its continuation on states ahead of its own only. *)
Lemma RepeatMatcher_ext (r : regex) (greedy : bool) :
  (forall x c1 c2, (forall k y, ahead k x y -> c1 y = c2 y) ->
     matcher ic r x c1 = matcher ic r x c2) ->
  forall fuel min max x c1 c2,
    (forall k y, ahead k x y -> c1 y = c2 y) ->
    RepeatMatcher (matcher ic r) (groups r) greedy c1 fuel min max x =
    RepeatMatcher (matcher ic r) (groups r) greedy c2 fuel min max x.
Proof.
  intros IH. induction fuel as [|fuel IHfuel]; intros min max x c1 c2 Hc; [done|].
  assert (Hx : c1 x = c2 x).
  { apply (Hc 0). apply ahead_refl. }
  assert (Hm :
    matcher ic r (clear_captures (groups r) x)
      (fun y => if Nat.eqb min 0 && Nat.eqb (endIndex y) (endIndex x) then None
                else RepeatMatcher (matcher ic r) (groups r) greedy c1 fuel
                       (Nat.pred min) (Nat.pred <$> max) y) =
    matcher ic r (clear_captures (groups r) x)
      (fun y => if Nat.eqb min 0 && Nat.eqb (endIndex y) (endIndex x) then None
                else RepeatMatcher (matcher ic r) (groups r) greedy c2 fuel
                       (Nat.pred min) (Nat.pred <$> max) y)).
  { apply IH. intros k y Hy. destruct (_ && _); [done|].
    apply IHfuel. intros k' z Hz. apply (Hc (k + k')).
    by eapply ahead_trans. }
  simpl. rewrite Hx, Hm. done.
Qed.

Lemma matcher_ext (r : regex) (x : mstate) (c1 c2 : mstate -> option mstate) :
  (forall k y, ahead k x y -> c1 y = c2 y) ->
  matcher ic r x c1 = matcher ic r x c2.
Proof.
  revert x c1 c2. induction r as
    [| | |a| |invert atoms|r1 IH1 r2 IH2|r1 IH1 r2 IH2|min max greedy r1 IH1|n r1 IH1];
    intros x c1 c2 Hc; cbn [matcher].
  - apply (Hc 0), ahead_refl.
  - destruct (Nat.eqb _ _); [|done]. apply (Hc 0), ahead_refl.
  - destruct (rest x) eqn:Hr; [|done]. apply (Hc 0), ahead_refl.
  - unfold one_char. destruct (rest x) as [|d rest'] eqn:Hr; [done|].
    destruct (N.eqb _ _); [|done]. by apply (Hc 1), (ahead_advance x d).
  - unfold one_char. destruct (rest x) as [|d rest'] eqn:Hr; [done|].
    destruct (negb _); [|done]. by apply (Hc 1), (ahead_advance x d).
  - unfold one_char. destruct (rest x) as [|d rest'] eqn:Hr; [done|].
    destruct (xorb _ _); [|done]. by apply (Hc 1), (ahead_advance x d).
  - apply IH1. intros k y Hy. apply IH2. intros k' z Hz.
    apply (Hc (k + k')). by eapply ahead_trans.
  - by rewrite (IH1 x c1 c2), (IH2 x c1 c2).
  - by apply RepeatMatcher_ext.
  - apply IH1. intros k y Hy. apply (Hc k). by destruct Hy as (? & ? & ?).
Qed.

(** More rounds than [min + |rest| + 1] change nothing: the bound on the
    rounds in [matcher] is never what makes a match fail. *)
Lemma RepeatMatcher_fuel (r : regex) (greedy : bool)
    (c : mstate -> option mstate) (fuel1 fuel2 min : nat) (max : option nat)
    (x : mstate) :
  min + length (rest x) < fuel1 -> min + length (rest x) < fuel2 ->
  RepeatMatcher (matcher ic r) (groups r) greedy c fuel1 min max x =
  RepeatMatcher (matcher ic r) (groups r) greedy c fuel2 min max x.
Proof.
  revert fuel2 min max x.
  induction fuel1 as [|fuel1 IH]; intros fuel2 min max x H1 H2; [lia|].
  destruct fuel2 as [|fuel2]; [lia|].
  assert (Hm :
    matcher ic r (clear_captures (groups r) x)
      (fun y => if Nat.eqb min 0 && Nat.eqb (endIndex y) (endIndex x) then None
                else RepeatMatcher (matcher ic r) (groups r) greedy c fuel1
                       (Nat.pred min) (Nat.pred <$> max) y) =
    matcher ic r (clear_captures (groups r) x)
      (fun y => if Nat.eqb min 0 && Nat.eqb (endIndex y) (endIndex x) then None
                else RepeatMatcher (matcher ic r) (groups r) greedy c fuel2
                       (Nat.pred min) (Nat.pred <$> max) y)).
  { apply matcher_ext. intros k y Hy.
    destruct (Nat.eqb min 0 && Nat.eqb (endIndex y) (endIndex x)) eqn:Hempty; [done|].
    pose proof (ahead_length _ _ _ Hy) as Hlen. destruct Hy as (_ & He & Hk).
    simpl in Hlen, He, Hk.
    apply IH.
    - destruct min as [|min]; simpl in *; [|lia].
      apply Nat.eqb_neq in Hempty. lia.
    - destruct min as [|min]; simpl in *; [|lia].
      apply Nat.eqb_neq in Hempty. lia. }
  simpl. by rewrite Hm.
Qed.

(** *** The text a way to match consumes *)

Lemma matches_text (r : regex) (x y : mstate) :
  matches ic r x y ->
  exists w, rest x = w ++ rest y /\ endIndex y = endIndex x + length w.
Proof.
  intros (k & Hr & He & Hk)%matches_ahead. exists (take k (rest x)).
  rewrite Hr, take_drop, length_take. split; [done|lia].
Qed.

(** A quantified character class consumes characters of the class and
    captures nothing. *)
Lemma matches_rep_class (min : nat) (max : option nat) (greedy invert : bool)
    (atoms : list atom) (x y : mstate) :
  matches ic (Rep min max greedy (Class invert atoms)) x y ->
  exists w, rest x = w ++ rest y /\ endIndex y = endIndex x + length w /\
    captures y = captures x /\
    Forall (fun d => xorb invert (class_has ic atoms d) = true) w /\
    (max = None -> min <= length w).
Proof.
  intros H. remember (Rep min max greedy (Class invert atoms)) as r eqn:Hr.
  revert min max Hr.
  induction H as
    [x|x He|x Hr|a x d rest' Hr Hp|x d rest' Hr Hp|invert' atoms' x d rest' Hr Hp
    |r1 r2 x y z H1 IH1 H2 IH2|r1 r2 x y H1 IH1|r1 r2 x y H2 IH2
    |min' max' greedy' r x Hm|min' max' greedy' r x y z Hmax H1 IH1 He H2 IH2
    |n r x y H1 IH1]; intros min max Heq; try discriminate.
  - injection Heq as -> -> -> ->. exists [].
    split; [done|]. split; [simpl; lia|]. split; [done|]. split; [done|].
    intros ->. destruct Hm as [->|?]; [done|discriminate].
  - injection Heq as -> -> -> ->.
    destruct (IH2 _ _ eq_refl) as (w & Hw & Hi & Hc & Hall & Hmin).
    inversion H1 as [| | | | |? ? ? d rest' Hr Hp| | | | | |]; subst.
    simpl in *. exists (d :: w). rewrite Hr, Hw. simpl.
    split; [done|]. split; [lia|]. split; [done|]. split; [by constructor|].
    intros ->. specialize (Hmin eq_refl). lia.
Qed.

(** A sequence that ends with a character: the text before that character
    and the character itself. *)
Lemma matches_cat_last (rs : list regex) (a : char) (x y : mstate) :
  matches ic (cat (rs ++ [Chr a])) x y ->
  exists w d, rest x = w ++ d :: rest y /\
    endIndex y = endIndex x + length w + 1 /\
    N.eqb (Canonicalize ic a) (Canonicalize ic d) = true.
Proof.
  revert x. induction rs as [|r rs IH]; intros x; simpl.
  - intros (y1 & (d & rest' & Hr & Hd & ->)%matches_Chr_inv
               & ->%matches_Empty_inv)%matches_Seq_inv.
    exists [], d. simpl. split; [done|]. split; [lia|done].
  - intros (y1 & (w1 & Hw1 & Hi1)%matches_text
               & (w & d & Hw & Hi & Hd)%IH)%matches_Seq_inv.
    exists (w1 ++ w), d. rewrite Hw1, Hw, <- app_assoc, length_app.
    split; [done|]. split; [lia|done].
Qed.

End MatcherSound.


(** ** What a successful exec returns *)

Lemma scan_sound (R : RegExp) (rest : str) (i j : nat) (y : mstate) :
  scan R rest i = Some (j, y) ->
  exists d, j = i + d /\ d <= length rest /\
    matches (ignoreCase R) (source R) (MState (drop d rest) j ∅) y.
Proof.
  revert i. induction rest as [|c rest IH]; intros i; simpl.
  - destruct (matcher _ _ _ _) as [y'|] eqn:Hm; [|done].
    intros [= <- <-]. apply matcher_sound in Hm as (y0 & Hy & [= ->]).
    exists 0. rewrite Nat.add_0_r. split; [done|]. split; [simpl; lia|done].
  - destruct (matcher _ _ _ _) as [y'|] eqn:Hm.
    + intros [= <- <-]. apply matcher_sound in Hm as (y0 & Hy & [= ->]).
      exists 0. rewrite Nat.add_0_r. split; [done|]. split; [simpl; lia|done].
    + destruct (sticky R); [done|].
      intros (d & -> & Hd & Hy)%IH. exists (S d).
      split; [lia|]. split; [simpl; lia|done].
Qed.

(** The match lies inside the string, at or behind the position where the
    search began; [lastIndex] of a global or sticky pattern moves to its
    end. *)
Lemma exec_sound (R : RegExp) (lastIndex : nat) (s : str) (m : MatchResult)
    (lastIndex' : nat) :
  RegExpBuiltinExec R lastIndex s = (Some m, lastIndex') ->
  exists k y,
    matches (ignoreCase R) (source R)
      (MState (drop (m_index m) s) (m_index m) ∅) y /\
    endIndex y = m_index m + k /\ capture m = captures y /\
    matched m = take k (drop (m_index m) s) /\ length (matched m) = k /\
    m_index m + k <= length s /\
    (if global R || sticky R
     then lastIndex <= m_index m /\ lastIndex' = m_index m + k
     else lastIndex' = lastIndex).
Proof.
  unfold RegExpBuiltinExec.
  set (start := if global R || sticky R then lastIndex else 0).
  destruct (Nat.ltb_spec (length s) start) as [|Hstart]; [done|].
  destruct (scan R (drop start s) start) as [[i y]|] eqn:Hscan; [|done].
  intros [= <- <-]. simpl.
  apply scan_sound in Hscan as (d & -> & Hd & Hy).
  rewrite length_drop in Hd. rewrite drop_drop in Hy.
  destruct (matches_ahead _ _ _ _ Hy) as (k & Hr & He & Hk).
  simpl in Hr, He, Hk. rewrite length_drop in Hk.
  exists k, y. split; [done|]. split; [done|]. split; [done|].
  replace (endIndex y - (start + d)) with k by lia.
  split; [done|]. split; [rewrite length_take, length_drop; lia|].
  split; [lia|]. subst start. destruct (global R || sticky R); [|done].
  rewrite He. split; lia.
Qed.

Lemma match_sound (R : RegExp) (s : str) (m : MatchResult) :
  String_match s R = Some m ->
  exists k y,
    matches (ignoreCase R) (source R)
      (MState (drop (m_index m) s) (m_index m) ∅) y /\
    endIndex y = m_index m + k /\ capture m = captures y /\
    matched m = take k (drop (m_index m) s) /\ length (matched m) = k /\
    m_index m + k <= length s.
Proof.
  unfold String_match. destruct (RegExpBuiltinExec R 0 s) as [r li] eqn:He.
  simpl. intros ->. apply exec_sound in He as (k & y & ? & ? & ? & ? & ? & ? & _).
  by exists k, y.
Qed.


(** ** Anchored patterns match at position 0 only *)

Lemma scan_anchored (R : RegExp) (r : regex) (rest : str) (i : nat) :
  source R = Seq Bol r -> scan R rest (S i) = None.
Proof.
  intros HR. revert i. induction rest as [|d rest IH]; intros i.
  - simpl. by rewrite HR.
  - simpl. rewrite HR. simpl. destruct (sticky R); [done|apply IH].
Qed.

Lemma match_anchored (R : RegExp) (html : str) (m : MatchResult) :
  anchored R -> String_match html R = Some m ->
  m_index m = 0 /\ exists k, matched m = take k html.
Proof.
  intros ([r HR] & Hg & Hy). unfold String_match, RegExpBuiltinExec.
  rewrite Hg, Hy. simpl. rewrite drop_0.
  destruct (scan R html 0) as [[i y]|] eqn:Hscan; simpl; [|done].
  intros [= <-]. simpl.
  assert (i = 0) as ->.
  { destruct html as [|d html]; simpl in Hscan.
    - destruct (matcher _ _ _ _); by simplify_eq.
    - destruct (matcher _ _ _ _); [by simplify_eq|].
      rewrite Hy in Hscan. by rewrite (scan_anchored R r) in Hscan. }
  split; [done|]. exists (endIndex y - 0). by rewrite drop_0.
Qed.

Lemma startTag_anchored : anchored startTag.
Proof. repeat split; by eexists. Qed.
Lemma endTag_anchored : anchored endTag.
Proof. repeat split; by eexists. Qed.
Lemma comment_anchored : anchored comment.
Proof. repeat split; by eexists. Qed.
Lemma other_anchored : anchored other.
Proof. repeat split; by eexists. Qed.

(** The text matched by an anchored pattern and the slice after it make up
    the string. *)
Lemma match_cut (R : RegExp) (html : str) (m : MatchResult) :
  anchored R -> String_match html R = Some m ->
  matched m ++ slice_from html (Z.of_nat (length (matched m))) = html.
Proof.
  intros HR Hm. destruct (match_anchored R html m HR Hm) as (_ & k & ->).
  apply take_slice_from.
Qed.

(** ** The handlers *)

Lemma onTag_spec (html : str) (m : MatchResult) handler :
  onTag html m handler =
    (handler (matched m) (item m 1) (slice_from html (Z.of_nat (length (matched m)))),
     slice_from html (Z.of_nat (length (matched m)))).
Proof. reflexivity. Qed.

Lemma onStartTag_spec (html : str) (m : MatchResult) (st : store) :
  exists attrs st',
    onStartTag html m st =
      (CallStart (matched m) (toLowerCase (item m 1)) attrs
                 (slice_from html (Z.of_nat (length (matched m)))),
       slice_from html (Z.of_nat (length (matched m))), st').
Proof.
  unfold onStartTag. destruct (String_replace_global _ _) as [ms li]. eauto.
Qed.

Lemma onText_spec (html : str) (index : Z) (isRawText : bool) :
  let text := if negb (index =? -1)%Z then slice html 0 index else html in
  let html' := if negb (index =? -1)%Z then slice_from html index else [] in
  onText html index isRawText =
    (match text with [] => [] | _ => [CallText text isRawText html'] end, html').
Proof. unfold onText. by destruct (negb _). Qed.

Lemma onText_cut (html : str) (index : Z) (isRawText : bool) evs html' :
  onText html index isRawText = (evs, html') ->
  spans evs ++ html' = html /\ html' `suffix_of` html /\
  (forall e, e ∈ evs -> e = CallText (spans evs) isRawText html').
Proof.
  rewrite onText_spec. simpl. intros [= <- <-].
  destruct (negb _).
  - pose proof (slice_cut html index) as Hcut.
    split; [|split; [apply slice_from_suffix|]].
    + destruct (slice html 0 index); simpl in *; [done|].
      by rewrite app_nil_r.
    + intros e. destruct (slice html 0 index); simpl.
      * by intros ?%elem_of_nil.
      * intros ->%list_elem_of_singleton. unfold spans. simpl. by rewrite app_nil_r.
  - split; [|split; [apply suffix_nil|]].
    + destruct html; simpl; [done|]. unfold spans; simpl. by rewrite !app_nil_r.
    + intros e. destruct html; simpl.
      * by intros ?%elem_of_nil.
      * intros ->%list_elem_of_singleton. unfold spans. simpl. by rewrite app_nil_r.
Qed.

(** ** Traces *)

Lemma spans_app (evs1 evs2 : list event) :
  spans (evs1 ++ evs2) = spans evs1 ++ spans evs2.
Proof. unfold spans. by rewrite map_app, concat_app. Qed.

Lemma spans_cons (e : event) (evs : list event) :
  spans (e :: evs) = span e ++ spans evs.
Proof. reflexivity. Qed.

Lemma shrinking_mono (s s' : str) (evs : list event) :
  s' `suffix_of` s -> shrinking s' evs -> shrinking s evs.
Proof.
  revert s s'. induction evs as [|e evs IH]; intros s s' Hs; simpl; [done|].
  destruct (remainder e) as [h|].
  - intros [Hh Hevs]. split; [by etrans|done].
  - by apply IH.
Qed.

Lemma shrinking_app (s r : str) (evs1 evs2 : list event) :
  shrinking s evs1 -> r `suffix_of` last_remainder s evs1 ->
  shrinking r evs2 -> shrinking s (evs1 ++ evs2).
Proof.
  revert s. induction evs1 as [|e evs1 IH]; intros s; simpl.
  - intros _ Hr Hevs. by eapply shrinking_mono.
  - destruct (remainder e) as [h|]; simpl.
    + intros [Hh H1] Hr H2. split; [done|by apply IH].
    + intros H1 Hr H2. by apply IH.
Qed.

Lemma onText_inv (html : str) (index : Z) (isRawText : bool) evs html' :
  onText html index isRawText = (evs, html') ->
  spans evs ++ html' = html /\ shrinking html evs /\
  html' `suffix_of` last_remainder html evs.
Proof.
  intros Heq. destruct (onText_cut _ _ _ _ _ Heq) as (Hcut & Hsuf & _).
  split; [done|]. revert Heq. rewrite onText_spec. simpl.
  intros [= <- Hh]. destruct (if negb _ then slice html 0 index else html); simpl.
  - done.
  - by rewrite Hh.
Qed.

(** ** One run of the loop body *)

Lemma consumes_one (html h1 : str) (ev : event) (fl : flow) :
  remainder ev = Some h1 -> span ev ++ h1 = html ->
  (forall html' st', fl = Continue html' st' -> html' = h1) ->
  consumes html [ev] fl.
Proof.
  intros Hrem Hcut Hfl. unfold consumes. simpl. rewrite Hrem.
  split; [split; [|done]|].
  - exists (span ev). by rewrite Hcut.
  - exists h1. unfold spans. simpl. by rewrite app_nil_r.
Qed.

Lemma consumes_text (html : str) (index : Z) (isRawText : bool) (st : store)
    evs html' :
  onText html index isRawText = (evs, html') ->
  consumes html evs (Continue html' st).
Proof.
  intros Ht. destruct (onText_inv _ _ _ _ _ Ht) as (Hcut & Hsh & Hsuf).
  split; [done|]. exists html'. repeat split; [done..|]. by intros ?? [= <-].
Qed.

Lemma consumes_tag (html : str) (m : MatchResult) (st : store) handler :
  matched m ++ slice_from html (Z.of_nat (length (matched m))) = html ->
  (forall a b c, remainder (handler a b c) = Some c) ->
  (forall a b c, span (handler a b c) = a) ->
  consumes html [(onTag html m handler).1] (Continue (onTag html m handler).2 st).
Proof.
  intros Hcut Hrem Hspan. rewrite onTag_spec. simpl.
  apply consumes_one with (h1 := slice_from html (Z.of_nat (length (matched m)))).
  - apply Hrem.
  - by rewrite Hspan.
  - by intros ?? [= <-].
Qed.

(** The calls of one run of the body report consecutive pieces of [html],
    their remainders shrink, and the body continues with what is left. *)
Lemma dispatch_consumes (opts : options) (html : str) (st : store) :
  consumes html (dispatch opts html st).1 (dispatch opts html st).2.
Proof.
  assert (Htext : consumes html (plain_text html st).1 (plain_text html st).2).
  { unfold plain_text.
    destruct (onText html (indexOf html LT) false) as [tevs h'] eqn:Ht.
    simpl. by eapply consumes_text. }
  unfold dispatch. destruct (bool_decide _); [|apply Htext].
  destruct (String_match html startTag) as [m|] eqn:Hstart.
  { destruct (onStartTag_spec html m st) as (attrs & st1 & ->).
    pose proof (match_cut _ _ _ startTag_anchored Hstart) as Hcut.
    set (h1 := slice_from html _) in *.
    destruct (RegExp_test _ _ _) as [raw li]. cbv zeta.
    destruct raw; simpl.
    2:{ apply consumes_one with (h1 := h1); [done..|]. by intros ?? [= <-]. }
    destruct (from_option _ _ _ _) as [e|ending]; simpl.
    { by apply consumes_one with (h1 := h1). }
    destruct (rawEnd h1 ending) as [index|]; simpl.
    2:{ by apply consumes_one with (h1 := h1). }
    destruct (onText h1 index true) as [tevs h2] eqn:Ht. simpl.
    destruct (onText_inv _ _ _ _ _ Ht) as (Hcut2 & Hsh & Hsuf).
    split; [split; [apply slice_from_suffix|done]|].
    exists h2. rewrite spans_cons. simpl. rewrite <- app_assoc, Hcut2.
    repeat split; [done..|]. by intros ?? [= <-]. }
  destruct (String_match html endTag) as [m|] eqn:Hend.
  { pose proof (match_cut _ _ _ endTag_anchored Hend) as Hcut.
    pose proof (consumes_tag html (set_item m 1 (toLowerCase (item m 1))) st
                  CallEnd Hcut) as Hc.
    destruct (onTag html _ CallEnd) as [ev h']. by apply Hc. }
  destruct (String_match html comment) as [m|] eqn:Hcomment.
  { pose proof (match_cut _ _ _ comment_anchored Hcomment) as Hcut.
    pose proof (consumes_tag html m st CallComment Hcut) as Hc.
    destruct (onTag html _ CallComment) as [ev h']. by apply Hc. }
  destruct (String_match html other) as [m|] eqn:Hother.
  { pose proof (match_cut _ _ _ other_anchored Hother) as Hcut.
    pose proof (consumes_tag html m st CallOther Hcut) as Hc.
    destruct (onTag html _ CallOther) as [ev h']. by apply Hc. }
  apply Htext.
Qed.

Lemma iteration_consumes (opts : options) (html : str) (last : option str)
    (st : store) :
  consumes html (iteration opts html last st).1 (iteration opts html last st).2.
Proof.
  unfold iteration. destruct (bool_decide _); [|apply dispatch_consumes].
  destruct (error opts).
  - pose proof (dispatch_consumes opts html st) as Hc.
    destruct (dispatch opts html st) as [evs fl]. apply Hc.
  - split; [done|]. exists html. by repeat split.
Qed.

(** ** The loop *)

Lemma shrinking_suffixes (s : str) (evs : list event) :
  shrinking s evs ->
  forall e html, e ∈ evs -> remainder e = Some html -> html `suffix_of` s.
Proof.
  revert s. induction evs as [|e0 evs IH]; intros s Hsh e html Hin Hrem.
  - by apply elem_of_nil in Hin.
  - simpl in Hsh. apply elem_of_cons in Hin as [->|Hin].
    + rewrite Hrem in Hsh. by destruct Hsh.
    + destruct (remainder e0) as [h0|].
      * destruct Hsh as [Hh0 Hsh]. etrans; [by eapply IH|done].
      * by eapply IH.
Qed.

Lemma loop_S (opts : options) (fuel : nat) (d : char) (html' : str)
    (last : option str) (st : store) :
  loop opts (S fuel) (d :: html') last st =
    match iteration opts (d :: html') last st with
    | (evs, Continue h1 st1) =>
        let '(evs', c, st2) := loop opts fuel h1 (Some (d :: html')) st1 in
        (evs ++ evs', c, st2)
    | (evs, Raise e st1) => (evs, Threw e, st1)
    | (evs, Hang) => (evs, Running, st)
    end.
Proof. reflexivity. Qed.

(** Invariant of the loop: whatever way the call ends, the calls made so
    far report a prefix of the input without gaps, with shrinking
    remainders; when the loop is left regularly nothing of the input is
    missing. *)
Lemma loop_trace (opts : options) (fuel : nat) (html : str)
    (last : option str) (st : store) :
  shrinking html (loop opts fuel html last st).1.1 /\
  exists rem, spans (loop opts fuel html last st).1.1 ++ rem = html /\
    ((loop opts fuel html last st).1.2 = Returned -> rem = []).
Proof.
  revert html last st. induction fuel as [|fuel IH]; intros html last st.
  - destruct html; simpl; [by split; [|exists []]|].
    split; [done|]. by eexists.
  - destruct html as [|d html']; [by split; [|exists []]|].
    rewrite loop_S. set (html := d :: html').
    pose proof (iteration_consumes opts html last st)
      as (Hsh & rem & Hcut & Hsuf & Hfl).
    destruct (iteration opts html last st) as [evs fl]. simpl in Hsh, Hcut, Hsuf, Hfl.
    destruct fl as [h1 st1|e st1|].
    + pose proof (Hfl h1 st1 eq_refl) as ->.
      specialize (IH rem (Some html) st1) as (Hsh1 & rem1 & Hcut1 & Hret1).
      destruct (loop opts fuel rem (Some html) st1) as [[evs1 c1] st2].
      simpl in *. split.
      * by eapply shrinking_app.
      * exists rem1. rewrite spans_app, <- app_assoc, Hcut1. done.
    + simpl. split; [done|]. by exists rem.
    + simpl. split; [done|]. by exists rem.
Qed.

(** C10: [parse] on the empty string returns at once, whatever the options
    and the state of the patterns, and no handler is called. *)
Theorem parse_empty (opts : options) (fuel : nat) (st : store) :
  parse opts fuel [] st = ([], Returned, st).
Proof. reflexivity. Qed.

Lemma parse_trace (opts : options) (fuel : nat) (html : str) (st : store) :
  shrinking html (parse opts fuel html st).1.1 /\
  exists rem, spans (parse opts fuel html st).1.1 ++ rem = html /\
    ((parse opts fuel html st).1.2 = Returned -> rem = []).
Proof.
  destruct html as [|d html']; [by split; [|exists []]|].
  apply loop_trace.
Qed.

(** C1: when [parse] returns (it neither raises the error of a loop without
    progress nor keeps reporting it), the first arguments of the calls of the
    start, end, text, comment and other handlers, joined in the order of the
    calls, are the input string: no gap, no overlap. *)
Theorem span_coverage (opts : options) (fuel : nat) (html : str)
    (st st' : store) (evs : list event) :
  parse opts fuel html st = (evs, Returned, st') ->
  spans evs = html.
Proof.
  intros Hp. destruct (parse_trace opts fuel html st) as (_ & rem & Hcut & Hret).
  rewrite Hp in *. simpl in *. rewrite Hret in Hcut by done.
  by rewrite app_nil_r in Hcut.
Qed.

(** C9: the remainder passed to a handler is a suffix of the input string,
    and the remainders of successive calls shrink: each is a suffix of the
    one before (the first of the input).  This holds for the calls made in
    any run, finished or not. *)
Theorem remainders_shrink (opts : options) (fuel : nat) (html : str)
    (st : store) :
  let evs := (parse opts fuel html st).1.1 in
  shrinking html evs /\
  forall e rem, e ∈ evs -> remainder e = Some rem -> rem `suffix_of` html.
Proof.
  destruct (parse_trace opts fuel html st) as (Hsh & _).
  split; [done|]. by apply shrinking_suffixes.
Qed.

(** ** The text handler *)

(** C7: handed a found position [offset], [onText] reports the first
    [offset] characters as one text and goes on after them; handed -1 (not
    found), it reports all of [html] and leaves nothing; a text of length
    zero is not reported at all. *)
Theorem onText_contract (html : str) (isRawText : bool) :
  (forall offset : nat,
     onText html (Z.of_nat offset) isRawText =
       (match take offset html with
        | [] => []
        | text => [CallText text isRawText (drop offset html)]
        end,
        drop offset html)) /\
  onText html (-1) isRawText =
    (match html with
     | [] => []
     | text => [CallText text isRawText []]
     end,
     []).
Proof.
  split.
  - intros offset. rewrite onText_spec. cbv zeta.
    destruct (Z.eqb_spec (Z.of_nat offset) (-1)) as [?|_]; [lia|]. simpl negb. cbv iota.
    rewrite slice_0_nat, slice_from_nat. by destruct (take offset html).
  - by rewrite onText_spec.
Qed.

(** ** What the decoders exclude *)

Lemma match_at_0 (R : RegExp) (html : str) :
  anchored R ->
  String_match html R =
    match matcher (ignoreCase R) (source R) (MState html 0 ∅) Some with
    | Some y => Some (mkMatch 0 (take (endIndex y) html) (captures y))
    | None => None
    end.
Proof.
  intros ([r HR] & Hg & Hy). unfold String_match, RegExpBuiltinExec.
  rewrite Hg, Hy. simpl. rewrite drop_0.
  destruct html as [|d html]; simpl.
  - destruct (matcher _ _ _ _); simpl; [|done]. by rewrite Nat.sub_0_r.
  - destruct (matcher _ _ _ _); simpl; [by rewrite Nat.sub_0_r|].
    rewrite Hy. by rewrite (scan_anchored R r).
Qed.

(** A start tag does not begin with [</] or [<!]. *)
Lemma startTag_excludes (c : char) (s : str) :
  c = SLASH \/ c = BANG -> String_match (LT :: c :: s) startTag = None.
Proof.
  intros Hc. rewrite match_at_0 by apply startTag_anchored.
  destruct Hc as [-> | ->]; reflexivity.
Qed.

Lemma endTag_begins (html : str) (m : MatchResult) :
  String_match html endTag = Some m -> exists s, html = LT :: SLASH :: s.
Proof.
  rewrite match_at_0 by apply endTag_anchored.
  destruct html as [|c1 [|c2 s]]; [done| |];
    cbn -[N.eqb]; unfold one_char; cbn -[N.eqb].
  - by destruct (N.eqb _ c1).
  - destruct (N.eqb _ c1) eqn:E1; [|done]. apply N.eqb_eq in E1 as <-.
    unfold one_char; cbn -[N.eqb].
    destruct (N.eqb _ c2) eqn:E2; [|done]. apply N.eqb_eq in E2 as <-.
    intros _. by eexists.
Qed.

Lemma comment_begins (html : str) (m : MatchResult) :
  String_match html comment = Some m -> exists s, html = LT :: BANG :: s.
Proof.
  rewrite match_at_0 by apply comment_anchored.
  destruct html as [|c1 [|c2 s]]; [done| |];
    cbn -[N.eqb]; unfold one_char; cbn -[N.eqb].
  - by destruct (N.eqb _ c1).
  - destruct (N.eqb _ c1) eqn:E1; [|done]. apply N.eqb_eq in E1 as <-.
    unfold one_char; cbn -[N.eqb].
    destruct (N.eqb _ c2) eqn:E2; [|done]. apply N.eqb_eq in E2 as <-.
    intros _. by eexists.
Qed.

Lemma endTag_excludes_bang (s : str) :
  String_match (LT :: BANG :: s) endTag = None.
Proof. rewrite match_at_0 by apply endTag_anchored. reflexivity. Qed.

Lemma item_set_item (m : MatchResult) (n : nat) (v : str) :
  item (set_item m n v) n = v.
Proof. unfold item, set_item. simpl. by rewrite lookup_insert_eq. Qed.

(** ** Dispatch at a [<] *)

(** C2: when [html] begins with [<] the patterns are tried in the order
    start tag, end tag, comment, other, and the first that matches decides
    the one handler that gets the construct: the later patterns are not
    consulted.  After a start tag the only further call of the iteration is
    the raw text of a raw element; when no pattern matches no handler is
    called.  In particular an end tag or a comment at the front goes to the
    end or the comment handler and never to the other handler, although the
    pattern [other] matches it too. *)
Theorem dispatch_priority (opts : options) (html' : str) (st : store) :
  let html := LT :: html' in
  let evs := (dispatch opts html st).1 in
  let after m := slice_from html (Z.of_nat (length (matched m))) in
  match String_match html startTag with
  | Some m =>
      exists attrs raw,
        evs = CallStart (matched m) (toLowerCase (item m 1)) attrs (after m) :: raw /\
        (raw = [] \/ exists text rem, raw = [CallText text true rem])
  | None =>
      match String_match html endTag with
      | Some m => evs = [CallEnd (matched m) (toLowerCase (item m 1)) (after m)]
      | None =>
          match String_match html comment with
          | Some m => evs = [CallComment (matched m) (item m 1) (after m)]
          | None =>
              match String_match html other with
              | Some m => evs = [CallOther (matched m) (item m 1) (after m)]
              | None => evs = []
              end
          end
      end
  end /\
  (forall m, String_match html endTag = Some m ->
     evs = [CallEnd (matched m) (toLowerCase (item m 1)) (after m)]) /\
  (forall m, String_match html comment = Some m ->
     evs = [CallComment (matched m) (item m 1) (after m)]).
Proof.
  intros html evs after.
  assert (Htable :
    match String_match html startTag with
    | Some m =>
        exists attrs raw,
          evs = CallStart (matched m) (toLowerCase (item m 1)) attrs (after m) :: raw /\
          (raw = [] \/ exists text rem, raw = [CallText text true rem])
    | None =>
        match String_match html endTag with
        | Some m => evs = [CallEnd (matched m) (toLowerCase (item m 1)) (after m)]
        | None =>
            match String_match html comment with
            | Some m => evs = [CallComment (matched m) (item m 1) (after m)]
            | None =>
                match String_match html other with
                | Some m => evs = [CallOther (matched m) (item m 1) (after m)]
                | None => evs = []
                end
            end
        end
    end).
  { subst evs. unfold dispatch.
    rewrite bool_decide_eq_true_2 by done.
    destruct (String_match html startTag) as [m|].
    { destruct (onStartTag_spec html m st) as (attrs & st1 & ->).
      exists attrs. destruct (RegExp_test _ _ _) as [raw li]. cbv zeta.
      destruct raw; [|by eexists; split; [|left]].
      destruct (from_option _ _ _ _) as [e|ending]; [by eexists; split; [|left]|].
      destruct (rawEnd _ ending) as [index|]; [|by eexists; split; [|left]].
      rewrite onText_spec. cbv zeta.
      destruct (if negb _ then slice _ _ _ else _) as [|c text]; simpl.
      - eexists; split; [done|by left].
      - eexists; split; [done|right; eauto]. }
    destruct (String_match html endTag) as [m|].
    { rewrite onTag_spec. simpl. by rewrite item_set_item. }
    destruct (String_match html comment) as [m|]; [done|].
    destruct (String_match html other) as [m|]; [done|].
    done. }
  split; [done|]. split.
  - intros m Hm. destruct (endTag_begins _ _ Hm) as [s Hs].
    injection Hs as ->. unfold html in Htable, Hm.
    rewrite (startTag_excludes SLASH s) in Htable by (by left).
    by rewrite Hm in Htable.
  - intros m Hm. destruct (comment_begins _ _ Hm) as [s Hs].
    injection Hs as ->. unfold html in Htable, Hm.
    rewrite (startTag_excludes BANG s) in Htable by (by right).
    rewrite endTag_excludes_bang in Htable.
    by rewrite Hm in Htable.
Qed.

(** ** A loop without progress *)

(** At a [<] that no pattern matches the body of the loop consumes nothing
    and calls no handler. *)
Lemma dispatch_stall (opts : options) (html' : str) (st : store) :
  let html := LT :: html' in
  String_match html startTag = None -> String_match html endTag = None ->
  String_match html comment = None -> String_match html other = None ->
  dispatch opts html st = ([], Continue html st).
Proof.
  intros html H1 H2 H3 H4. unfold dispatch.
  rewrite bool_decide_eq_true_2 by done. by rewrite H1, H2, H3, H4.
Qed.

Lemma lone_bracket_stalls (opts : options) (st : store) :
  dispatch opts [LT] st = ([], Continue [LT] st).
Proof. by apply dispatch_stall. Qed.

Lemma loop_stalled_forever (opts : options) (html' : str) (fuel : nat)
    (st : store) :
  let html := LT :: html' in
  error opts = true ->
  dispatch opts html st = ([], Continue html st) ->
  loop opts fuel html (Some html) st =
    (replicate fuel (CallError (parse_error html)), Running, st).
Proof.
  intros html Herr Hd. induction fuel as [|fuel IH]; [done|].
  unfold html at 1. rewrite loop_S. fold html. unfold iteration.
  rewrite bool_decide_eq_true_2 by done. rewrite Herr, Hd, IH. done.
Qed.

(** C6 (the loop does not end when an error handler is given): on the
    input [<] no pattern matches and the text before the next [<] is empty,
    so the second iteration finds no progress; the error handler is called
    and the loop goes on with the same input.  However many iterations are
    allowed, the call is still running, and each iteration after the first
    has called the error handler once. *)
Theorem error_handler_loops (me : option (str -> RegExp)) (rt : option RegExp)
    (fuel : nat) (st : store) :
  parse (mkOptions true me rt) fuel [LT] st =
    (replicate (Nat.pred fuel) (CallError (parse_error [LT])), Running, st).
Proof.
  unfold parse. destruct fuel as [|fuel]; [done|].
  rewrite loop_S. unfold iteration.
  rewrite bool_decide_eq_false_2 by done.
  rewrite lone_bracket_stalls.
  rewrite (loop_stalled_forever _ []); [done..|apply lone_bracket_stalls].
Qed.

(** ** Groups that take part in every match

    [m[1]] and [m[2]] of a start tag and [m[1]] of an end tag, a comment and
    another construct are strings, never undefined. *)

Lemma matches_keeps (ic : bool) (r : regex) (x y : mstate) (n : nat) :
  matches ic r x y -> n ∉ groups r ->
  is_Some (captures x !! n) -> is_Some (captures y !! n).
Proof. intros Hm Hn. by rewrite (matches_captures ic r x y n Hm Hn). Qed.

Lemma startTag_items (html : str) (m : MatchResult) :
  String_match html startTag = Some m ->
  is_Some (item_opt m 1) /\ is_Some (item_opt m 2).
Proof.
  intros (k & y & Hy & _ & Hcap & _)%match_sound. unfold item_opt. rewrite Hcap.
  simpl in Hy.
  apply matches_Seq_inv in Hy as (y0 & ?%matches_Bol_inv & Hy).
  apply matches_Seq_inv in Hy as (y1 & Hlt & Hy).
  apply matches_Seq_inv in Hy as (y2 & H1 & Hy).
  apply matches_Group_inv in H1 as (y2' & _ & ->).
  apply matches_Seq_inv in Hy as (y3 & H2 & Hy).
  apply matches_Group_inv in H2 as (y3' & H2 & ->).
  apply matches_no_groups in H2; [|done]. simpl in H2.
  split.
  - eapply matches_keeps; [done|by apply not_elem_of_cons; split; [|apply not_elem_of_nil]|].
    simpl. rewrite H2. by simplify_map_eq.
  - eapply matches_keeps; [done|by apply not_elem_of_cons; split; [|apply not_elem_of_nil]|].
    simpl. by simplify_map_eq.
Qed.

Lemma endTag_item (html : str) (m : MatchResult) :
  String_match html endTag = Some m -> is_Some (item_opt m 1).
Proof.
  intros (k & y & Hy & _ & Hcap & _)%match_sound. unfold item_opt. rewrite Hcap.
  simpl in Hy.
  apply matches_Seq_inv in Hy as (y0 & _ & Hy).
  apply matches_Seq_inv in Hy as (y1 & _ & Hy).
  apply matches_Seq_inv in Hy as (y2 & _ & Hy).
  apply matches_Seq_inv in Hy as (y3 & H1 & Hy).
  apply matches_Group_inv in H1 as (y3' & _ & ->).
  eapply matches_keeps; [done|apply not_elem_of_nil|]. simpl. by simplify_map_eq.
Qed.

Lemma comment_item (html : str) (m : MatchResult) :
  String_match html comment = Some m -> is_Some (item_opt m 1).
Proof.
  intros (k & y & Hy & _ & Hcap & _)%match_sound. unfold item_opt. rewrite Hcap.
  simpl in Hy.
  do 5 (apply matches_Seq_inv in Hy as (? & _ & Hy)).
  apply matches_Seq_inv in Hy as (y3 & H1 & Hy).
  apply matches_Group_inv in H1 as (y3' & _ & ->).
  eapply matches_keeps; [done|apply not_elem_of_nil|]. simpl. by simplify_map_eq.
Qed.

Lemma other_item (html : str) (m : MatchResult) :
  String_match html other = Some m -> is_Some (item_opt m 1).
Proof.
  intros (k & y & Hy & _ & Hcap & _)%match_sound. unfold item_opt. rewrite Hcap.
  simpl in Hy.
  do 2 (apply matches_Seq_inv in Hy as (? & _ & Hy)).
  apply matches_Seq_inv in Hy as (y3 & H1 & Hy).
  apply matches_Group_inv in H1 as (y3' & _ & ->).
  eapply matches_keeps; [done|apply not_elem_of_nil|]. simpl. by simplify_map_eq.
Qed.


(** ** Attributes *)

Lemma replace_loop_Forall (P : MatchResult -> Prop) (R : RegExp) (s : str) :
  (forall lastIndex m lastIndex',
     RegExpBuiltinExec R lastIndex s = (Some m, lastIndex') -> P m) ->
  forall fuel lastIndex, Forall P (replace_loop fuel R s lastIndex).1.
Proof.
  intros HP. induction fuel as [|fuel IH]; intros lastIndex; simpl; [done|].
  destruct (RegExpBuiltinExec R lastIndex s) as [[m|] li'] eqn:He; [|done].
  specialize (IH (match matched m with [] => S li' | _ => li' end)).
  destruct (replace_loop fuel R s _) as [ms final]. simpl in *.
  constructor; [by eapply HP|done].
Qed.

(** The captures of a match of [attr]. *)
Lemma attr_exec_shape (lastIndex : nat) (s : str) (m : MatchResult)
    (lastIndex' : nat) :
  RegExpBuiltinExec attr lastIndex s = (Some m, lastIndex') ->
  is_Some (item_opt m 1) /\ attr_shape m.
Proof.
  intros (k & y & Hy & _ & Hcap & _)%exec_sound. simpl in Hy.
  set (x0 := MState _ _ _) in Hy.
  assert (Hc0 : captures x0 = ∅) by done. clearbody x0.
  apply matches_Seq_inv in Hy as (y1 & Hname & Hy).
  apply matches_Group_inv in Hname as (y0 & Hname & ->).
  apply matches_no_groups in Hname; [|done]. rewrite Hc0 in Hname.
  apply matches_Seq_inv in Hy as (y2 & Hopt & ->%matches_Empty_inv).
  set (name := take _ _) in *. clearbody name.
  apply matches_opt_inv in Hopt as [->|Hopt].
  { simpl in Hcap. rewrite Hname in Hcap.
    split; [|apply shape_bare]; unfold item_opt; rewrite Hcap; by simplify_map_eq. }
  apply matches_Seq_inv in Hopt as (z1 & Hs1 & Hopt).
  apply matches_no_groups in Hs1; [|done]. simpl in Hs1. rewrite Hname in Hs1.
  apply matches_Seq_inv in Hopt as (z2 & Heq & Hopt).
  apply matches_Group_inv in Heq as (z2' & Heq & ->).
  apply matches_Chr_inv in Heq as (d & rest' & Hr & Hd & ->).
  unfold Canonicalize in Hd. apply N.eqb_eq in Hd as <-. simpl in Hopt.
  replace (S (endIndex z1) - endIndex z1) with 1 in Hopt by lia.
  rewrite Hr in Hopt. simpl in Hopt. rewrite Hs1 in Hopt.
  apply matches_Seq_inv in Hopt as (z3 & Hs2 & Hopt).
  apply matches_no_groups in Hs2; [|done]. simpl in Hs2.
  apply matches_Seq_inv in Hopt as (z4 & Hval & ->%matches_Empty_inv).
  apply matches_opt_inv in Hval as [->|Hval].
  { rewrite Hs2 in Hcap.
    split; [|apply shape_equals]; unfold item_opt; rewrite Hcap; by simplify_map_eq. }
  set (x1 := clear_captures _ z3) in Hval.
  assert (Hx1 : captures x1 = delete 3 (delete 4 (delete 5 (captures z3)))) by done.
  rewrite Hs2 in Hx1.
  clearbody x1.
  apply matches_Alt_inv in Hval as [Hval|Hval];
    [|apply matches_Alt_inv in Hval as [Hval|Hval]].
  - apply matches_Seq_inv in Hval as (w1 & Hq1 & Hval).
    apply matches_Chr_inv in Hq1 as (d1 & r1 & _ & _ & ->).
    apply matches_Seq_inv in Hval as (w2 & Hv & Hval).
    apply matches_Group_inv in Hv as (w2' & Hv & ->).
    apply matches_no_groups in Hv; [|done]. simpl in Hv.
    apply matches_Seq_inv in Hval as (w3 & Hq2 & ->%matches_Empty_inv).
    apply matches_Chr_inv in Hq2 as (d2 & r2 & _ & _ & ->).
    simpl in Hcap. rewrite Hv, Hx1 in Hcap.
    split; [|eapply shape_double]; unfold item_opt; rewrite Hcap; by simplify_map_eq.
  - apply matches_Seq_inv in Hval as (w1 & Hq1 & Hval).
    apply matches_Chr_inv in Hq1 as (d1 & r1 & _ & _ & ->).
    apply matches_Seq_inv in Hval as (w2 & Hv & Hval).
    apply matches_Group_inv in Hv as (w2' & Hv & ->).
    apply matches_no_groups in Hv; [|done]. simpl in Hv.
    apply matches_Seq_inv in Hval as (w3 & Hq2 & ->%matches_Empty_inv).
    apply matches_Chr_inv in Hq2 as (d2 & r2 & _ & _ & ->).
    simpl in Hcap. rewrite Hv, Hx1 in Hcap.
    split; [|eapply shape_single]; unfold item_opt; rewrite Hcap; by simplify_map_eq.
  - apply matches_Group_inv in Hval as (w2' & Hv & ->).
    apply matches_no_groups in Hv; [|done].
    simpl in Hcap. rewrite Hv, Hx1 in Hcap.
    split; [|eapply shape_unquoted]; unfold item_opt; rewrite Hcap; by simplify_map_eq.
Qed.

(** On the captures of [attr] the expression of line 73 computes the rule
    of the specification. *)
Lemma attr_value_rule (m : MatchResult) :
  attr_shape m ->
  attr_value (item_opt m 2) (item_opt m 3) (item_opt m 4) (item_opt m 5) =
  attr_rule (item_opt m 2) (item_opt m 3) (item_opt m 4) (item_opt m 5).
Proof.
  destruct 1 as [m H2 H3 H4 H5|m H2 H3 H4 H5|m v H2 H3 H4 H5
                |m v H2 H3 H4 H5|m v H2 H3 H4 H5];
    rewrite H2, H3, H4, H5; try done; by destruct v.
Qed.


(** Assignments to keys other than [__proto__] behave as in a map: the
    value read back is the one of the last assignment to the key. *)
Lemma attrs_lookup (ms : list MatchResult) (o : object) (k : str) :
  k <> js "__proto__" ->
  own (foldl set_attr o ms) !! k =
    match last (filter (fun m => toLowerCase (item m 1) = k) ms) with
    | Some m =>
        Some (attr_value (item_opt m 2) (item_opt m 3) (item_opt m 4) (item_opt m 5))
    | None => own o !! k
    end.
Proof.
  intros Hk. revert o. induction ms as [|m ms IH]; intros o; [done|].
  simpl. rewrite IH. rewrite filter_cons.
  assert (Hown : own (set_attr o m) !! k =
    if decide (toLowerCase (item m 1) = k)
    then Some (attr_value (item_opt m 2) (item_opt m 3) (item_opt m 4) (item_opt m 5))
    else own o !! k).
  { unfold set_attr, obj_set. case_bool_decide as Hproto; simpl.
    - rewrite decide_False by congruence.
      destruct (has_prototype o); simpl; [by destruct (attr_value _ _ _ _)|].
      rewrite lookup_insert_ne; [done|congruence].
    - destruct (decide (toLowerCase (item m 1) = k)) as [->|Hne].
      + by rewrite lookup_insert_eq.
      + by rewrite lookup_insert_ne. }
  rewrite Hown. destruct (decide (toLowerCase (item m 1) = k)) as [Heq|Hne]; [|done].
  rewrite last_cons. by destruct (last _).
Qed.

(** X18: the attributes of a start tag, but for the key [__proto__]: the
    object handed to the start handler maps the lower-cased name of an occurrence
    to the value the rule of the specification gives for the last occurrence
    of that name, and has no other entries. *)
Lemma start_tag_attributes (html : str) (m : MatchResult) (st : store)
    (tag tagName rem : str) (attrs : object) (k : str) :
  (onStartTag html m st).1.1 = CallStart tag tagName attrs rem ->
  k <> js "__proto__" ->
  let occurrences := (String_replace_global (item m 2) attr).1 in
  own attrs !! k =
    match last (filter (fun am => toLowerCase (item am 1) = k) occurrences) with
    | Some am =>
        Some (attr_rule (item_opt am 2) (item_opt am 3) (item_opt am 4) (item_opt am 5))
    | None => None
    end.
Proof.
  intros Hev Hk occurrences. unfold onStartTag in Hev.
  pose proof (replace_loop_Forall attr_shape attr (item m 2)
    (fun li am li' He => proj2 (attr_exec_shape li (item m 2) am li' He))
    (length (item m 2) + 2) 0) as Hshape.
  fold (String_replace_global (item m 2) attr) in Hshape.
  subst occurrences.
  destruct (String_replace_global (item m 2) attr) as [ms li]. simpl in *.
  injection Hev as _ _ <- _. rewrite attrs_lookup by done.
  destruct (last (filter _ ms)) as [am|] eqn:Hlast; [|done].
  f_equal. apply attr_value_rule.
  apply last_Some_elem_of in Hlast.
  apply list_elem_of_filter in Hlast as [_ Hin].
  by eapply Forall_forall in Hshape.
Qed.


(** ** Termination *)

(** A comment has at least one character. *)
Lemma commentInside_nonempty (html : str) (m : MatchResult) :
  String_match html commentInside = Some m ->
  1 <= length (matched m) /\ m_index m + length (matched m) <= length html.
Proof.
  intros (k & y & Hy & He & _ & _ & Hlen & Hk)%match_sound.
  rewrite Hlen. split; [|done].
  apply matches_Seq_inv in Hy as (y1 & H1 & H2).
  apply matches_Chr_inv in H1 as (d & rest' & Hr & _ & ->).
  apply matches_ahead in H2 as (k2 & _ & He2 & _). simpl in He2. lia.
Qed.

(** [rawEnd] returns. *)
Lemma rawEnd_rec_total (fuel : nat) (html : str) (ending : RegExp) (offset : Z) :
  length html < fuel -> is_Some (rawEnd_rec fuel html ending offset).
Proof.
  revert html offset. induction fuel as [|fuel IH]; intros html offset Hfuel; [lia|].
  simpl. destruct (String_match html commentInside) as [cm|] eqn:Hcm; [|done].
  destruct (_ <? _)%Z; [|done].
  apply commentInside_nonempty in Hcm as [H1 H2].
  rewrite <- Nat2Z.inj_add, slice_from_nat. apply IH.
  rewrite length_drop. lia.
Qed.

Lemma rawEnd_total (html : str) (ending : RegExp) : is_Some (rawEnd html ending).
Proof. apply rawEnd_rec_total. lia. Qed.

(** The body of the loop never hangs. *)
Lemma dispatch_no_hang (opts : options) (html : str) (st : store) :
  (dispatch opts html st).2 <> Hang.
Proof.
  unfold dispatch, plain_text.
  destruct (bool_decide _); [|by destruct (onText _ _ _)].
  destruct (String_match html startTag) as [m|].
  { destruct (onStartTag html m st) as [[ev h1] s1].
    destruct (RegExp_test _ _ _) as [raw li]. cbv zeta.
    destruct raw; [|done].
    destruct (from_option _ _ _ _) as [e|ending]; [done|].
    destruct (rawEnd_total h1 ending) as [index ->].
    by destruct (onText h1 index true). }
  destruct (String_match html endTag) as [m|]; [done|].
  destruct (String_match html comment) as [m|]; [done|].
  destruct (String_match html other) as [m|]; [done|].
  by destruct (onText _ _ _).
Qed.

(** Without an error handler the loop is left after at most [|html| + 2]
    iterations: an iteration makes [html] shorter or leaves it as it is,
    and then the next one raises the error. *)
Lemma loop_ends (opts : options) (fuel : nat) (html : str)
    (last : option str) (st : store) :
  error opts = false ->
  length html + (if bool_decide (Some html = last) then 0 else 1) < fuel ->
  (loop opts fuel html last st).1.2 <> Running.
Proof.
  intros Herr. revert html last st.
  induction fuel as [|fuel IH]; intros html last st Hfuel; [lia|].
  destruct html as [|d html']; [done|]. rewrite loop_S.
  unfold iteration. rewrite Herr.
  case_bool_decide as Hstall; [done|].
  pose proof (dispatch_consumes opts (d :: html') st) as (_ & rem & Hcut & _ & Hfl).
  pose proof (dispatch_no_hang opts (d :: html') st) as Hhang.
  destruct (dispatch opts (d :: html') st) as [evs fl]. simpl in Hcut, Hfl, Hhang.
  destruct fl as [h1 s1|e s1|]; [|done|done].
  specialize (Hfl h1 s1 eq_refl) as ->.
  specialize (IH rem (Some (d :: html')) s1).
  destruct (loop opts fuel rem (Some (d :: html')) s1) as [[evs' c] s2].
  simpl in IH |- *. apply IH.
  assert (Hlen : length (d :: html') = length (spans evs) + length rem).
  { by rewrite <- Hcut, length_app. }
  case_bool_decide as Heq.
  2:{ destruct (spans evs) as [|e0 sp]; [by simpl in Hcut; subst rem|].
      simpl in *. lia. }
  injection Heq as ->. simpl in *. lia.
Qed.

(** X16: without an error handler every call of [parse] returns or raises;
    the loop needs at most [|html| + 2] iterations. *)
Theorem parse_ends (opts : options) (html : str) (st : store) (fuel : nat) :
  error opts = false -> length html + 2 <= fuel ->
  (parse opts fuel html st).1.2 <> Running.
Proof.
  intros Herr Hfuel. destruct html as [|d html']; [done|].
  apply loop_ends; [done|]. rewrite bool_decide_eq_false_2 by done. simpl in *. lia.
Qed.

(** ** The end of raw text *)

Lemma String_search_range (s : str) (R : RegExp) :
  (-1 <= String_search s R)%Z.
Proof. unfold String_search. destruct (RegExpBuiltinExec R 0 s).1; lia. Qed.

(** What [rawEnd] returns is at least [offset - 1]: once a comment has been
    skipped the sum [index + offset] is not negative, whatever [index] is. *)
Lemma rawEnd_rec_lower (fuel : nat) (html : str) (ending : RegExp)
    (offset z : Z) :
  rawEnd_rec fuel html ending offset = Some z -> (offset - 1 <= z)%Z.
Proof.
  revert html offset. induction fuel as [|fuel IH]; intros html offset; [done|].
  simpl. pose proof (String_search_range html ending).
  destruct (String_match html commentInside) as [cm|]; [|intros [= <-]; lia].
  destruct (_ <? _)%Z; [|intros [= <-]; lia].
  intros Hz%IH. lia.
Qed.

(** X17: [rawEnd] reports "not found" exactly when the end pattern occurs
    nowhere in its input, comments included. *)
Lemma rawEnd_not_found_iff (html : str) (ending : RegExp) :
  rawEnd html ending = Some (-1)%Z <-> String_search html ending = (-1)%Z.
Proof.
  unfold rawEnd. simpl.
  destruct (String_match html commentInside) as [cm|] eqn:Hcm.
  - destruct (Z.ltb_spec (Z.of_nat (m_index cm)) (String_search html ending)) as [Hlt|Hge].
    + split; [|lia]. intros Hz%rawEnd_rec_lower.
      apply commentInside_nonempty in Hcm. lia.
    + split; [intros [= Hz]; lia|intros ->; done].
  - split; [intros [= Hz]; lia|intros ->; done].
Qed.


(** ** What the decoders hand over *)

(** A match at position 0 as a way to match from the start of the string. *)
Lemma match_anchored_sound (R : RegExp) (html : str) (m : MatchResult) :
  anchored R -> String_match html R = Some m ->
  exists y, matches (ignoreCase R) (source R) (MState html 0 ∅) y /\
    capture m = captures y /\ matched m = take (endIndex y) html.
Proof.
  intros HR Hm. destruct (match_anchored R html m HR Hm) as [Hi _].
  apply match_sound in Hm as (k & y & Hy & He & Hcap & Hmat & _).
  rewrite Hi, drop_0 in *. exists y. simpl in He. by rewrite He.
Qed.

Lemma Chr_exact (a : char) (x y : mstate) :
  matches false (Chr a) x y ->
  exists rest', rest x = a :: rest' /\ y = advance x rest'.
Proof.
  intros (d & rest' & Hr & Hd & ->)%matches_Chr_inv.
  unfold Canonicalize in Hd. apply N.eqb_eq in Hd as <-. eauto.
Qed.

(** The text of another construct: [<], the data, [>]. *)
Lemma other_sound (html : str) (m : MatchResult) :
  String_match html other = Some m ->
  exists data rest',
    html = LT :: data ++ GT :: rest' /\
    matched m = LT :: data ++ [GT] /\ item_opt m 1 = Some data.
Proof.
  intros (y & Hy & Hcap & Hmat)%match_anchored_sound; [|apply other_anchored].
  unfold item_opt. rewrite Hcap, Hmat. clear Hcap Hmat. simpl in Hy.
  apply matches_Seq_inv in Hy as (y0 & [-> _]%matches_Bol_inv & Hy).
  apply matches_Seq_inv in Hy as (x1 & (rest1 & Hr1 & ->)%Chr_exact & Hy).
  apply matches_Seq_inv in Hy as (x2 & Hg & Hy).
  apply matches_Group_inv in Hg as (y' & Hg & ->).
  apply matches_rep_class in Hg as (w & Hw & Hi & Hc & _).
  apply matches_Seq_inv in Hy as (x3 & (rest3 & Hr3 & ->)%Chr_exact
                                     & ->%matches_Empty_inv).
  simpl in *. subst html. rewrite Hi, Hw, Hr3.
  exists w, rest3. split; [done|]. split.
  - simpl. by rewrite take_snoc_app.
  - replace (S (length w) - 1) with (length w) by lia.
    by rewrite take_app_length, lookup_insert_eq.
Qed.

(** A pattern of the form [^<...>] matches a text that begins with [<]
    and ends with [>]. *)
Lemma bracketed (R : RegExp) (mid : list regex) (html : str) (m : MatchResult) :
  anchored R -> ignoreCase R = false ->
  source R = Seq Bol (Seq (Chr LT) (cat (mid ++ [Chr GT]))) ->
  String_match html R = Some m ->
  exists w rest', html = LT :: w ++ GT :: rest' /\ matched m = LT :: w ++ [GT].
Proof.
  intros HR Hic Hsrc (y & Hy & _ & Hmat)%match_anchored_sound; [|done].
  rewrite Hmat. clear Hmat. rewrite Hic, Hsrc in Hy.
  apply matches_Seq_inv in Hy as (y0 & [-> _]%matches_Bol_inv & Hy).
  apply matches_Seq_inv in Hy as (x1 & (rest1 & Hr1 & ->)%Chr_exact & Hy).
  apply matches_cat_last in Hy as (w & d & Hw & Hi & Hd).
  unfold Canonicalize in Hd. apply N.eqb_eq in Hd as <-.
  simpl in *. subst html. rewrite Hw, Hi.
  exists w, (rest y). split; [done|].
  replace (S (length w + 1)) with (S (S (length w))) by lia.
  simpl. by rewrite take_snoc_app.
Qed.

Lemma startTag_bracketed (html : str) (m : MatchResult) :
  String_match html startTag = Some m ->
  exists w rest', html = LT :: w ++ GT :: rest' /\ matched m = LT :: w ++ [GT].
Proof.
  apply (bracketed startTag
    [Group 1 (plus name_char);
     Group 2 (star (cat [
       plus space;
       plus (none_of [ASpace; AChar EQUALS; AChar SLASH; AChar GT]);
       opt (cat [star space; Chr EQUALS; star space;
                 opt (Alt (cat [Chr DQUOTE; star (none_of [AChar DQUOTE]); Chr DQUOTE])
                     (Alt (cat [Chr SQUOTE; star (none_of [AChar SQUOTE]); Chr SQUOTE])
                          (plus (none_of [AChar GT; ASpace]))))])]));
     star space; Group 3 (opt (Chr SLASH)); star space]);
    [apply startTag_anchored|done..].
Qed.

Lemma endTag_bracketed (html : str) (m : MatchResult) :
  String_match html endTag = Some m ->
  exists w rest', html = LT :: w ++ GT :: rest' /\ matched m = LT :: w ++ [GT].
Proof.
  apply (bracketed endTag
    [Chr SLASH; Group 1 (plus name_char); star (none_of [AChar GT])]);
    [apply endTag_anchored|done..].
Qed.

Lemma comment_bracketed (html : str) (m : MatchResult) :
  String_match html comment = Some m ->
  exists w rest', html = LT :: w ++ GT :: rest' /\ matched m = LT :: w ++ [GT].
Proof.
  apply (bracketed comment
    [Chr BANG; Chr DASH; Chr DASH; Group 1 (lazy_star any); Chr DASH; Chr DASH]);
    [apply comment_anchored|done..].
Qed.


(** The lazy [[\s\S]*?] hands over at the first state its continuation
    accepts. *)
Lemma lazy_any_until (c : mstate -> option mstate) (z : mstate)
    (data tail : str) (i : nat) (caps : gmap nat str) (fuel : nat) :
  length data < fuel ->
  (forall pre d suf, data = pre ++ d :: suf ->
     c (MState (d :: suf ++ tail) (i + length pre) caps) = None) ->
  c (MState tail (i + length data) caps) = Some z ->
  RepeatMatcher (matcher false any) (groups any) false c fuel 0 None
    (MState (data ++ tail) i caps) = Some z.
Proof.
  revert i fuel. induction data as [|d data IH]; intros i fuel Hfuel Hnone Hsome;
    (destruct fuel as [|fuel]; [simpl in Hfuel; lia|]).
  - simpl in *. rewrite Nat.add_0_r in Hsome. by rewrite Hsome.
  - pose proof (Hnone [] d data eq_refl) as Hhead.
    simpl in Hhead. rewrite Nat.add_0_r in Hhead.
    cbn -[N.eqb is_space]. rewrite Hhead.
    unfold one_char. cbn -[N.eqb is_space].
    replace (is_space d || (negb (is_space d) || false)) with true
      by (by destruct (is_space d)).
    replace (Nat.eqb i i) with true by (symmetry; apply Nat.eqb_refl).
    replace (match i with 0 => false | S m' => Nat.eqb i m' end) with false.
    2:{ symmetry. destruct i; [done|]. apply Nat.eqb_neq. lia. }
    apply IH.
    + simpl in Hfuel. lia.
    + intros pre d' suf ->. specialize (Hnone (d :: pre) d' suf eq_refl).
      simpl in Hnone. by rewrite Nat.add_succ_r in Hnone.
    + simpl in Hsome. by rewrite Nat.add_succ_r in Hsome.
Qed.

(** The pattern [other] matches a [<] up to the first [>]. *)
Lemma other_exact (data rest' : str) :
  GT ∉ data ->
  String_match (LT :: data ++ GT :: rest') other =
    Some (mkMatch 0 (LT :: data ++ [GT]) {[ 1 := data ]}).
Proof.
  intros Hdata. rewrite match_at_0 by apply other_anchored.
  cbn -[N.eqb RepeatMatcher any GT LT]. unfold one_char at 1, advance at 2.
  cbn -[N.eqb RepeatMatcher any GT LT].
  rewrite N.eqb_refl.
  erewrite (lazy_any_until _
              (MState rest' (S (1 + length data)) {[ 1 := data ]})
              data (GT :: rest') 1 ∅).
  - cbn [endIndex captures]. simpl. by rewrite take_snoc_app.
  - rewrite length_app. simpl. lia.
  - intros pre d suf ->. cbn -[N.eqb GT].
    destruct (N.eqb_spec GT d) as [<-|]; [|done].
    exfalso. apply Hdata. apply elem_of_app. right. by left.
  - cbn -[N.eqb GT]. rewrite N.eqb_refl. unfold advance. cbn.
    by rewrite Nat.sub_0_r, take_app_length.
Qed.

(** ** From one run of the loop body to the whole call *)

(** What holds for the calls of every run of the body and for the calls of
    the error handler holds for all calls of [parse]. *)
Lemma parse_Forall (P : event -> Prop) (opts : options) :
  (forall html st, html <> [] -> Forall P (dispatch opts html st).1) ->
  (forall html, html <> [] -> P (CallError (parse_error html))) ->
  forall fuel html st, Forall P (parse opts fuel html st).1.1.
Proof.
  intros Hd He fuel html st.
  assert (Hloop : forall fuel html last st, Forall P (loop opts fuel html last st).1.1).
  { clear fuel html st. induction fuel as [|fuel IH]; intros html last st.
    - destruct html; simpl; constructor.
    - destruct html as [|d html']; [constructor|]. rewrite loop_S.
      assert (Hit : Forall P (iteration opts (d :: html') last st).1).
      { unfold iteration. specialize (Hd (d :: html') st ltac:(done)).
        destruct (bool_decide _); [|done].
        destruct (error opts); [|constructor].
        destruct (dispatch opts (d :: html') st) as [evs fl]. simpl in *.
        constructor; [by apply He|done]. }
      destruct (iteration opts (d :: html') last st) as [evs fl]. simpl in Hit.
      destruct fl as [h1 s1|e s1|]; simpl; [|done..].
      specialize (IH h1 (Some (d :: html')) s1).
      destruct (loop opts fuel h1 _ s1) as [[evs' c] s2]. simpl in *.
      by apply Forall_app. }
  destruct html as [|d html']; [constructor|]. apply Hloop.
Qed.

(** [indexOf] finds the first occurrence. *)
Lemma indexOf_from_spec (c : char) (s : str) (i : nat) :
  (indexOf_from c s i = (-1)%Z /\ c ∉ s) \/
  (exists n, indexOf_from c s i = Z.of_nat (i + n) /\ n < length s /\
     (c ∉ take n s) /\ (s !! n = Some c)).
Proof.
  revert i. induction s as [|d s IH]; intros i; simpl.
  - left. split; [done|apply not_elem_of_nil].
  - destruct (N.eqb_spec d c) as [->|Hne].
    + right. exists 0. rewrite Nat.add_0_r. simpl.
      split; [done|]. split; [lia|]. split; [apply not_elem_of_nil|done].
    + destruct (IH (S i)) as [[-> Hnot]|(n & -> & Hn & Hnot & Hat)].
      * left. split; [done|]. by apply not_elem_of_cons.
      * right. exists (S n). simpl. split; [f_equal; lia|].
        split; [lia|]. split; [by apply not_elem_of_cons|done].
Qed.

Lemma indexOf_spec (s : str) (c : char) :
  (indexOf s c = (-1)%Z /\ c ∉ s) \/
  (exists n, indexOf s c = Z.of_nat n /\ n < length s /\
     (c ∉ take n s) /\ (s !! n = Some c)).
Proof. apply (indexOf_from_spec c s 0). Qed.


(** The calls of one run of the body, by the pattern that matched. *)
Lemma dispatch_shape (opts : options) (html : str) (st : store) :
  let evs := (dispatch opts html st).1 in
  let after m := slice_from html (Z.of_nat (length (matched m))) in
  (exists m attrs, String_match html startTag = Some m /\
     (evs = [CallStart (matched m) (toLowerCase (item m 1)) attrs (after m)] \/
      exists index,
        evs = CallStart (matched m) (toLowerCase (item m 1)) attrs (after m)
              :: (onText (after m) index true).1)) \/
  (exists m, String_match html endTag = Some m /\
     evs = [CallEnd (matched m) (toLowerCase (item m 1)) (after m)]) \/
  (exists m, String_match html comment = Some m /\
     evs = [CallComment (matched m) (item m 1) (after m)]) \/
  (exists m, String_match html other = Some m /\
     evs = [CallOther (matched m) (item m 1) (after m)]) \/
  evs = (onText html (indexOf html LT) false).1.
Proof.
  intros evs after. subst evs. unfold dispatch, plain_text.
  destruct (bool_decide _).
  2:{ do 4 right. by destruct (onText _ _ _). }
  destruct (String_match html startTag) as [m|].
  { left. destruct (onStartTag_spec html m st) as (attrs & st1 & ->).
    exists m, attrs. split; [done|].
    destruct (RegExp_test _ _ _) as [raw li]. cbv zeta.
    destruct raw; [|by left].
    destruct (from_option _ _ _ _) as [e|ending]; [by left|].
    destruct (rawEnd _ ending) as [index|]; [|by left].
    right. exists index. by destruct (onText _ index true). }
  right. destruct (String_match html endTag) as [m|].
  { left. exists m. split; [done|]. rewrite onTag_spec. simpl.
    by rewrite item_set_item. }
  right. destruct (String_match html comment) as [m|].
  { left. by exists m. }
  right. destruct (String_match html other) as [m|].
  { left. by exists m. }
  right. by destruct (onText _ _ _).
Qed.

(** The events of [onText]: none, or the one text. *)
Lemma onText_events (html : str) (index : Z) (isRawText : bool) :
  (onText html index isRawText).1 = [] \/
  exists text rem, text <> [] /\
    (onText html index isRawText).1 = [CallText text isRawText rem] /\
    text = (if negb (index =? -1)%Z then slice html 0 index else html).
Proof.
  rewrite onText_spec. simpl.
  destruct (if negb _ then slice html 0 index else html) as [|c text] eqn:Ht;
    [by left|].
  right. eexists _, _. split; [|split; [done|]]; done.
Qed.

(** ** The arguments of the calls *)

Lemma dispatch_tags (opts : options) (html : str) (st : store) :
  Forall tag_in_brackets (dispatch opts html st).1.
Proof.
  destruct (dispatch_shape opts html st)
    as [(m & attrs & Hm & Hev)|[(m & Hm & ->)|[(m & Hm & ->)|[(m & Hm & ->)| ->]]]].
  - apply startTag_bracketed in Hm as (w & rest' & _ & Hw).
    assert (Ht : in_brackets (matched m)) by (by exists w).
    destruct Hev as [->|[index ->]]; [by repeat constructor|].
    constructor; [done|].
    destruct (onText_events (slice_from html (Z.of_nat (length (matched m)))) index true)
      as [->|(text & rem & _ & -> & _)]; by repeat constructor.
  - apply endTag_bracketed in Hm as (w & rest' & _ & Hw).
    repeat constructor. by exists w.
  - apply comment_bracketed in Hm as (w & rest' & _ & Hw).
    repeat constructor. by exists w.
  - apply other_sound in Hm as (w & rest' & _ & Hw & _).
    repeat constructor. by exists w.
  - destruct (onText_events html (indexOf html LT) false)
      as [->|(text & rem & _ & -> & _)]; by repeat constructor.
Qed.

Lemma dispatch_texts (opts : options) (html : str) (st : store) :
  Forall text_well_formed (dispatch opts html st).1.
Proof.
  destruct (dispatch_shape opts html st)
    as [(m & attrs & Hm & Hev)|[(m & Hm & ->)|[(m & Hm & ->)|[(m & Hm & ->)| ->]]]];
    try by repeat constructor.
  - destruct Hev as [->|[index ->]]; [by repeat constructor|].
    constructor; [done|].
    destruct (onText_events (slice_from html (Z.of_nat (length (matched m)))) index true)
      as [->|(text & rem & Hne & -> & _)]; by repeat constructor.
  - destruct (onText_events html (indexOf html LT) false)
      as [->|(text & rem & Hne & -> & Htext)]; [constructor|].
    repeat constructor; [done|]. intros _. subst text.
    destruct (indexOf_spec html LT) as [[-> Hnot]|(n & -> & _ & Hnot & _)]; [done|].
    destruct (Z.eqb_spec (Z.of_nat n) (-1)) as [?|_]; [lia|]. simpl.
    by rewrite slice_0_nat.
Qed.

(** X1: in every run of [parse], finished or not, the first argument of a
    call of the start, end, comment or other handler begins with [<] and
    ends with [>]. *)
Theorem tags_in_brackets (opts : options) (fuel : nat) (html : str)
    (st : store) :
  Forall tag_in_brackets (parse opts fuel html st).1.1.
Proof.
  apply parse_Forall; [|done]. intros h s _. apply dispatch_tags.
Qed.

(** X2: the text handler is never called with the empty string, and a text
    that is not raw contains no [<]. *)
Theorem texts_well_formed (opts : options) (fuel : nat) (html : str)
    (st : store) :
  Forall text_well_formed (parse opts fuel html st).1.1.
Proof.
  apply parse_Forall; [|done]. intros h s _. apply dispatch_texts.
Qed.

(** *** Raw text *)

Lemma raw_after_start_weaken (b : bool) (evs : list event) :
  raw_after_start false evs -> raw_after_start b evs.
Proof. destruct evs as [|e evs]; [done|]. simpl. intros [H1 H2]. split; [|done].
  intros He. by specialize (H1 He). Qed.

Lemma raw_after_start_app (b : bool) (evs1 evs2 : list event) :
  raw_after_start b evs1 -> raw_after_start false evs2 ->
  raw_after_start b (evs1 ++ evs2).
Proof.
  revert b. induction evs1 as [|e evs1 IH]; intros b; simpl.
  - intros _. apply raw_after_start_weaken.
  - intros [H1 H2] H3. split; [done|by apply IH].
Qed.

Lemma dispatch_raw (opts : options) (html : str) (st : store) :
  raw_after_start false (dispatch opts html st).1.
Proof.
  destruct (dispatch_shape opts html st)
    as [(m & attrs & Hm & Hev)|[(m & Hm & ->)|[(m & Hm & ->)|[(m & Hm & ->)| ->]]]];
    try by repeat split.
  - destruct Hev as [->|[index ->]]; [by repeat split|].
    destruct (onText_events (slice_from html (Z.of_nat (length (matched m)))) index true)
      as [->|(text & rem & _ & -> & _)]; by repeat split.
  - destruct (onText_events html (indexOf html LT) false)
      as [->|(text & rem & _ & -> & _)]; by repeat split.
Qed.

(** X3: a text is marked as raw only in the call that follows the call of
    the start handler directly. *)
Theorem raw_text_follows_start (opts : options) (fuel : nat) (html : str)
    (st : store) :
  raw_after_start false (parse opts fuel html st).1.1.
Proof.
  assert (Hloop : forall fuel html last st,
    raw_after_start false (loop opts fuel html last st).1.1).
  { clear. induction fuel as [|fuel IH]; intros html last st; [by destruct html|].
    destruct html as [|d html']; [done|]. rewrite loop_S.
    assert (Hit : raw_after_start false (iteration opts (d :: html') last st).1).
    { unfold iteration. pose proof (dispatch_raw opts (d :: html') st) as Hd.
      destruct (bool_decide _); [|done]. destruct (error opts); [|done].
      destruct (dispatch opts (d :: html') st) as [evs fl]. simpl in *.
      split; [done|]. by apply raw_after_start_weaken. }
    destruct (iteration opts (d :: html') last st) as [evs fl]. simpl in Hit.
    destruct fl as [h1 s1|e s1|]; simpl; [|done..].
    specialize (IH h1 (Some (d :: html')) s1).
    destruct (loop opts fuel h1 _ s1) as [[evs' c] s2]. simpl in *.
    by apply raw_after_start_app. }
  destruct html as [|d html']; [done|]. apply Hloop.
Qed.

(** *** Exact remainders *)

Lemma exact_app (s : str) (evs1 evs2 : list event) :
  exact s evs1 -> exact (last_remainder s evs1) evs2 -> exact s (evs1 ++ evs2).
Proof.
  revert s. induction evs1 as [|e evs1 IH]; intros s; simpl; [done|].
  destruct (remainder e) as [h|]; simpl.
  - intros [Hs H1] H2. split; [done|by apply IH].
  - apply IH.
Qed.

Lemma last_remainder_app (s : str) (evs1 evs2 : list event) :
  last_remainder s (evs1 ++ evs2) = last_remainder (last_remainder s evs1) evs2.
Proof. revert s. induction evs1 as [|e evs1 IH]; intros s; simpl; [done|apply IH]. Qed.

(** One run of the body: every call passes on exactly what is left, and
    the body goes on with the remainder of its last call. *)
Lemma dispatch_exact (opts : options) (html : str) (st : store) :
  exact html (dispatch opts html st).1 /\
  forall html' st', (dispatch opts html st).2 = Continue html' st' ->
    html' = last_remainder html (dispatch opts html st).1.
Proof.
  assert (Htext : forall h index raw,
    exact h (onText h index raw).1 /\
    (onText h index raw).2 = last_remainder h (onText h index raw).1 \/
    (onText h index raw).1 = [] /\ (onText h index raw).2 = h).
  { intros h index raw. rewrite onText_spec. simpl.
    destruct (negb (index =? -1)%Z).
    - pose proof (slice_cut h index) as Hcut.
      destruct (slice h 0 index) as [|c text]; [right|left]; simpl in *;
        [by split|by rewrite Hcut].
    - destruct h as [|c text]; [right|left]; simpl; [done|].
      by rewrite app_nil_r. }
  assert (Hplain : exact html (plain_text html st).1 /\
    forall html' st', (plain_text html st).2 = Continue html' st' ->
      html' = last_remainder html (plain_text html st).1).
  { unfold plain_text. specialize (Htext html (indexOf html LT) false).
    destruct (onText html (indexOf html LT) false) as [evs h']. simpl in *.
    destruct Htext as [[He ->]|[-> ->]]; (split; [done|by intros ?? [= <-]]). }
  assert (Htag : forall R m handler, anchored R -> String_match html R = Some m ->
    (forall a b c, remainder (handler a b c) = Some c) ->
    (forall a b c, span (handler a b c) = a) ->
    forall m', matched m' = matched m ->
    exact html [(onTag html m' handler).1] /\
    (onTag html m' handler).2 = last_remainder html [(onTag html m' handler).1]).
  { intros R m handler HR Hm Hrem Hspan m' Hm'. rewrite onTag_spec. simpl.
    rewrite Hrem, Hspan, Hm'. simpl. by rewrite (match_cut R html m). }
  unfold dispatch. destruct (bool_decide _); [|apply Hplain].
  destruct (String_match html startTag) as [m|] eqn:Hstart.
  { destruct (onStartTag_spec html m st) as (attrs & st1 & ->).
    pose proof (match_cut _ _ _ startTag_anchored Hstart) as Hcut.
    set (h1 := slice_from html _) in *.
    destruct (RegExp_test _ _ _) as [raw li]. cbv zeta.
    destruct raw; simpl; [|by split; [|intros ?? [= <-]]].
    destruct (from_option _ _ _ _) as [e|ending]; simpl; [by split|].
    destruct (rawEnd h1 ending) as [index|]; simpl; [|by split].
    specialize (Htext h1 index true).
    destruct (onText h1 index true) as [tevs h2]. simpl in *.
    destruct Htext as [[He ->]|[-> ->]]; (split; [done|by intros ?? [= <-]]). }
  destruct (String_match html endTag) as [m|] eqn:Hend.
  { destruct (Htag endTag m CallEnd endTag_anchored Hend ltac:(done) ltac:(done)
                (set_item m 1 (toLowerCase (item m 1))) eq_refl) as [He Hl].
    destruct (onTag html _ CallEnd) as [ev h']. simpl in *.
    split; [done|]. by intros ?? [= <-]. }
  destruct (String_match html comment) as [m|] eqn:Hcomment.
  { destruct (Htag comment m CallComment comment_anchored Hcomment
                ltac:(done) ltac:(done) m eq_refl) as [He Hl].
    destruct (onTag html _ CallComment) as [ev h']. simpl in *.
    split; [done|]. by intros ?? [= <-]. }
  destruct (String_match html other) as [m|] eqn:Hother.
  { destruct (Htag other m CallOther other_anchored Hother
                ltac:(done) ltac:(done) m eq_refl) as [He Hl].
    destruct (onTag html _ CallOther) as [ev h']. simpl in *.
    split; [done|]. by intros ?? [= <-]. }
  apply Hplain.
Qed.

(** X4: every call reports the text at the front of what was left of the
    input when it was made, and its last argument is exactly the rest: for
    the first call [html = span ++ remainder], for every later call the
    remainder of the call before is [span ++ remainder]. *)
Theorem remainders_exact (opts : options) (fuel : nat) (html : str)
    (st : store) :
  exact html (parse opts fuel html st).1.1.
Proof.
  assert (Hloop : forall fuel html last st,
    exact html (loop opts fuel html last st).1.1).
  { clear. induction fuel as [|fuel IH]; intros html last st; [by destruct html|].
    destruct html as [|d html']; [done|]. rewrite loop_S.
    assert (Hit : exact (d :: html') (iteration opts (d :: html') last st).1 /\
      forall html'' st', (iteration opts (d :: html') last st).2 = Continue html'' st' ->
        html'' = last_remainder (d :: html') (iteration opts (d :: html') last st).1).
    { unfold iteration. pose proof (dispatch_exact opts (d :: html') st) as Hd.
      destruct (bool_decide _); [|done]. destruct (error opts); [|by split].
      by destruct (dispatch opts (d :: html') st) as [evs fl]. }
    destruct (iteration opts (d :: html') last st) as [evs fl].
    destruct Hit as [He Hl]. simpl in He, Hl.
    destruct fl as [h1 s1|e s1|]; simpl; [|done..].
    specialize (Hl h1 s1 eq_refl) as ->.
    specialize (IH (last_remainder (d :: html') evs) (Some (d :: html')) s1).
    destruct (loop opts fuel _ _ s1) as [[evs' c] s2]. simpl in *.
    by apply exact_app. }
  destruct html as [|d html']; [done|]. apply Hloop.
Qed.

(** *** The number of calls *)

Lemma span_nonempty (e : event) :
  tag_in_brackets e -> text_well_formed e -> is_error_call e = false ->
  span e <> [].
Proof.
  destruct e as [tag ? ? ?|tag ? ?|text raw ?|tag ? ?|tag ? ?|err]; simpl;
    try (by intros [w ->] _ _); [by intros _ [? _] _|done].
Qed.

Lemma calls_le_spans (evs : list event) :
  Forall (fun e => is_error_call e = false -> span e <> []) evs ->
  length (filter (fun e => is_error_call e = false) evs) <= length (spans evs).
Proof.
  induction 1 as [|e evs He Hevs IH]; [done|].
  rewrite filter_cons, spans_cons, length_app. case_decide as Herr.
  - specialize (He Herr). destruct (span e); [done|]. simpl. lia.
  - lia.
Qed.

(** X5: apart from the error handler, the handlers are called at most
    once per character of the input: every such call reports at least one
    character, and no character is reported twice. *)
Theorem calls_bounded (opts : options) (fuel : nat) (html : str) (st : store) :
  length (filter (fun e => is_error_call e = false) (parse opts fuel html st).1.1)
  <= length html.
Proof.
  destruct (parse_trace opts fuel html st) as (_ & rem & Hcut & _).
  etrans; [apply calls_le_spans|].
  - apply parse_Forall; [|done]. intros h s _.
    pose proof (dispatch_tags opts h s) as Ht.
    pose proof (dispatch_texts opts h s) as Hx.
    induction (dispatch opts h s).1 as [|e evs IH]; [constructor|].
    inversion Ht; inversion Hx; subst.
    constructor; [by apply span_nonempty|by apply IH].
  - rewrite <- Hcut at 2. rewrite length_app. lia.
Qed.

(** *** Where the loop makes no progress *)

Lemma other_matches (html' : str) :
  GT ∈ html' -> is_Some (String_match (LT :: html') other).
Proof.
  intros (data & rest' & -> & Hdata)%list_elem_of_split_l.
  by rewrite other_exact.
Qed.

(** A decoder that matches makes [html] shorter. *)
Lemma decoder_shortens (R : RegExp) (html : str) (m : MatchResult) :
  anchored R -> String_match html R = Some m -> in_brackets (matched m) ->
  length (slice_from html (Z.of_nat (length (matched m)))) < length html.
Proof.
  intros HR Hm [w Hw]. pose proof (match_cut R html m HR Hm) as Hcut.
  apply (f_equal length) in Hcut. rewrite length_app, Hw in Hcut.
  rewrite Hw. simpl in *. lia.
Qed.

Lemma onText_length (html : str) (index : Z) (isRawText : bool) :
  length (onText html index isRawText).2 <= length html.
Proof.
  destruct (onText html index isRawText) as [evs h'] eqn:Ht.
  destruct (onText_cut _ _ _ _ _ Ht) as (_ & Hsuf & _). by apply suffix_length.
Qed.

Lemma dispatch_fixed_iff (opts : options) (d : char) (html' : str) (st : store) :
  (exists st', (dispatch opts (d :: html') st).2 = Continue (d :: html') st') <->
  d = LT /\ GT ∉ html'.
Proof.
  split.
  - intros [st' Hfl]. revert Hfl. unfold dispatch, plain_text.
    assert (Hlen : forall h s s', length h < length (d :: html') ->
      Continue h s = Continue (d :: html') s' -> d = LT /\ GT ∉ html').
    { intros h s s' Hh [= -> _]. lia. }
    case_bool_decide as Hhead.
    2:{ pose proof (onText_spec (d :: html') (indexOf (d :: html') LT) false) as Ht.
        simpl in Ht. destruct (onText _ _ _) as [evs h']. injection Ht as _ ->.
        apply Hlen.
        destruct (indexOf_spec (d :: html') LT) as [[-> _]|(n & -> & Hn & _ & Hat)];
          [simpl; lia|].
        destruct (Z.eqb_spec (Z.of_nat n) (-1)) as [?|_]; [lia|]. simpl negb.
        cbv iota. rewrite slice_from_nat, length_drop.
        destruct n as [|n]; [|simpl in *; lia].
        simpl in Hat. injection Hat as ->. by destruct Hhead. }
    injection Hhead as ->.
    destruct (String_match (LT :: html') startTag) as [m|] eqn:Hstart.
    { pose proof (decoder_shortens _ _ _ startTag_anchored Hstart) as Hshort.
      apply startTag_bracketed in Hstart as (w & rest' & _ & Hw).
      specialize (Hshort ltac:(by exists w)).
      destruct (onStartTag_spec (LT :: html') m st) as (attrs & st1 & ->).
      destruct (RegExp_test _ _ _) as [raw li]. cbv zeta.
      destruct raw; [|by apply Hlen].
      destruct (from_option _ _ _ _) as [e|ending]; [done|].
      destruct (rawEnd _ ending) as [index|]; [|done].
      pose proof (onText_length
        (slice_from (LT :: html') (Z.of_nat (length (matched m)))) index true) as Hle.
      destruct (onText _ index true) as [tevs h2]. apply Hlen. simpl in *. lia. }
    destruct (String_match (LT :: html') endTag) as [m|] eqn:Hend.
    { pose proof (decoder_shortens _ _ _ endTag_anchored Hend) as Hshort.
      apply endTag_bracketed in Hend as (w & rest' & _ & Hw).
      rewrite onTag_spec. apply Hlen. apply Hshort. by exists w. }
    destruct (String_match (LT :: html') comment) as [m|] eqn:Hcomment.
    { pose proof (decoder_shortens _ _ _ comment_anchored Hcomment) as Hshort.
      apply comment_bracketed in Hcomment as (w & rest' & _ & Hw).
      rewrite onTag_spec. apply Hlen. apply Hshort. by exists w. }
    destruct (String_match (LT :: html') other) as [m|] eqn:Hother.
    { pose proof (decoder_shortens _ _ _ other_anchored Hother) as Hshort.
      apply other_sound in Hother as (w & rest' & _ & Hw & _).
      rewrite onTag_spec. apply Hlen. apply Hshort. by exists w. }
    intros _. split; [done|]. intros Hgt.
    destruct (other_matches html' Hgt) as [m Hm]. congruence.
  - intros [-> Hgt]. exists st.
    assert (Hnone : forall R, (forall m, String_match (LT :: html') R = Some m ->
       exists w rest', LT :: html' = LT :: w ++ GT :: rest' /\ matched m = LT :: w ++ [GT]) ->
       String_match (LT :: html') R = None).
    { intros R HR. destruct (String_match (LT :: html') R) as [m|] eqn:Hm; [|done].
      destruct (HR m eq_refl) as (w & rest' & [= ->] & _).
      exfalso. apply Hgt. apply elem_of_app. right. by left. }
    unfold dispatch. rewrite bool_decide_eq_true_2 by done.
    rewrite (Hnone startTag), (Hnone endTag), (Hnone comment), (Hnone other).
    + done.
    + intros m (w & rest' & ? & ? & _)%other_sound. eauto.
    + apply comment_bracketed.
    + apply endTag_bracketed.
    + apply startTag_bracketed.
Qed.

(** X6: a run of the loop body leaves [html] as it is exactly when [html]
    begins with a [<] and has no [>] behind it, and then it calls no
    handler.  These are the only inputs on which the loop finds no
    progress. *)
Theorem no_progress_iff (opts : options) (d : char) (html' : str) (st : store) :
  ((exists st', (dispatch opts (d :: html') st).2 = Continue (d :: html') st') <->
   stuck (d :: html')) /\
  (stuck (d :: html') ->
   dispatch opts (d :: html') st = ([], Continue (d :: html') st)).
Proof.
  assert (Hstuck : stuck (d :: html') <-> d = LT /\ GT ∉ html').
  { split; [by intros (h & [= -> ->] & Hgt)|intros [-> Hgt]; by exists html']. }
  split; [by rewrite Hstuck; apply dispatch_fixed_iff|].
  intros [-> Hgt]%Hstuck.
  pose proof (proj2 (dispatch_fixed_iff opts LT html' st) (conj eq_refl Hgt))
    as [st' Hfl].
  pose proof (dispatch_consumes opts (LT :: html') st) as (_ & rem & Hcut & _ & Hc).
  specialize (Hc _ _ Hfl). subst rem.
  assert (Hnil : spans (dispatch opts (LT :: html') st).1 = []).
  { apply (f_equal length) in Hcut. rewrite length_app in Hcut.
    destruct (spans _); [done|]. simpl in Hcut. lia. }
  apply dispatch_stall.
  - destruct (String_match _ startTag) as [m|] eqn:Hm; [|done].
    apply startTag_bracketed in Hm as (w & rest' & [= ->] & _).
    exfalso. apply Hgt, elem_of_app. right. by left.
  - destruct (String_match _ endTag) as [m|] eqn:Hm; [|done].
    apply endTag_bracketed in Hm as (w & rest' & [= ->] & _).
    exfalso. apply Hgt, elem_of_app. right. by left.
  - destruct (String_match _ comment) as [m|] eqn:Hm; [|done].
    apply comment_bracketed in Hm as (w & rest' & [= ->] & _).
    exfalso. apply Hgt, elem_of_app. right. by left.
  - destruct (String_match _ other) as [m|] eqn:Hm; [|done].
    apply other_sound in Hm as (w & rest' & [= ->] & _).
    exfalso. apply Hgt, elem_of_app. right. by left.
Qed.

(** *** The check for progress *)

(** Where no pattern can match, the body of the loop does nothing,
    whatever the store. *)
Lemma dispatch_stuck (opts : options) (html : str) (st : store) :
  stuck html -> dispatch opts html st = ([], Continue html st).
Proof.
  intros (html' & -> & Hgt). apply dispatch_stall.
  - destruct (String_match _ startTag) as [m|] eqn:Hm; [|done].
    apply startTag_bracketed in Hm as (w & rest' & [= ->] & _).
    exfalso. apply Hgt, elem_of_app. right. by left.
  - destruct (String_match _ endTag) as [m|] eqn:Hm; [|done].
    apply endTag_bracketed in Hm as (w & rest' & [= ->] & _).
    exfalso. apply Hgt, elem_of_app. right. by left.
  - destruct (String_match _ comment) as [m|] eqn:Hm; [|done].
    apply comment_bracketed in Hm as (w & rest' & [= ->] & _).
    exfalso. apply Hgt, elem_of_app. right. by left.
  - destruct (String_match _ other) as [m|] eqn:Hm; [|done].
    apply other_sound in Hm as (w & rest' & [= ->] & _).
    exfalso. apply Hgt, elem_of_app. right. by left.
Qed.

(** An iteration that goes on does so with the remainder of its last call,
    which is where its decoders have left [html]; it never hangs. *)
Lemma iteration_flow (opts : options) (html : str) (last : option str)
    (st : store) (evs : list event) (fl : flow) :
  iteration opts html last st = (evs, fl) ->
  fl <> Hang /\
  forall h1 s1, fl = Continue h1 s1 ->
    h1 = last_remainder html evs /\ (dispatch opts html st).2 = Continue h1 s1.
Proof.
  unfold iteration.
  pose proof (dispatch_exact opts html st) as [_ Hl].
  pose proof (dispatch_no_hang opts html st) as Hh.
  destruct (bool_decide _).
  - destruct (error opts).
    + destruct (dispatch opts html st) as [devs dfl]. simpl in *.
      intros [= <- <-]. split; [done|]. intros h1 s1 ->.
      split; [by apply (Hl h1 s1)|done].
    + intros [= <- <-]. split; [done|]. by intros h1 s1.
  - destruct (dispatch opts html st) as [devs dfl]. simpl in *.
    intros [= <- <-]. split; [done|]. intros h1 s1 ->.
    split; [by apply (Hl h1 s1)|done].
Qed.

(** The loop after [n] and after [n + 1] iterations, still running and with
    the same input left: the next iteration finds [html === last]. *)
Lemma loop_stall_step (opts : options) (n : nat) (html : str)
    (last : option str) (st : store) (evs1 evs2 : list event)
    (st1 st2 : store) :
  loop opts n html last st = (evs1, Running, st1) ->
  loop opts (S n) html last st = (evs2, Running, st2) ->
  last_remainder html evs2 = last_remainder html evs1 ->
  forall k,
    loop opts (S (S n) + k) html last st =
      if error opts
      then (evs2 ++ replicate (S k)
                      (CallError (parse_error (last_remainder html evs1))),
            Running, st2)
      else (evs2, Threw (parse_error (last_remainder html evs1)), st2).
Proof.
  revert html last st evs1 evs2 st1 st2.
  induction n as [|n IH]; intros html last st evs1 evs2 st1 st2 H1 H2 Hrem k.
  - destruct html as [|d html']; [done|].
    simpl in H1. injection H1 as <- <-. simpl in Hrem.
    rewrite loop_S in H2. cbn [Nat.add]. rewrite loop_S.
    destruct (iteration opts (d :: html') last st) as [ievs fl] eqn:Hit.
    apply iteration_flow in Hit as [Hhang Hcont].
    destruct fl as [h1 s1|e s1|]; [|done..].
    destruct (Hcont h1 s1 eq_refl) as [Hh1 Hd].
    destruct h1 as [|c h1']; [done|].
    simpl in H2. injection H2 as <- <-.
    rewrite app_nil_r in Hrem |- *. rewrite Hrem in Hh1.
    injection Hh1 as -> ->.
    assert (Hstuck : stuck (d :: html')).
    { destruct (proj1 (dispatch_fixed_iff opts d html' st)) as [-> Hgt];
        [eauto|by exists html']. }
    pose proof (dispatch_stuck opts _ s1 Hstuck) as Hs.
    pose proof Hstuck as (h & [= -> ->] & _).
    rewrite loop_S. unfold iteration.
    rewrite bool_decide_eq_true_2 by done.
    destruct (error opts) eqn:Herr.
    + rewrite Hs. by rewrite (loop_stalled_forever opts h k s1 Herr Hs).
    + by rewrite app_nil_r.
  - destruct html as [|d html']; [done|].
    rewrite loop_S in H1. rewrite loop_S in H2.
    change (S (S (S n)) + k) with (S (S (S n) + k)). rewrite loop_S.
    destruct (iteration opts (d :: html') last st) as [ievs fl] eqn:Hit.
    apply iteration_flow in Hit as [Hhang Hcont].
    destruct fl as [h1 s1|e s1|]; [|done..].
    destruct (Hcont h1 s1 eq_refl) as [Hh1 _].
    destruct (loop opts n h1 (Some (d :: html')) s1) as [[e1 c1] t1] eqn:E1.
    destruct (loop opts (S n) h1 (Some (d :: html')) s1) as [[e2 c2] t2] eqn:E2.
    injection H1 as <- -> ->. injection H2 as <- -> ->.
    rewrite !last_remainder_app, <- Hh1 in Hrem.
    rewrite (IH h1 (Some (d :: html')) s1 e1 e2 st1 st2 E1 E2 Hrem k).
    rewrite last_remainder_app, <- Hh1.
    destruct (error opts); [|done]. by rewrite app_assoc.
Qed.

(** C5: take a run of [parse] that is still in its loop after [n] and
    after [n + 1] iterations, with the same input left both times (the
    remainder passed by the last call): iteration [n + 1] has made no
    progress.  Then iteration [n + 2] builds the error
    'HTML parse error: ' + html for the input that is left.  With an error
    handler the handler is called with it and the loop goes on (and, as
    nothing changes, the same happens in every later iteration); without
    one the error is raised, the call ends with it, and no handler is
    called any more, however many iterations are allowed. *)
Theorem stalled_iteration (opts : options) (n : nat) (html : str)
    (st : store) (evs1 evs2 : list event) (st1 st2 : store) :
  parse opts n html st = (evs1, Running, st1) ->
  parse opts (S n) html st = (evs2, Running, st2) ->
  last_remainder html evs2 = last_remainder html evs1 ->
  let err := Error (js "HTML parse error: " ++ last_remainder html evs1) in
  forall k,
    parse opts (S (S n) + k) html st =
      if error opts
      then (evs2 ++ replicate (S k) (CallError err), Running, st2)
      else (evs2, Threw err, st2).
Proof.
  intros H1 H2 Hrem err k. destruct html as [|d html']; [done|].
  apply (loop_stall_step opts n (d :: html') None st evs1 evs2 st1 st2 H1 H2 Hrem).
Qed.

(** *** The errors [parse] raises *)

Lemma dispatch_raise (opts : options) (html : str) (st st' : store)
    (e : jserror) :
  (dispatch opts html st).2 = Raise e st' ->
  matchEnd opts = None /\ exists tagName, matchEndDefault tagName = inl e.
Proof.
  unfold dispatch, plain_text.
  destruct (bool_decide _); [|by destruct (onText _ _ _)].
  destruct (String_match html startTag) as [m|].
  { destruct (onStartTag html m st) as [[ev h1] s1].
    destruct (RegExp_test _ _ _) as [raw li]. cbv zeta.
    destruct raw; [|done].
    destruct (matchEnd opts) as [f|]; simpl.
    - destruct (rawEnd h1 _) as [index|]; [|done]. by destruct (onText _ _ _).
    - destruct (matchEndDefault (item m 1)) as [e'|ending] eqn:He.
      + intros [= -> _]. eauto.
      + destruct (rawEnd h1 _) as [index|]; [|done]. by destruct (onText _ _ _). }
  destruct (String_match html endTag) as [m|]; [done|].
  destruct (String_match html comment) as [m|]; [done|].
  destruct (String_match html other) as [m|]; [done|].
  by destruct (onText _ _ _).
Qed.

Lemma loop_raises (opts : options) (fuel : nat) (html : str)
    (last : option str) (st st' : store) (evs : list event) (e : jserror) :
  (last = Some html -> stuck html) ->
  loop opts fuel html last st = (evs, Threw e, st') ->
  (error opts = false /\
   exists rem, e = parse_error rem /\ spans evs ++ rem = html /\ stuck rem) \/
  (matchEnd opts = None /\ exists tagName, matchEndDefault tagName = inl e).
Proof.
  revert html last st evs. induction fuel as [|fuel IH];
    intros html last st evs Hlast; [by destruct html|].
  destruct html as [|d html']; [done|]. rewrite loop_S. unfold iteration.
  pose proof (dispatch_consumes opts (d :: html') st) as (_ & rem & Hcut & _ & Hc).
  assert (Hnext : forall h1 s1, (dispatch opts (d :: html') st).2 = Continue h1 s1 ->
    Some (d :: html') = Some h1 -> stuck h1).
  { intros h1 s1 Hfl [= <-]. exists html'.
    destruct (proj1 (dispatch_fixed_iff opts d html' st)) as [-> Hgt]; [eauto|done]. }
  pose proof (dispatch_raise opts (d :: html') st) as Hraise.
  case_bool_decide as Hstall.
  - destruct (error opts) eqn:Herr.
    + destruct (dispatch opts (d :: html') st) as [devs fl]. simpl in *.
      destruct fl as [h1 s1|e1 s1|]; [| |done].
      * specialize (Hc _ _ eq_refl) as ->.
        specialize (IH rem (Some (d :: html')) s1).
        destruct (loop opts fuel rem _ s1) as [[evs' c] s2].
        intros [= <- -> <-].
        destruct (IH evs' (Hnext _ _ eq_refl) eq_refl)
          as [(Hf & _)|Hr]; [done|by right].
      * intros [= <- <- <-]. right. by eapply Hraise.
    + intros [= <- <- <-]. left. split; [done|]. exists (d :: html').
      split; [done|]. split; [done|]. apply Hlast. done.
  - destruct (dispatch opts (d :: html') st) as [devs fl]. simpl in *.
    destruct fl as [h1 s1|e1 s1|]; [| |done].
    + specialize (Hc _ _ eq_refl) as ->.
      specialize (IH rem (Some (d :: html')) s1).
      destruct (loop opts fuel rem _ s1) as [[evs' c] s2].
      intros [= <- -> <-].
      destruct (IH evs' (Hnext _ _ eq_refl) eq_refl)
        as [(Hf & rem' & -> & Hcut' & Hst)|Hr]; [left|by right].
      split; [done|]. exists rem'. split; [done|]. split; [|done].
      by rewrite spans_app, <- app_assoc, Hcut'.
    + intros [= <- <- <-]. right. by eapply Hraise.
Qed.

(** X7: when [parse] raises, the error is either the one of a loop without
    progress, and then (no error handler being given) its message is
    'HTML parse error: ' followed by exactly the part of the input that no
    call has reported, which begins with a [<] and has no [>]; or it is the
    error of the RegExp constructor in [matchEndDefault]. *)
Theorem raised_errors (opts : options) (fuel : nat) (html : str)
    (st st' : store) (evs : list event) (e : jserror) :
  parse opts fuel html st = (evs, Threw e, st') ->
  (error opts = false /\
   exists rem, e = Error (js "HTML parse error: " ++ rem) /\
     spans evs ++ rem = html /\ stuck rem) \/
  (matchEnd opts = None /\ exists tagName, matchEndDefault tagName = inl e).
Proof.
  destruct html as [|d html']; [done|]. simpl. by apply loop_raises.
Qed.

(** *** Where raw text ends *)

Lemma String_search_upper (s : str) (R : RegExp) :
  (String_search s R <= Z.of_nat (length s))%Z.
Proof.
  unfold String_search.
  destruct (RegExpBuiltinExec R 0 s).1 as [m|] eqn:Hm; [|lia].
  change (String_match s R = Some m) in Hm.
  apply match_sound in Hm as (k & y & _ & _ & _ & _ & _ & Hk). lia.
Qed.

(** A comment found by [commentInside] ends with [-->]. *)
Lemma commentInside_end (html : str) (cm : MatchResult) :
  String_match html commentInside = Some cm ->
  js "-->" `suffix_of` matched cm.
Proof.
  intros (k & y & Hy & He & _ & Hmat & _ & _)%match_sound. rewrite Hmat.
  simpl in Hy. remember (drop (m_index cm) html) as s eqn:Hs. clear Hs Hmat.
  apply matches_Seq_inv in Hy as (x1 & (r1 & Hr1 & ->)%Chr_exact & Hy).
  apply matches_Seq_inv in Hy as (x2 & (r2 & Hr2 & ->)%Chr_exact & Hy).
  apply matches_Seq_inv in Hy as (x3 & (r3 & Hr3 & ->)%Chr_exact & Hy).
  apply matches_Seq_inv in Hy as (x4 & (r4 & Hr4 & ->)%Chr_exact & Hy).
  apply matches_Seq_inv in Hy as (x5 & Hw & Hy).
  apply matches_rep_class in Hw as (w & Hw & Hi & _).
  apply matches_Seq_inv in Hy as (x6 & (r6 & Hr6 & ->)%Chr_exact & Hy).
  apply matches_Seq_inv in Hy as (x7 & (r7 & Hr7 & ->)%Chr_exact & Hy).
  apply matches_Seq_inv in Hy as (x8 & (r8 & Hr8 & ->)%Chr_exact
                                     & ->%matches_Empty_inv).
  simpl in *. subst. rewrite Hi in He.
  assert (k = length (js "<!--" ++ w ++ js "-->")) as ->.
  { rewrite length_app, length_app. simpl. lia. }
  rewrite Hr6.
  replace (LT :: BANG :: DASH :: DASH :: w ++ DASH :: DASH :: GT :: r8)
    with ((js "<!--" ++ w ++ js "-->") ++ r8).
  2:{ by rewrite <- !app_assoc. }
  rewrite take_app_length' by done. exists (js "<!--" ++ w). by rewrite <- app_assoc.
Qed.

Lemma rawEnd_rec_spec (fuel : nat) (html : str) (ending : RegExp)
    (offset z : Z) :
  rawEnd_rec fuel html ending offset = Some z ->
  exists k, k <= length html /\
    z = (String_search (drop k html) ending + offset + Z.of_nat k)%Z /\
    (k = 0 \/ js "-->" `suffix_of` take k html) /\
    (forall cm, String_match (drop k html) commentInside = Some cm ->
       (String_search (drop k html) ending <= Z.of_nat (m_index cm))%Z).
Proof.
  revert html offset. induction fuel as [|fuel IH]; intros html offset; [done|].
  simpl.
  destruct (String_match html commentInside) as [cm|] eqn:Hcm.
  2:{ intros [= <-]. exists 0. rewrite drop_0, Hcm.
      split; [lia|]. split; [lia|]. split; [by left|done]. }
  destruct (Z.ltb_spec (Z.of_nat (m_index cm)) (String_search html ending))
    as [Hlt|Hge].
  2:{ intros [= <-]. exists 0. rewrite drop_0, Hcm.
      split; [lia|]. split; [lia|]. split; [by left|]. by intros ? [= <-]. }
  pose proof (commentInside_nonempty _ _ Hcm) as [Hne Hle].
  pose proof (commentInside_end _ _ Hcm) as Hend.
  apply match_sound in Hcm as (k0 & _ & _ & _ & _ & Hmat & Hlen & _).
  rewrite <- Nat2Z.inj_add, slice_from_nat.
  set (ce := m_index cm + length (matched cm)) in *.
  intros (k & Hk & -> & Hsuf & Hcom)%IH.
  rewrite length_drop in Hk. rewrite drop_drop in Hcom |- *.
  exists (ce + k). split; [lia|]. split; [lia|]. split; [right|done].
  rewrite <- take_take_drop.
  destruct Hsuf as [->|Hsuf]; [|by apply suffix_app_r].
  rewrite take_0, app_nil_r. unfold ce. rewrite <- take_take_drop.
  apply suffix_app_r. by rewrite Hlen, <- Hmat.
Qed.

(** X8: [rawEnd] returns, for every input and every end pattern.  What it
    returns is the place of the first occurrence of the end pattern in the
    part of [html] behind the [k] characters it has skipped, counted from
    the start of [html]; the skipped part is empty or ends with a comment,
    and no comment begins in the rest before that occurrence.  The result
    lies between -1 and the length of [html]. *)
Theorem rawEnd_position (html : str) (ending : RegExp) :
  exists z k, rawEnd html ending = Some z /\
    k <= length html /\
    z = (String_search (drop k html) ending + Z.of_nat k)%Z /\
    (k = 0 \/ js "-->" `suffix_of` take k html) /\
    (forall cm, String_match (drop k html) commentInside = Some cm ->
       (String_search (drop k html) ending <= Z.of_nat (m_index cm))%Z) /\
    (-1 <= z <= Z.of_nat (length html))%Z.
Proof.
  destruct (rawEnd_total html ending) as [z Hz]. exists z.
  pose proof Hz as (k & Hk & -> & Hsuf & Hcom)%rawEnd_rec_spec.
  exists k. split; [done|]. split; [done|]. split; [lia|].
  split; [done|]. split; [done|].
  pose proof (String_search_range (drop k html) ending).
  pose proof (String_search_upper (drop k html) ending) as Hup.
  rewrite length_drop in Hup. lia.
Qed.


(** *** What each pattern matches *)

Lemma first_occurrence_exists (pat s : str) :
  (exists pre suf, s = pre ++ pat ++ suf) -> exists pre, first_occurrence pat s pre.
Proof.
  induction s as [|c s IH]; intros (pre & suf & Hs).
  - exists []. split; [|simpl; lia].
    symmetry in Hs. apply app_eq_nil in Hs as [-> Hs]. by exists suf.
  - destruct (decide (pat `prefix_of` c :: s)) as [[suf' Hp]|Hnp].
    { exists []. split; [by exists suf'|simpl; lia]. }
    destruct pre as [|c' pre].
    { exfalso. apply Hnp. by exists suf. }
    injection Hs as <- Hs.
    destruct IH as (pre1 & (suf1 & Hs1) & Hmin); [by exists pre, suf|].
    exists (c :: pre1). split; [exists suf1; by rewrite Hs1|].
    intros [|c' pre'] suf' Hs'.
    { exfalso. apply Hnp. by exists suf'. }
    injection Hs' as <- Hs'. simpl. apply Hmin in Hs'. lia.
Qed.

(** [other] matches exactly a [<] up to the first [>]. *)
Lemma other_first (html : str) (m : MatchResult) :
  String_match html other = Some m ->
  exists data rest', html = LT :: data ++ GT :: rest' /\ (GT ∉ data) /\
    m = mkMatch 0 (LT :: data ++ [GT]) {[ 1 := data ]}.
Proof.
  intros Hm. pose proof Hm as (data0 & rest0 & -> & _)%other_sound.
  destruct (list_elem_of_split_l (data0 ++ GT :: rest0) GT)
    as (data & rest' & Heq & Hdata).
  { apply elem_of_app. right. by left. }
  rewrite Heq in Hm |- *. rewrite other_exact in Hm by done.
  injection Hm as <-. by exists data, rest'.
Qed.

(** X9: the pattern [other] matches exactly the inputs that begin with a
    [<] and have a [>] behind it; the match ends at the first [>], and
    group 1 is the text between the two. *)
Theorem other_decoded (html : str) (m : MatchResult) :
  String_match html other = Some m <->
  exists data rest', html = LT :: data ++ GT :: rest' /\ (GT ∉ data) /\
    m = mkMatch 0 (LT :: data ++ [GT]) {[ 1 := data ]}.
Proof.
  split; [apply other_first|].
  intros (data & rest' & -> & Hdata & ->). by apply other_exact.
Qed.

(** The pattern [comment] matches [<!--] up to the first [-->]. *)
Lemma comment_exact (data rest' : str) :
  first_occurrence (js "-->") (data ++ js "-->" ++ rest') data ->
  String_match (js "<!--" ++ data ++ js "-->" ++ rest') comment =
    Some (mkMatch 0 (js "<!--" ++ data ++ js "-->") {[ 1 := data ]}).
Proof.
  intros [_ Hmin]. rewrite match_at_0 by apply comment_anchored.
  set (res := Some (mkMatch 0 (js "<!--" ++ data ++ js "-->") {[ 1 := data ]})).
  change (js "<!--" ++ data ++ js "-->" ++ rest')
    with (LT :: BANG :: DASH :: DASH :: data ++ DASH :: DASH :: GT :: rest').
  cbn -[N.eqb RepeatMatcher any GT LT DASH BANG].
  unfold one_char at 1, advance at 2. cbn -[N.eqb RepeatMatcher any GT LT DASH BANG].
  rewrite !N.eqb_refl.
  erewrite (lazy_any_until _
              (MState rest' (4 + length data + 3) {[ 1 := data ]})
              data (DASH :: DASH :: GT :: rest') 4 ∅).
  - cbn [endIndex captures]. unfold res. f_equal. f_equal.
    change (LT :: BANG :: DASH :: DASH :: data ++ DASH :: DASH :: GT :: rest')
      with (js "<!--" ++ data ++ js "-->" ++ rest').
    rewrite !app_assoc. apply take_app_length'.
    rewrite !length_app. simpl. lia.
  - rewrite length_app. simpl. lia.
  - intros pre d suf ->. cbn -[N.eqb GT DASH].
    destruct (N.eqb_spec DASH d) as [<-|]; [|done].
    destruct (suf ++ DASH :: DASH :: GT :: rest') as [|d2 [|d3 l]] eqn:Hl;
      cbn -[N.eqb GT DASH]; [done|by destruct (N.eqb DASH d2)|].
    destruct (N.eqb_spec DASH d2) as [<-|]; [|done]. cbn -[N.eqb GT DASH].
    destruct (N.eqb_spec GT d3) as [<-|]; [|done].
    exfalso. specialize (Hmin pre l).
    rewrite length_app in Hmin. simpl in Hmin.
    enough (length pre + S (length suf) <= length pre) by lia.
    apply Hmin. rewrite <- app_assoc. f_equal. simpl. f_equal. exact Hl.
  - cbn -[N.eqb GT DASH]. rewrite !N.eqb_refl. unfold advance.
    cbn -[GT DASH]. rewrite Nat.sub_0_r, take_app_length.
    do 2 f_equal. lia.
Qed.

Lemma comment_text (html : str) (m : MatchResult) :
  String_match html comment = Some m ->
  exists data rest', html = js "<!--" ++ data ++ js "-->" ++ rest'.
Proof.
  intros (y & Hy & _)%match_anchored_sound; [|apply comment_anchored].
  simpl in Hy.
  apply matches_Seq_inv in Hy as (y0 & [-> _]%matches_Bol_inv & Hy).
  apply matches_Seq_inv in Hy as (x1 & (r1 & Hr1 & ->)%Chr_exact & Hy).
  apply matches_Seq_inv in Hy as (x2 & (r2 & Hr2 & ->)%Chr_exact & Hy).
  apply matches_Seq_inv in Hy as (x3 & (r3 & Hr3 & ->)%Chr_exact & Hy).
  apply matches_Seq_inv in Hy as (x4 & (r4 & Hr4 & ->)%Chr_exact & Hy).
  apply matches_Seq_inv in Hy as (x5 & Hg & Hy).
  apply matches_Group_inv in Hg as (y' & Hg & ->).
  apply matches_rep_class in Hg as (w & Hw & _).
  apply matches_Seq_inv in Hy as (x6 & (r6 & Hr6 & ->)%Chr_exact & Hy).
  apply matches_Seq_inv in Hy as (x7 & (r7 & Hr7 & ->)%Chr_exact & Hy).
  apply matches_Seq_inv in Hy as (x8 & (r8 & Hr8 & ->)%Chr_exact
                                     & ->%matches_Empty_inv).
  simpl in *. subst. exists w, r8. by rewrite Hr6.
Qed.

(** X10: the pattern [comment] matches exactly the inputs that begin with
    [<!--] and have a [-->] behind it; the match ends with the first
    [-->], and group 1 is the text between the two. *)
Theorem comment_decoded (html : str) (m : MatchResult) :
  String_match html comment = Some m <->
  exists data rest',
    html = js "<!--" ++ data ++ js "-->" ++ rest' /\
    first_occurrence (js "-->") (data ++ js "-->" ++ rest') data /\
    m = mkMatch 0 (js "<!--" ++ data ++ js "-->") {[ 1 := data ]}.
Proof.
  split.
  - intros Hm. pose proof Hm as (data0 & rest0 & ->)%comment_text.
    destruct (first_occurrence_exists (js "-->") (data0 ++ js "-->" ++ rest0))
      as (data & Hfirst); [by exists data0, rest0|].
    pose proof Hfirst as [[rest' Heq] _].
    rewrite Heq in Hm, Hfirst |- *. rewrite comment_exact in Hm by done.
    injection Hm as <-. by exists data, rest'.
  - intros (data & rest' & -> & Hfirst & ->). by apply comment_exact.
Qed.




(** A greedy quantified character class takes the whole run of characters
    of the class when its continuation accepts what follows the run. *)
Lemma greedy_class_run (invert : bool) (atoms : list atom)
    (c : mstate -> option mstate) (z : mstate) (w tail : str) (i : nat)
    (caps : gmap nat str) (fuel min : nat) :
  length w < fuel ->
  Forall (fun d => xorb invert (class_has false atoms d) = true) w ->
  (forall d tail', tail = d :: tail' ->
     xorb invert (class_has false atoms d) = false) ->
  min <= length w ->
  c (MState tail (i + length w) caps) = Some z ->
  RepeatMatcher (matcher false (Class invert atoms)) [] true c fuel min None
    (MState (w ++ tail) i caps) = Some z.
Proof.
  revert i fuel min. induction w as [|d w IH];
    intros i fuel min Hfuel Hw Htail Hmin Hz;
    (destruct fuel as [|fuel]; [simpl in Hfuel; lia|]).
  - simpl in Hmin. assert (min = 0) as -> by lia.
    simpl in Hz. rewrite Nat.add_0_r in Hz.
    cbn -[class_has]. unfold one_char. cbn -[class_has].
    destruct tail as [|d tail']; [done|].
    by rewrite (Htail d tail' eq_refl).
  - apply Forall_cons in Hw as [Hd Hw].
    assert (Hrec : RepeatMatcher (matcher false (Class invert atoms)) [] true c
                     fuel (Nat.pred min) None (MState (w ++ tail) (S i) caps)
                   = Some z).
    { apply IH; [simpl in Hfuel; lia|done|done|simpl in Hmin; lia|].
      simpl in Hz. by rewrite Nat.add_succ_r in Hz. }
    cbn -[class_has]. unfold one_char. cbn -[class_has]. rewrite Hd.
    replace (match i with 0 => false | S m' => Nat.eqb i m' end) with false.
    2:{ symmetry. destruct i; [done|]. apply Nat.eqb_neq. lia. }
    rewrite andb_false_r. unfold advance. cbn -[class_has].
    match goal with
    | |- context [RepeatMatcher ?m _ _ _ _ _ _ _] =>
        change m with (matcher false (Class invert atoms))
    end.
    rewrite Hrec.
    by destruct (negb (Nat.eqb min 0)).
Qed.

Lemma name_char_class (d : char) :
  xorb true (class_has false
               [ASpace; AChar EQUALS; AChar SLASH; AChar BANG; AChar GT] d)
  = is_name_char d.
Proof.
  unfold is_name_char. cbn -[N.eqb is_space EQUALS SLASH BANG GT].
  by rewrite orb_false_r, !orb_assoc.
Qed.

Lemma not_gt_class (d : char) :
  xorb true (class_has false [AChar GT] d) = negb (N.eqb GT d).
Proof. cbn -[N.eqb GT]. by rewrite orb_false_r. Qed.

(** The matcher, one construct at a time. *)
Lemma matcher_Seq_eq (ic : bool) (r1 r2 : regex) (x : mstate)
    (c : mstate -> option mstate) :
  matcher ic (Seq r1 r2) x c = matcher ic r1 x (fun y => matcher ic r2 y c).
Proof. done. Qed.

Lemma matcher_Bol_eq (ic : bool) (s : str) (caps : gmap nat str)
    (c : mstate -> option mstate) :
  matcher ic Bol (MState s 0 caps) c = c (MState s 0 caps).
Proof. done. Qed.

Lemma matcher_Chr_eq (a : char) (s : str) (i : nat) (caps : gmap nat str)
    (c : mstate -> option mstate) :
  matcher false (Chr a) (MState (a :: s) i caps) c = c (MState s (S i) caps).
Proof.
  cbn -[N.eqb]. unfold one_char. cbn -[N.eqb]. by rewrite N.eqb_refl.
Qed.

Lemma matcher_Group_eq (ic : bool) (n : nat) (r : regex) (x : mstate)
    (c : mstate -> option mstate) :
  matcher ic (Group n r) x c =
  matcher ic r x (fun y =>
    c (MState (rest y) (endIndex y)
         (<[n := take (endIndex y - endIndex x) (rest x)]> (captures y)))).
Proof. done. Qed.

Lemma matcher_greedy_class (invert : bool) (atoms : list atom) (min : nat)
    (c : mstate -> option mstate) (z : mstate) (w tail : str) (i : nat)
    (caps : gmap nat str) :
  Forall (fun d => xorb invert (class_has false atoms d) = true) w ->
  (forall d tail', tail = d :: tail' ->
     xorb invert (class_has false atoms d) = false) ->
  min <= length w ->
  c (MState tail (i + length w) caps) = Some z ->
  matcher false (Rep min None true (Class invert atoms))
    (MState (w ++ tail) i caps) c = Some z.
Proof.
  intros Hw Htail Hmin Hz.
  refine (greedy_class_run invert atoms c z w tail i caps
            (S (min + length (w ++ tail))) min _ Hw Htail Hmin Hz).
  rewrite length_app. lia.
Qed.

(** The pattern [endTag] takes the longest tag name and then everything up
    to the first [>]. *)
Lemma endTag_exact (name junk rest' : str) :
  name <> [] -> Forall (fun d => is_name_char d = true) name ->
  GT ∉ junk ->
  (forall d junk', junk = d :: junk' -> is_name_char d = false) ->
  String_match (js "</" ++ name ++ junk ++ GT :: rest') endTag =
    Some (mkMatch 0 (js "</" ++ name ++ junk ++ [GT]) {[ 1 := name ]}).
Proof.
  intros Hne Hname Hjunk Hhead. rewrite match_at_0 by apply endTag_anchored.
  assert (Hrun :
    matcher false (source endTag)
      (MState (js "</" ++ name ++ junk ++ GT :: rest') 0 ∅) Some
    = Some (MState rest' (S (2 + length name + length junk)) {[ 1 := name ]})).
  { change (js "</" ++ name ++ junk ++ GT :: rest')
      with (LT :: SLASH :: name ++ junk ++ GT :: rest').
    unfold endTag. cbn [source]. unfold cat, plus, star, name_char, none_of.
    cbn [foldr].
    rewrite matcher_Seq_eq, matcher_Bol_eq.
    rewrite matcher_Seq_eq, matcher_Chr_eq.
    rewrite matcher_Seq_eq, matcher_Chr_eq.
    rewrite matcher_Seq_eq, matcher_Group_eq.
    apply matcher_greedy_class.
    - eapply Forall_impl; [exact Hname|]. intros d Hd. by rewrite name_char_class.
    - intros d tail' Htail. rewrite name_char_class.
      destruct junk as [|d' junk']; [by injection Htail as <- _|].
      injection Htail as <- _. by eapply Hhead.
    - destruct name; [done|simpl; lia].
    - cbn [rest endIndex captures].
      rewrite matcher_Seq_eq. apply matcher_greedy_class.
      + apply Forall_forall. intros d Hd. rewrite not_gt_class.
        destruct (N.eqb_spec GT d) as [<-|]; done.
      + intros d tail' [= <- _]. rewrite not_gt_class. by rewrite N.eqb_refl.
      + lia.
      + rewrite matcher_Seq_eq, matcher_Chr_eq. cbn [matcher].
        replace (2 + length name - 2) with (length name) by lia.
        rewrite take_app_length, insert_empty.
        do 2 f_equal; lia. }
  change (ignoreCase endTag) with false.
  rewrite Hrun. cbn [endIndex captures]. do 2 f_equal.
  replace (js "</" ++ name ++ junk ++ GT :: rest')
    with ((js "</" ++ name ++ junk ++ [GT]) ++ rest').
  2:{ by rewrite <- !app_assoc. }
  apply take_app_length'. rewrite !length_app. simpl. lia.
Qed.

Lemma name_run (s : str) :
  exists a b, s = a ++ b /\ Forall (fun d => is_name_char d = true) a /\
    forall d b', b = d :: b' -> is_name_char d = false.
Proof.
  induction s as [|c s (a & b & -> & Ha & Hb)]; [by exists [], []|].
  destruct (is_name_char c) eqn:Hc.
  - exists (c :: a), b. split; [done|]. split; [by constructor|done].
  - exists [], (c :: a ++ b). split; [done|]. split; [done|].
    by intros d b' [= <- _].
Qed.

Lemma endTag_text (html : str) (m : MatchResult) :
  String_match html endTag = Some m ->
  exists name junk rest',
    html = js "</" ++ name ++ junk ++ GT :: rest' /\ name <> [] /\
    Forall (fun d => is_name_char d = true) name /\ GT ∉ junk.
Proof.
  intros (y & Hy & _)%match_anchored_sound; [|apply endTag_anchored].
  simpl in Hy.
  apply matches_Seq_inv in Hy as (y0 & [-> _]%matches_Bol_inv & Hy).
  apply matches_Seq_inv in Hy as (x1 & (r1 & Hr1 & ->)%Chr_exact & Hy).
  apply matches_Seq_inv in Hy as (x2 & (r2 & Hr2 & ->)%Chr_exact & Hy).
  apply matches_Seq_inv in Hy as (x3 & Hg & Hy).
  apply matches_Group_inv in Hg as (y' & Hg & ->).
  apply matches_rep_class in Hg as (name & Hname & _ & _ & Hall & Hmin).
  apply matches_Seq_inv in Hy as (x4 & Hj & Hy).
  apply matches_rep_class in Hj as (junk & Hjunk & _ & _ & Hallj & _).
  apply matches_Seq_inv in Hy as (x5 & (r5 & Hr5 & ->)%Chr_exact
                                     & ->%matches_Empty_inv).
  unfold advance in *. cbn [rest endIndex captures] in *. subst.
  exists name, junk, r5.
  split; [by rewrite Hjunk, Hr5|].
  split; [specialize (Hmin eq_refl); by destruct name; [simpl in Hmin; lia|]|].
  split.
  - eapply Forall_impl; [exact Hall|]. intros d Hd. by rewrite <- name_char_class.
  - intros Hin. rewrite Forall_forall in Hallj. specialize (Hallj _ Hin).
    rewrite not_gt_class, N.eqb_refl in Hallj. done.
Qed.

(** X11: the pattern [endTag] matches exactly the inputs that begin with
    [</], a non-empty tag name and any text without [>] up to a [>].  The
    tag name is the longest run of name characters, group 1 holds it, and
    the match ends at the first [>]. *)
Theorem endTag_decoded (html : str) (m : MatchResult) :
  String_match html endTag = Some m <->
  exists name junk rest',
    html = js "</" ++ name ++ junk ++ GT :: rest' /\
    name <> [] /\ Forall (fun d => is_name_char d = true) name /\
    (GT ∉ junk) /\
    (forall d junk', junk = d :: junk' -> is_name_char d = false) /\
    m = mkMatch 0 (js "</" ++ name ++ junk ++ [GT]) {[ 1 := name ]}.
Proof.
  split.
  - intros Hm.
    pose proof Hm as (name0 & junk0 & rest' & -> & Hne & Hname & Hjunk)%endTag_text.
    destruct (name_run junk0) as (a & junk & -> & Ha & Hhead).
    assert (Hj : GT ∉ junk).
    { intros Hin. apply Hjunk, elem_of_app. by right. }
    assert (Hn : Forall (fun d => is_name_char d = true) (name0 ++ a)).
    { by apply Forall_app. }
    assert (Hne' : name0 ++ a <> []) by (by destruct name0).
    replace (js "</" ++ name0 ++ (a ++ junk) ++ GT :: rest')
      with (js "</" ++ (name0 ++ a) ++ junk ++ GT :: rest') in Hm |- *.
    2:{ by rewrite <- !app_assoc. }
    rewrite endTag_exact in Hm by done. injection Hm as <-.
    by exists (name0 ++ a), junk, rest'.
  - intros (name & junk & rest' & -> & Hne & Hname & Hjunk & Hhead & ->).
    by apply endTag_exact.
Qed.



Lemma space_class (d : char) :
  xorb false (class_has false [ASpace] d) = is_space d.
Proof. cbn -[is_space]. by rewrite orb_false_r. Qed.

Lemma spaces_class (w : str) :
  Forall (fun d => xorb false (class_has false [ASpace] d) = true) w ->
  Forall (fun d => is_space d = true) w.
Proof.
  intros H. eapply Forall_impl; [exact H|].
  intros d Hd. rewrite <- space_class. exact Hd.
Qed.

(** Zero or more rounds of a pattern that begins with white space consume
    nothing or a text that begins with white space. *)
Lemma matches_star_spaced (r : regex) (x z : mstate) :
  matches false (star (Seq (plus space) r)) x z ->
  z = x \/ exists d rest', rest x = d :: rest' /\ is_space d = true /\
                           endIndex x < endIndex z.
Proof.
  unfold star.
  inversion 1 as [| | | | | | | | | |? ? ? ? ? y ? Hmax H1 He H2|]; subst;
    [by left|right].
  apply matches_Seq_inv in H1 as (y1 & Hs & Hr).
  apply matches_rep_class in Hs as (w & Hw & Hi & _ & Hall & Hmin).
  specialize (Hmin eq_refl). apply spaces_class in Hall.
  apply matches_ahead in Hr as (k1 & _ & He1 & _).
  apply matches_ahead in H2 as (k2 & _ & He2 & _).
  cbn [rest endIndex clear_captures] in *.
  destruct w as [|d w]; [simpl in Hmin; lia|].
  apply Forall_cons in Hall as [Hd _].
  exists d, (w ++ rest y1). split; [done|]. split; [done|]. simpl in Hi. lia.
Qed.

(** X12: what [startTag] matches is [<], a non-empty tag name (group 1),
    the attribute part (group 2, empty or beginning with white space),
    white space, an optional [/] (group 3), white space and [>]. *)
Theorem startTag_decoded (html : str) (m : MatchResult) :
  String_match html startTag = Some m ->
  exists name attrs ws1 slash ws2 rest',
    html = LT :: name ++ attrs ++ ws1 ++ slash ++ ws2 ++ GT :: rest' /\
    matched m = LT :: name ++ attrs ++ ws1 ++ slash ++ ws2 ++ [GT] /\
    item_opt m 1 = Some name /\ item_opt m 2 = Some attrs /\
    item_opt m 3 = Some slash /\
    name <> [] /\ Forall (fun d => is_name_char d = true) name /\
    (forall d attrs', attrs = d :: attrs' -> is_space d = true) /\
    Forall (fun d => is_space d = true) ws1 /\
    (slash = [] \/ slash = [SLASH]) /\
    Forall (fun d => is_space d = true) ws2.
Proof.
  intros (y & Hy & Hcap & Hmat)%match_anchored_sound; [|apply startTag_anchored].
  unfold item_opt. rewrite Hcap, Hmat. clear Hcap Hmat m.
  unfold startTag in Hy. cbn [source ignoreCase] in Hy. unfold cat in Hy.
  cbn [foldr] in Hy.
  apply matches_Seq_inv in Hy as (y0 & [-> _]%matches_Bol_inv & Hy).
  apply matches_Seq_inv in Hy as (x1 & (r1 & Hr1 & ->)%Chr_exact & Hy).
  apply matches_Seq_inv in Hy as (x2 & Hg1 & Hy).
  apply matches_Group_inv in Hg1 as (y1 & Hg1 & ->).
  apply matches_rep_class in Hg1 as (name & Hname & Hi1 & Hc1 & Hall1 & Hmin1).
  apply matches_Seq_inv in Hy as (x3 & Hg2 & Hy).
  apply matches_Group_inv in Hg2 as (y2 & Hg2 & ->).
  pose proof (matches_text _ _ _ _ Hg2) as (attrs & Hattrs & Hi2).
  pose proof (matches_no_groups _ _ _ _ Hg2 eq_refl) as Hc2.
  apply matches_star_spaced in Hg2.
  apply matches_Seq_inv in Hy as (x4 & Hs1 & Hy).
  apply matches_rep_class in Hs1 as (ws1 & Hws1 & Hi3 & Hc3 & Hall3 & _).
  apply matches_Seq_inv in Hy as (x5 & Hg3 & Hy).
  apply matches_Group_inv in Hg3 as (y3 & Hg3 & ->).
  apply matches_Seq_inv in Hy as (x6 & Hs2 & Hy).
  apply matches_rep_class in Hs2 as (ws2 & Hws2 & Hi4 & Hc4 & Hall4 & _).
  apply matches_Seq_inv in Hy as (x7 & (r7 & Hr7 & ->)%Chr_exact
                                     & ->%matches_Empty_inv).
  assert (Hslash : exists slash, (slash = [] \/ slash = [SLASH]) /\
            rest x4 = slash ++ rest y3 /\
            endIndex y3 = endIndex x4 + length slash /\
            captures y3 = captures x4).
  { apply matches_opt_inv in Hg3 as [->|(r' & Hr' & ->)%Chr_exact].
    - exists []. split; [by left|]. split; [done|]. split; [simpl; lia|done].
    - exists [SLASH]. split; [by right|]. split; [done|].
      split; [simpl; lia|done]. }
  destruct Hslash as (slash & Hslash & Hrs & Hi5 & Hc5).
  unfold advance in *. cbn [rest endIndex captures] in *.
  exists name, attrs, ws1, slash, ws2, r7.
  assert (Hhtml : html = (LT :: name ++ attrs ++ ws1 ++ slash ++ ws2 ++ [GT]) ++ r7).
  { rewrite Hr1, Hname, Hattrs, Hws1, Hrs, Hws2, Hr7. simpl.
    by rewrite <- !app_assoc. }
  split; [by rewrite Hhtml at 1; simpl; rewrite <- !app_assoc|].
  split.
  { rewrite Hhtml. apply take_app_length'. simpl. rewrite !length_app. simpl. lia. }
  assert (H1 : take (endIndex y1 - 1) r1 = name).
  { rewrite Hname. apply take_app_length'. lia. }
  assert (H2 : take (endIndex y2 - endIndex y1) (rest y1) = attrs).
  { rewrite Hattrs. apply take_app_length'. lia. }
  assert (H3 : take (endIndex y3 - endIndex x4) (rest x4) = slash).
  { rewrite Hrs. apply take_app_length'. lia. }
  rewrite Hc4, Hc5, Hc3, Hc2, Hc1, H1, H2, H3.
  split; [by simplify_map_eq|]. split; [by simplify_map_eq|].
  split; [by simplify_map_eq|].
  split; [specialize (Hmin1 eq_refl); by destruct name; [simpl in Hmin1; lia|]|].
  split.
  { eapply Forall_impl; [exact Hall1|]. intros d Hd. by rewrite <- name_char_class. }
  split.
  { intros d attrs' ->. destruct Hg2 as [->|(d' & rest' & Hd' & Hsp & Hlt)].
    - cbn [endIndex] in Hi2. simpl in Hi2. lia.
    - rewrite Hd' in Hattrs. by injection Hattrs as ->. }
  split; [by apply spaces_class|]. split; [done|]. by apply spaces_class.
Qed.



(** *** Text and error calls *)

Lemma dispatch_text_maximal (opts : options) (html : str) (st : store) :
  Forall text_maximal (dispatch opts html st).1.
Proof.
  destruct (dispatch_shape opts html st)
    as [(m & attrs & Hm & Hev)|[(m & Hm & ->)|[(m & Hm & ->)|[(m & Hm & ->)| ->]]]];
    try by repeat constructor.
  - destruct Hev as [->|[index ->]]; [by repeat constructor|].
    constructor; [done|].
    destruct (onText_events (slice_from html (Z.of_nat (length (matched m)))) index true)
      as [->|(text & rem & Hne & -> & _)]; by repeat constructor.
  - rewrite onText_spec. cbv zeta. cbn [fst].
    destruct (indexOf_spec html LT) as [[-> Hnot]|(n & -> & _ & _ & Hn)].
    + simpl. destruct html; repeat constructor.
    + destruct (Z.eqb_spec (Z.of_nat n) (-1)) as [?|_]; [lia|]. cbn [negb].
      destruct (slice html 0 (Z.of_nat n)); [constructor|].
      constructor; [|constructor].
      right. by rewrite slice_from_nat, head_lookup, lookup_drop, Nat.add_0_r.
Qed.

(** X13: whenever the text handler is called for ordinary text, what is
    left of the input is empty or begins with [<]: ordinary text is never
    reported in pieces. *)
Theorem text_stops_at_bracket (opts : options) (fuel : nat) (html : str)
    (st : store) :
  Forall text_maximal (parse opts fuel html st).1.1.
Proof.
  apply parse_Forall; [|done]. intros h s _. apply dispatch_text_maximal.
Qed.

Lemma dispatch_no_error_call (opts : options) (html : str) (st : store) :
  Forall (error_call_stuck opts) (dispatch opts html st).1.
Proof.
  destruct (dispatch_shape opts html st)
    as [(m & attrs & Hm & Hev)|[(m & Hm & ->)|[(m & Hm & ->)|[(m & Hm & ->)| ->]]]];
    try by repeat constructor.
  - destruct Hev as [->|[index ->]]; [by repeat constructor|].
    constructor; [done|].
    destruct (onText_events (slice_from html (Z.of_nat (length (matched m)))) index true)
      as [->|(text & rem & Hne & -> & _)]; by repeat constructor.
  - destruct (onText_events html (indexOf html LT) false)
      as [->|(text & rem & Hne & -> & _)]; by repeat constructor.
Qed.

Lemma loop_error_calls (opts : options) (fuel : nat) (html : str)
    (last : option str) (st : store) :
  (last = Some html -> stuck html) ->
  Forall (error_call_stuck opts) (loop opts fuel html last st).1.1.
Proof.
  revert html last st. induction fuel as [|fuel IH]; intros html last st Hlast.
  { destruct html; constructor. }
  destruct html as [|d html']; [constructor|]. rewrite loop_S. unfold iteration.
  pose proof (dispatch_consumes opts (d :: html') st) as (_ & rem & Hcut & _ & Hc).
  pose proof (dispatch_no_error_call opts (d :: html') st) as Hev.
  assert (Hnext : forall h1 s1, (dispatch opts (d :: html') st).2 = Continue h1 s1 ->
    Some (d :: html') = Some h1 -> stuck h1).
  { intros h1 s1 Hfl [= <-]. exists html'.
    destruct (proj1 (dispatch_fixed_iff opts d html' st)) as [-> Hgt]; [eauto|done]. }
  case_bool_decide as Hstall.
  - destruct (error opts) eqn:Herr; [|constructor].
    destruct (dispatch opts (d :: html') st) as [devs fl]. simpl in *.
    assert (Hcall : error_call_stuck opts (CallError (parse_error (d :: html')))).
    { split; [done|]. exists (d :: html'). split; [done|]. by apply Hlast. }
    destruct fl as [h1 s1|e1 s1|]; [|by constructor..].
    specialize (IH h1 (Some (d :: html')) s1 (Hnext _ _ eq_refl)).
    destruct (loop opts fuel h1 _ s1) as [[evs' c] s2]. simpl in *.
    constructor; [done|]. by apply Forall_app.
  - destruct (dispatch opts (d :: html') st) as [devs fl]. simpl in *.
    destruct fl as [h1 s1|e1 s1|]; [|done..].
    specialize (IH h1 (Some (d :: html')) s1 (Hnext _ _ eq_refl)).
    destruct (loop opts fuel h1 _ s1) as [[evs' c] s2]. simpl in *.
    by apply Forall_app.
Qed.

(** X14: the error handler is called only when the caller has given one,
    and every error it gets has the message 'HTML parse error: ' followed
    by the input that is left, which begins with a [<] and has no [>]. *)
Theorem error_calls (opts : options) (fuel : nat) (html : str) (st : store) :
  Forall (error_call_stuck opts) (parse opts fuel html st).1.1.
Proof.
  destruct html as [|d html']; [constructor|]. simpl. by apply loop_error_calls.
Qed.


(** *** A comment or an end tag at the front *)

(** X19: when the input begins with [<!--] and [data] is the text up to the
    first [-->] behind it, one run of the loop body calls the comment
    handler, once, with the whole comment, [data] and the rest of the
    input, and goes on with that rest. *)
Theorem comment_call (opts : options) (data rest' : str) (st : store) :
  first_occurrence (js "-->") (data ++ js "-->" ++ rest') data ->
  dispatch opts (js "<!--" ++ data ++ js "-->" ++ rest') st =
    ([CallComment (js "<!--" ++ data ++ js "-->") data rest'],
     Continue rest' st).
Proof.
  intros Hfirst. unfold dispatch.
  pose proof (comment_exact data rest' Hfirst) as Hm.
  change (js "<!--" ++ data ++ js "-->" ++ rest')
    with (LT :: BANG :: js "--" ++ data ++ js "-->" ++ rest') in *.
  rewrite bool_decide_eq_true_2 by done.
  rewrite (startTag_excludes BANG) by (by right).
  rewrite endTag_excludes_bang, Hm, onTag_spec.
  unfold item. cbn [matched capture]. rewrite lookup_singleton_eq. cbn [default].
  change (LT :: BANG :: js "--" ++ data ++ js "-->" ++ rest')
    with (js "<!--" ++ data ++ js "-->" ++ rest').
  rewrite slice_from_nat.
  replace (js "<!--" ++ data ++ js "-->" ++ rest')
    with ((js "<!--" ++ data ++ js "-->") ++ rest') by (by rewrite <- !app_assoc).
  by rewrite drop_app_length.
Qed.

(** X20: when the input begins with [</], a tag name and a text without
    [>] up to a [>], one run of the loop body calls the end handler, once,
    with the whole tag, the tag name in lower case and the rest of the
    input, and goes on with that rest. *)
Theorem end_tag_call (opts : options) (name junk rest' : str) (st : store) :
  name <> [] -> Forall (fun d => is_name_char d = true) name ->
  GT ∉ junk ->
  (forall d junk', junk = d :: junk' -> is_name_char d = false) ->
  dispatch opts (js "</" ++ name ++ junk ++ GT :: rest') st =
    ([CallEnd (js "</" ++ name ++ junk ++ [GT]) (toLowerCase name) rest'],
     Continue rest' st).
Proof.
  intros Hne Hname Hjunk Hhead. unfold dispatch.
  pose proof (endTag_exact name junk rest' Hne Hname Hjunk Hhead) as Hm.
  change (js "</" ++ name ++ junk ++ GT :: rest')
    with (LT :: SLASH :: name ++ junk ++ GT :: rest') in *.
  rewrite bool_decide_eq_true_2 by done.
  rewrite (startTag_excludes SLASH) by (by left).
  rewrite Hm, onTag_spec.
  unfold item, set_item. cbn [matched capture m_index].
  rewrite lookup_singleton_eq. cbn [default]. rewrite lookup_insert_eq.
  cbn [default].
  change (LT :: SLASH :: name ++ junk ++ GT :: rest')
    with (js "</" ++ name ++ junk ++ GT :: rest').
  rewrite slice_from_nat.
  replace (js "</" ++ name ++ junk ++ GT :: rest')
    with ((js "</" ++ name ++ junk ++ [GT]) ++ rest') by (by rewrite <- !app_assoc).
  by rewrite drop_app_length.
Qed.


(** X21: a construct that begins with [<!] but not with [<!-] (a document
    type declaration, say) goes to the other handler: it is called once
    with the text up to the first [>], the text between the brackets and
    the rest of the input, and the loop goes on with that rest. *)
Theorem declaration_call (opts : options) (c : char) (data rest' : str)
    (st : store) :
  c <> DASH -> GT ∉ c :: data ->
  dispatch opts (LT :: BANG :: c :: data ++ GT :: rest') st =
    ([CallOther (LT :: BANG :: c :: data ++ [GT]) (BANG :: c :: data) rest'],
     Continue rest' st).
Proof.
  intros Hc Hgt. unfold dispatch.
  assert (Hdata : GT ∉ BANG :: c :: data).
  { apply not_elem_of_cons. split; [done|exact Hgt]. }
  pose proof (other_exact (BANG :: c :: data) rest' Hdata) as Hm.
  cbn [app] in Hm.
  rewrite bool_decide_eq_true_2 by done.
  rewrite (startTag_excludes BANG) by (by right).
  rewrite endTag_excludes_bang.
  destruct (String_match _ comment) as [m|] eqn:Hcm.
  { apply comment_text in Hcm as (w & r & Heq).
    change (js "<!--" ++ w ++ js "-->" ++ r)
      with (LT :: BANG :: DASH :: DASH :: w ++ js "-->" ++ r) in Heq.
    injection Heq as Heq _. done. }
  rewrite Hm, onTag_spec.
  unfold item. cbn [matched capture]. rewrite lookup_singleton_eq. cbn [default].
  rewrite slice_from_nat.
  replace (LT :: BANG :: c :: data ++ GT :: rest')
    with ((LT :: BANG :: c :: data ++ [GT]) ++ rest').
  2:{ simpl. by rewrite <- app_assoc. }
  by rewrite drop_app_length.
Qed.


(** ** No memory between calls *)

(** [test] of a stateless pattern: the answer does not depend on
    [lastIndex], and [lastIndex] stays as it is. *)
Lemma RegExp_test_stateless (R : RegExp) (lastIndex : nat) (s : str) :
  stateless R ->
  RegExp_test R lastIndex s = ((RegExp_test R 0 s).1, lastIndex).
Proof.
  intros [Hg Hy]. unfold RegExp_test, RegExpBuiltinExec. rewrite Hg, Hy. simpl.
  by destruct (scan R (drop 0 s) 0) as [[i y]|].
Qed.

(** [replace] sets [attr.lastIndex] to 0 before its first match, so
    [onStartTag] does not look at the value a former call left there. *)
Lemma onStartTag_store (html : str) (m : MatchResult) (st1 st2 : store) :
  (onStartTag html m st1).1 = (onStartTag html m st2).1 /\
  attr_lastIndex (onStartTag html m st1).2 = attr_lastIndex (onStartTag html m st2).2.
Proof.
  unfold onStartTag. by destruct (String_replace_global _ _) as [ms li].
Qed.

Lemma dispatch_store (opts : options) (html : str) (st1 st2 : store) :
  rawTags_stateless opts ->
  (dispatch opts html st1).1 = (dispatch opts html st2).1 /\
  same_flow (dispatch opts html st1).2 (dispatch opts html st2).2.
Proof.
  intros Hraw.
  assert (Hdef : stateless (default rawTagsDefault (rawTags opts))).
  { unfold rawTags_stateless in Hraw. by destruct (rawTags opts). }
  unfold dispatch, plain_text.
  destruct (bool_decide _).
  2:{ by destruct (onText _ _ _). }
  destruct (String_match html startTag) as [m|].
  { destruct (onStartTag_store html m st1 st2) as [Hev _].
    destruct (onStartTag html m st1) as [[ev1 h1] s1].
    destruct (onStartTag html m st2) as [[ev2 h2] s2].
    simpl in Hev. injection Hev as -> ->.
    rewrite (RegExp_test_stateless _ (rawTags_lastIndex s1)) by done.
    rewrite (RegExp_test_stateless _ (rawTags_lastIndex s2)) by done.
    destruct (RegExp_test _ 0 _).1; [|done].
    destruct (from_option _ _ _ _) as [e|ending]; [done|].
    destruct (rawEnd h2 ending) as [index|]; [|done].
    by destruct (onText h2 index true). }
  destruct (String_match html endTag) as [m|]; [done|].
  destruct (String_match html comment) as [m|]; [done|].
  destruct (String_match html other) as [m|]; [done|].
  by destruct (onText _ _ _).
Qed.

Lemma iteration_store (opts : options) (html : str) (last : option str)
    (st1 st2 : store) :
  rawTags_stateless opts ->
  (iteration opts html last st1).1 = (iteration opts html last st2).1 /\
  same_flow (iteration opts html last st1).2 (iteration opts html last st2).2.
Proof.
  intros Hraw. unfold iteration.
  destruct (dispatch_store opts html st1 st2 Hraw) as [Hev Hfl].
  destruct (bool_decide _); [|done].
  destruct (error opts); [|done].
  destruct (dispatch opts html st1), (dispatch opts html st2).
  simpl in *. by rewrite Hev.
Qed.

(** The calls and the way the call ends do not depend on the store. *)
Lemma loop_store (opts : options) (fuel : nat) (html : str)
    (last : option str) (st1 st2 : store) :
  rawTags_stateless opts ->
  (loop opts fuel html last st1).1 = (loop opts fuel html last st2).1.
Proof.
  intros Hraw. revert html last st1 st2.
  induction fuel as [|fuel IH]; intros html last st1 st2.
  - by destruct html.
  - destruct html as [|d html']; [done|]. rewrite !loop_S.
    destruct (iteration_store opts (d :: html') last st1 st2 Hraw) as [Hev Hfl].
    destruct (iteration opts (d :: html') last st1) as [evs1 fl1].
    destruct (iteration opts (d :: html') last st2) as [evs2 fl2].
    simpl in Hev, Hfl. subst evs2.
    destruct fl1 as [h1 s1|e1 s1|], fl2 as [h2 s2|e2 s2|]; simpl in Hfl;
      try done; subst; simpl; [|done].
    specialize (IH h2 (Some (d :: html')) s1 s2).
    destruct (loop opts fuel h2 _ s1) as [[evs1' c1] t1].
    destruct (loop opts fuel h2 _ s2) as [[evs2' c2] t2].
    simpl in *. by injection IH as -> ->.
Qed.

Lemma parse_store (opts : options) (fuel : nat) (html : str) (st1 st2 : store) :
  rawTags_stateless opts ->
  (parse opts fuel html st1).1 = (parse opts fuel html st2).1.
Proof.
  intros Hraw. destruct html as [|d html']; [done|]. by apply loop_store.
Qed.

(** *** The store after a call *)

Lemma exec_fail (R : RegExp) (lastIndex : nat) (s : str) (lastIndex' : nat) :
  RegExpBuiltinExec R lastIndex s = (None, lastIndex') ->
  lastIndex' = if global R || sticky R then 0 else lastIndex.
Proof.
  unfold RegExpBuiltinExec. destruct (_ <? _); [by intros [= <-]|].
  destruct (scan _ _ _) as [[i y]|]; [done|]. by intros [= <-].
Qed.

(** [replace] with a global pattern ends with [lastIndex = 0]: every round
    moves [lastIndex] forward, and the exec that fails resets it. *)
Lemma replace_loop_final (R : RegExp) (s : str) (fuel lastIndex : nat) :
  global R = true ->
  lastIndex <= length s + 1 -> length s + 2 <= fuel + lastIndex ->
  (replace_loop fuel R s lastIndex).2 = 0.
Proof.
  intros Hg. revert lastIndex.
  induction fuel as [|fuel IH]; intros lastIndex Hle Hfuel; [lia|].
  simpl. destruct (RegExpBuiltinExec R lastIndex s) as [[m|] li'] eqn:He.
  - apply exec_sound in He as (k & y & _ & _ & _ & _ & Hlen & Hk & Hli).
    rewrite Hg in Hli. simpl in Hli. destruct Hli as [Hi ->].
    specialize (IH (match matched m with [] => S (m_index m + k) | _ => m_index m + k end)).
    destruct (replace_loop fuel R s _) as [ms final]. simpl in *. apply IH.
    + destruct (matched m); lia.
    + destruct (matched m); simpl in *; lia.
  - apply exec_fail in He. rewrite Hg in He. by subst.
Qed.

Lemma onStartTag_attr_lastIndex (html : str) (m : MatchResult) (st : store) :
  (onStartTag html m st).2 = mkStore 0 (rawTags_lastIndex st).
Proof.
  unfold onStartTag.
  pose proof (replace_loop_final attr (item m 2) (length (item m 2) + 2) 0
                eq_refl ltac:(lia) ltac:(lia)) as Hfinal.
  unfold String_replace_global.
  destruct (replace_loop _ attr (item m 2) 0) as [ms li]. simpl in *. by subst.
Qed.

(** A run of the loop body leaves the store as it found it. *)
Lemma dispatch_keeps_store (opts : options) (html : str) (st : store) :
  rawTags_stateless opts -> attr_lastIndex st = 0 ->
  match (dispatch opts html st).2 with
  | Continue _ st' | Raise _ st' => st' = st
  | Hang => True
  end.
Proof.
  intros Hraw Hattr.
  assert (Hdef : stateless (default rawTagsDefault (rawTags opts))).
  { unfold rawTags_stateless in Hraw. by destruct (rawTags opts). }
  unfold dispatch, plain_text.
  destruct (bool_decide _); [|by destruct (onText _ _ _)].
  destruct (String_match html startTag) as [m|].
  { pose proof (onStartTag_attr_lastIndex html m st) as Hst.
    destruct (onStartTag html m st) as [[ev h1] s1]. simpl in Hst. subst s1.
    rewrite RegExp_test_stateless by done. simpl.
    assert (Hsame : mkStore 0 (rawTags_lastIndex st) = st).
    { destruct st. simpl in *. by subst. }
    rewrite Hsame.
    destruct (RegExp_test _ 0 _).1; [|done].
    destruct (from_option _ _ _ _) as [e|ending]; [done|].
    destruct (rawEnd h1 ending) as [index|]; [|done].
    by destruct (onText h1 index true). }
  destruct (String_match html endTag) as [m|]; [done|].
  destruct (String_match html comment) as [m|]; [done|].
  destruct (String_match html other) as [m|]; [done|].
  by destruct (onText _ _ _).
Qed.

Lemma loop_keeps_store (opts : options) (fuel : nat) (html : str)
    (last : option str) (st : store) :
  rawTags_stateless opts -> attr_lastIndex st = 0 ->
  (loop opts fuel html last st).2 = st.
Proof.
  intros Hraw Hattr. revert html last.
  induction fuel as [|fuel IH]; intros html last; [by destruct html|].
  destruct html as [|d html']; [done|]. rewrite loop_S. unfold iteration.
  pose proof (dispatch_keeps_store opts (d :: html') st Hraw Hattr) as Hst.
  destruct (bool_decide _).
  - destruct (error opts); [|done].
    destruct (dispatch opts (d :: html') st) as [evs fl]. simpl in Hst.
    destruct fl as [h1 s1|e s1|]; simpl; [|done..]. subst s1.
    specialize (IH h1 (Some (d :: html'))).
    by destruct (loop opts fuel h1 _ st) as [[evs' c] s2].
  - destruct (dispatch opts (d :: html') st) as [evs fl]. simpl in Hst.
    destruct fl as [h1 s1|e s1|]; simpl; [|done..]. subst s1.
    specialize (IH h1 (Some (d :: html'))).
    by destruct (loop opts fuel h1 _ st) as [[evs' c] s2].
Qed.

(** C8, as amended: when the pattern for raw elements is the default or has
    neither the g nor the y flag, a second call on the same input with the
    same options, made in the state the first call left behind, calls the
    same handlers in the same order with the same arguments and ends the same
    way.  The first call leaves no trace in the patterns: the module's global
    pattern [attr] is back at [lastIndex = 0] and the pattern for raw
    elements is untouched. *)
Theorem parse_twice (opts : options) (fuel : nat) (html : str) (st : store) :
  rawTags_stateless opts ->
  let first := parse opts fuel html st in
  let second := parse opts fuel html first.2 in
  first.1.1 = second.1.1 /\ first.1.2 = second.1.2 /\
  (attr_lastIndex st = 0 -> first.2 = st).
Proof.
  intros Hraw first second.
  pose proof (parse_store opts fuel html st first.2 Hraw) as Heq.
  fold first second in Heq. rewrite Heq. repeat split; try done.
  intros Hattr. subst first. destruct html as [|d html']; [done|].
  by apply loop_keeps_store.
Qed.

(** ** Raw elements by default *)

Lemma matches_lit (ic : bool) (a : str) (x y : mstate) :
  matches ic (lit a) x y ->
  exists w, rest x = w ++ rest y /\
    Forall2 (fun c d => Canonicalize ic c = Canonicalize ic d) a w.
Proof.
  revert x. induction a as [|c a IH]; intros x.
  - intros ->%matches_Empty_inv. by exists [].
  - intros (x1 & (d & rest' & Hr & Hd & ->)%matches_Chr_inv
               & (w & Hw & Hall)%IH)%matches_Seq_inv.
    exists (d :: w). simpl in Hw. rewrite Hr, Hw. split; [done|].
    constructor; [by apply N.eqb_eq|done].
Qed.

Lemma matcher_lit (ic : bool) (a w tail : str) (i : nat) (caps : gmap nat str)
    (c : mstate -> option mstate) :
  Forall2 (fun c d => Canonicalize ic c = Canonicalize ic d) a w ->
  matcher ic (lit a) (MState (w ++ tail) i caps) c =
  c (MState tail (i + length w) caps).
Proof.
  intros Hall. revert i. induction Hall as [|c0 d a w Hd Hall IH]; intros i.
  - simpl. by rewrite Nat.add_0_r.
  - change (lit (c0 :: a)) with (Seq (Chr c0) (lit a)).
    rewrite matcher_Seq_eq. cbn [matcher]. unfold one_char. cbn [rest app].
    rewrite Hd, N.eqb_refl. unfold advance. cbn [endIndex captures].
    rewrite IH. simpl. by rewrite Nat.add_succ_r.
Qed.

Lemma rawTagsDefault_anchored : anchored rawTagsDefault.
Proof. split; [by eexists|done]. Qed.

(** X15: [rawTagsDefault.test(tagName)] leaves [lastIndex] as it is, and
    it holds exactly for the tag names that the i flag does not tell apart
    from 'style' or 'script'. *)
Theorem rawTagsDefault_test (lastIndex : nat) (tagName : str) :
  (RegExp_test rawTagsDefault lastIndex tagName).2 = lastIndex /\
  ((RegExp_test rawTagsDefault lastIndex tagName).1 = true <->
   same_letters (js "style") tagName \/ same_letters (js "script") tagName).
Proof.
  rewrite RegExp_test_stateless by done. split; [done|]. cbn [fst].
  assert (Htest : (RegExp_test rawTagsDefault 0 tagName).1
                  = bool_decide (is_Some (String_match tagName rawTagsDefault))).
  { unfold RegExp_test, String_match.
    by destruct (RegExpBuiltinExec rawTagsDefault 0 tagName). }
  rewrite Htest, bool_decide_eq_true. clear Htest. split.
  - intros [m Hm].
    apply match_anchored_sound in Hm as (y & Hy & _); [|apply rawTagsDefault_anchored].
    unfold rawTagsDefault in Hy. cbn [source ignoreCase] in Hy.
    unfold cat in Hy. cbn [foldr] in Hy.
    apply matches_Seq_inv in Hy as (y0 & [-> _]%matches_Bol_inv & Hy).
    apply matches_Seq_inv in Hy as (x1 & Hg & Hy).
    apply matches_Group_inv in Hg as (y1 & Hg & ->).
    apply matches_Seq_inv in Hy as (x2 & Hend & ->%matches_Empty_inv).
    inversion Hend as [| |? Hrest| | | | | | | | |]; subst.
    cbn [rest] in Hrest.
    apply matches_Alt_inv in Hg as [Hg|Hg];
      apply matches_lit in Hg as (w & Hw & Hall);
      rewrite Hrest, app_nil_r in Hw; cbn [rest] in Hw; subst w;
      [by left|by right].
  - intros Hname. rewrite match_at_0 by apply rawTagsDefault_anchored.
    enough (is_Some (matcher true (source rawTagsDefault)
                       (MState tagName 0 ∅) Some)) as [y Hy].
    { change (ignoreCase rawTagsDefault) with true. by rewrite Hy. }
    unfold rawTagsDefault. cbn [source]. unfold cat. cbn [foldr].
    rewrite matcher_Seq_eq, matcher_Bol_eq, matcher_Seq_eq, matcher_Group_eq.
    cbn [matcher].
    rewrite <- (app_nil_r tagName).
    destruct Hname as [Hs|Hs].
    + rewrite (matcher_lit true (js "style")) by done. by eexists.
    + destruct (matcher true (lit (js "style")) _ _); [by eexists|].
      rewrite (matcher_lit true (js "script")) by done. by eexists.
Qed.


End Properties.

(** * Worked examples

    From here on the host is [ascii_host]; all strings are ASCII. *)

(** ** The examples of the specification *)

Example anchor_with_text :
  parse defaults 10
    (js "<a href=" ++ [DQUOTE] ++ js "x" ++ [DQUOTE] ++ js ">hi</a>") fresh =
    ([CallStart (js "<a href=" ++ [DQUOTE] ++ js "x" ++ [DQUOTE] ++ js ">")
        (js "a") (mkObject {[ js "href" := Str (js "x") ]} true) (js "hi</a>");
      CallText (js "hi") false (js "</a>");
      CallEnd (js "</a>") (js "a") []],
     Returned, fresh).
Proof. vm_compute. reflexivity. Qed.

Example comment_then_text :
  parse defaults 10 (js "<!-- c -->text") fresh =
    ([CallComment (js "<!-- c -->") (js " c ") (js "text");
      CallText (js "text") false []],
     Returned, fresh).
Proof. vm_compute. reflexivity. Qed.

Example start_tag_alone :
  parse defaults 10 (js "<div>") fresh =
    ([CallStart (js "<div>") (js "div") obj_empty []], Returned, fresh).
Proof. vm_compute. reflexivity. Qed.

(** Without an error handler a [<] that begins no construct ends the call
    with the error. *)
Example stray_bracket_raises :
  parse defaults 10 (js "a<b") fresh =
    ([CallText (js "a") false (js "<b")],
     Threw (Error (js "HTML parse error: <b")), fresh).
Proof. vm_compute. reflexivity. Qed.


(** ** Raw text *)

(** The end of a raw element is searched behind a comment. *)
Example raw_text_skips_comment :
  parse defaults 10 (js "<script><!-- </script> -->foo</script>") fresh =
    ([CallStart (js "<script>") (js "script") obj_empty
        (js "<!-- </script> -->foo</script>");
      CallText (js "<!-- </script> -->foo") true (js "</script>");
      CallEnd (js "</script>") (js "script") []],
     Returned, fresh).
Proof. vm_compute. reflexivity. Qed.

(** Quotes of the script language do not protect an end tag. *)
Example raw_text_ignores_quotes :
  (parse defaults 10 (js "<script>var x = '</script>';</script>") fresh).1.1 =
    [CallStart (js "<script>") (js "script") obj_empty
       (js "var x = '</script>';</script>");
     CallText (js "var x = '") true (js "</script>';</script>");
     CallEnd (js "</script>") (js "script") (js "';</script>");
     CallText (js "';") false (js "</script>");
     CallEnd (js "</script>") (js "script") []].
Proof. vm_compute. reflexivity. Qed.

(** C3 (the value for "not found" is lost behind a comment): in
    [<!-- </script> -->foo] the only [</script] lies inside the comment.
    [rawEnd] skips the 18 characters of the comment, finds nothing in [foo],
    and returns -1 + 18 = 17 instead of -1; [onText] takes 17 for a found
    position, so the raw text ends one character before the end of the
    comment and the rest is reported as ordinary text. *)
Theorem rawEnd_not_found_after_comment :
  String_search (js "foo") (mkRegExp (lit (js "</script")) false true false) = (-1)%Z /\
  matchEndDefault (js "script") = inr (mkRegExp (lit (js "</script")) false true false) /\
  rawEnd (js "<!-- </script> -->foo")
         (mkRegExp (lit (js "</script")) false true false) = Some 17%Z /\
  parse defaults 10 (js "<script><!-- </script> -->foo") fresh =
    ([CallStart (js "<script>") (js "script") obj_empty
        (js "<!-- </script> -->foo");
      CallText (js "<!-- </script> --") true (js ">foo");
      CallText (js ">foo") false []],
     Returned, fresh).
Proof. repeat split; vm_compute; reflexivity. Qed.

(** ** Attributes *)

Example attribute_without_value :
  (parse defaults 10 (js "<input disabled>") fresh).1.1 =
    [CallStart (js "<input disabled>") (js "input")
       (mkObject {[ js "disabled" := Null ]} true) []].
Proof. vm_compute. reflexivity. Qed.

Example attribute_with_empty_value :
  (parse defaults 10 (js "<input value=" ++ [DQUOTE; DQUOTE] ++ js ">") fresh).1.1 =
    [CallStart (js "<input value=" ++ [DQUOTE; DQUOTE] ++ js ">") (js "input")
       (mkObject {[ js "value" := Str [] ]} true) []].
Proof. vm_compute. reflexivity. Qed.

Example attribute_with_unquoted_value :
  (parse defaults 10 (js "<input value=foo>") fresh).1.1 =
    [CallStart (js "<input value=foo>") (js "input")
       (mkObject {[ js "value" := Str (js "foo") ]} true) []].
Proof. vm_compute. reflexivity. Qed.

Example attribute_repeated :
  (parse defaults 10 (js "<input value=foo VALUE=bar>") fresh).1.1 =
    [CallStart (js "<input value=foo VALUE=bar>") (js "input")
       (mkObject {[ js "value" := Str (js "bar") ]} true) []].
Proof. vm_compute. reflexivity. Qed.

(** C4 (an attribute named [__proto__] gets no entry): the assignment
    [attrs['__proto__'] = 'x'] on the object literal runs the setter
    inherited from [Object.prototype], which ignores a string.  The start
    handler receives an object without any own property, not
    [{__proto__: 'x'}]. *)
Theorem proto_attribute_is_dropped :
  parse defaults 10 (js "<a __proto__=x>") fresh =
    ([CallStart (js "<a __proto__=x>") (js "a") obj_empty []], Returned, fresh) /\
  own obj_empty !! js "__proto__" = None.
Proof. split; vm_compute; reflexivity. Qed.

(** ** A pattern with the g flag as [rawTags] *)

(** C8, as stated, fails: with [rawTags: /^script$/g] the first call leaves
    [lastIndex = 6] in the pattern; the second call on the same input with
    the same options starts [test] there, does not recognise the raw element,
    and reports its text as ordinary text. *)
Lemma parse_twice_differs :
  let opts := mkOptions false None (Some script_global) in
  let first := parse opts 10 (js "<script>a") fresh in
  let second := parse opts 10 (js "<script>a") first.2 in
  first.1.1 = [CallStart (js "<script>") (js "script") obj_empty (js "a");
               CallText (js "a") true []] /\
  second.1.1 = [CallStart (js "<script>") (js "script") obj_empty (js "a");
                CallText (js "a") false []] /\
  first.1.1 <> second.1.1.
Proof.
  repeat split; [vm_compute; reflexivity..|]. vm_compute. discriminate.
Qed.

(** ** Instances *)

Lemma span_coverage_witness :
  spans (parse defaults 10 (js "<a href=x>hi</a>") fresh).1.1 = js "<a href=x>hi</a>".
Proof.
  apply (span_coverage defaults 10 (js "<a href=x>hi</a>") fresh fresh).
  vm_compute. reflexivity.
Defined.

Lemma parse_twice_witness :
  let first := parse defaults 10 (js "<script>a</script>") fresh in
  let second := parse defaults 10 (js "<script>a</script>") first.2 in
  first.1.1 = second.1.1 /\ first.1.2 = second.1.2 /\
  (attr_lastIndex fresh = 0 -> first.2 = fresh).
Proof.
  apply (parse_twice defaults 10 (js "<script>a</script>") fresh).
  exact I.
Defined.

Lemma raised_errors_witness :
  (error defaults = false /\
   exists rem, Error (js "HTML parse error: <") = Error (js "HTML parse error: " ++ rem) /\
     spans [CallText (js "hi") false (js "<")] ++ rem = js "hi<" /\ stuck rem) \/
  (matchEnd defaults = None /\
   exists tagName, matchEndDefault tagName = inl (Error (js "HTML parse error: <"))).
Proof.
  apply (raised_errors defaults 5 (js "hi<") fresh fresh
           [CallText (js "hi") false (js "<")] (Error (js "HTML parse error: <"))).
  vm_compute. reflexivity.
Defined.

Lemma parse_ends_witness :
  error defaults = false /\
  (parse defaults 14 (js "<b>bold</b><") fresh).1.2 <> Running.
Proof.
  split; [reflexivity|].
  apply (parse_ends defaults (js "<b>bold</b><") fresh 14); [reflexivity|].
  vm_compute. lia.
Defined.

Lemma startTag_decoded_witness :
  let m := mkMatch 0 (js "<br />") {[ 1 := js "br"; 2 := []; 3 := js "/" ]} in
  exists name attrs ws1 slash ws2 rest',
    js "<br />x" = LT :: name ++ attrs ++ ws1 ++ slash ++ ws2 ++ GT :: rest' /\
    matched m = LT :: name ++ attrs ++ ws1 ++ slash ++ ws2 ++ [GT] /\
    item_opt m 1 = Some name /\ item_opt m 2 = Some attrs /\
    item_opt m 3 = Some slash /\
    name <> [] /\ Forall (fun d => is_name_char d = true) name /\
    (forall d attrs', attrs = d :: attrs' -> is_space d = true) /\
    Forall (fun d => is_space d = true) ws1 /\
    (slash = [] \/ slash = [SLASH]) /\
    Forall (fun d => is_space d = true) ws2.
Proof.
  apply (startTag_decoded (js "<br />x")
           (mkMatch 0 (js "<br />") {[ 1 := js "br"; 2 := []; 3 := js "/" ]})).
  vm_compute. reflexivity.
Defined.

Lemma start_tag_attributes_witness :
  own (mkObject {[ js "href" := Str (js "y") ]} true) !! js "href" =
    Some (Str (js "y")).
Proof.
  etransitivity.
  - apply (start_tag_attributes (js "<a href=x HREF=y>")
             (mkMatch 0 (js "<a href=x HREF=y>")
                {[ 1 := js "a"; 2 := js " href=x HREF=y"; 3 := [] ]})
             fresh (js "<a href=x HREF=y>") (js "a") []
             (mkObject {[ js "href" := Str (js "y") ]} true) (js "href")).
    + vm_compute. reflexivity.
    + vm_compute. discriminate.
  - vm_compute. reflexivity.
Defined.

Lemma comment_call_witness :
  dispatch defaults (js "<!--" ++ js "a" ++ js "-->" ++ js "b-->") fresh =
    ([CallComment (js "<!--" ++ js "a" ++ js "-->") (js "a") (js "b-->")],
     Continue (js "b-->") fresh).
Proof.
  apply (comment_call defaults (js "a") (js "b-->") fresh).
  split; [by exists (js "b-->")|].
  intros [|c pre'] suf' H; [discriminate|simpl; lia].
Defined.

Lemma end_tag_call_witness :
  dispatch defaults (js "</" ++ js "DIV" ++ js " x" ++ GT :: js "t") fresh =
    ([CallEnd (js "</" ++ js "DIV" ++ js " x" ++ [GT]) (toLowerCase (js "DIV"))
        (js "t")],
     Continue (js "t") fresh).
Proof.
  apply (end_tag_call defaults (js "DIV") (js " x") (js "t") fresh).
  - discriminate.
  - repeat constructor.
  - apply (bool_decide_unpack _). vm_compute. exact I.
  - intros d junk' [= <- _]. reflexivity.
Defined.

Lemma declaration_call_witness :
  dispatch defaults (LT :: BANG :: ch "D" :: js "OCTYPE html" ++ GT :: js "<p>")
    fresh =
    ([CallOther (LT :: BANG :: ch "D" :: js "OCTYPE html" ++ [GT])
        (BANG :: ch "D" :: js "OCTYPE html") (js "<p>")],
     Continue (js "<p>") fresh).
Proof.
  apply (declaration_call defaults (ch "D") (js "OCTYPE html") (js "<p>") fresh).
  - discriminate.
  - apply (bool_decide_unpack _). vm_compute. exact I.
Defined.

Lemma stalled_iteration_witness :
  parse defaults 4 (js "hi<") fresh =
    ([CallText (js "hi") false (js "<")],
     Threw (Error (js "HTML parse error: <")), fresh) /\
  parse (mkOptions true None None) 4 (js "hi<") fresh =
    ([CallText (js "hi") false (js "<");
      CallError (Error (js "HTML parse error: <"));
      CallError (Error (js "HTML parse error: <"))],
     Running, fresh).
Proof.
  split.
  - refine (stalled_iteration defaults 1 (js "hi<") fresh
              [CallText (js "hi") false (js "<")]
              [CallText (js "hi") false (js "<")] fresh fresh _ _ _ 1);
      vm_compute; reflexivity.
  - refine (stalled_iteration (mkOptions true None None) 1 (js "hi<") fresh
              [CallText (js "hi") false (js "<")]
              [CallText (js "hi") false (js "<")] fresh fresh _ _ _ 1);
      vm_compute; reflexivity.
Defined.
